(** * Agario multiplayer game: authoritative simulation core

    A shallow embedding of the server game engine ([createGame] and its
    physics module), of the server's world-update publisher, and of the
    client engine ([PhysicsEngine], [SpatialHashGrid], [SplitMergeSystem]),
    followed by the properties established about them.

    Numbers.  JavaScript numbers are modelled by the real numbers [R]:
    [+], [*], [/], [Math.sqrt], [Math.pow], [Math.floor] and the
    comparisons are the exact real operations, so rounding error, NaN and
    the infinities are outside the model.  Millisecond timestamps
    ([Date.now()]) are integers [Z].

    Environment.  [Date.now()], [performance.now()], [Math.random()] and
    [uuidv4()] are inputs of the functions that call them; a call that
    reads [Date.now()] several times is given one reading, [now].  Log
    output is not modelled, except the warning of the queue drain. *)

From Stdlib Require Import Reals Lra Lia ZArith List.
From Stdlib Require HexString.
From stdpp Require Import base gmap strings list pretty.

(** ** JavaScript numeric primitives over [R] *)

Module JS.
Local Open Scope R_scope.

(** [a < b] *)
Definition ltb (a b : R) : bool := if Rlt_dec a b then true else false.
(** [a <= b] *)
Definition leb (a b : R) : bool := if Rle_dec a b then true else false.
(** [a === b] on numbers *)
Definition eqb (a b : R) : bool := if Req_dec_T a b then true else false.

(** [Math.floor] *)
Definition floor (a : R) : Z := Zfloor a.
(** [Math.round(a)]: the integer [floor(a + 0.5)] (ties go up). *)
Definition round (a : R) : R := IZR (Zfloor (a + 1 / 2)).
(** [Math.pow(a, b)] for a positive base. *)
Definition pow (a b : R) : R := Rpower a b.
(** [Math.PI] *)
Definition PI : R := Rtrigo1.PI.
(** [n.toString(16)] on an integer. *)
Definition toString16 (n : Z) : string :=
  match n with
  | Z0 => "0"
  | Zpos p => HexString.Raw.of_pos p ""
  | Zneg p => String.append "-" (HexString.Raw.of_pos p "")
  end.

End JS.

(** ** Server physics module (physics.js) *)

Module Physics.
Local Open Scope R_scope.

Record Vec2 := mkVec2 { x : R; y : R }.

Record WorldBounds := mkWorldBounds { width : R; height : R }.

(** [radiusFromMass]: r = sqrt(m / pi), and 0 for a mass that is not
    positive. *)
Definition radiusFromMass (mass : R) : R :=
  if JS.leb mass 0 then 0 else sqrt (mass / JS.PI).


(** [vMaxFromMass]: v_max = clamp(220 / m^(1/4), 18, 220). *)
Definition vMaxFromMass (mass : R) : R :=
  if JS.leb mass 0 then 220
  else
    let baseSpeed := 220 / JS.pow mass (25 / 100) in
    Rmax 18 (Rmin 220 baseSpeed).

Definition DEFAULT_DAMPING : R := 98 / 100.

(** [applyDamping(velocity, dampingFactor = 0.98)] *)
Definition applyDamping (velocity dampingFactor : R) : R := velocity * dampingFactor.

(** [distance(pos1, pos2)] *)
Definition distance (pos1 pos2 : Vec2) : R :=
  let dx := x pos2 - x pos1 in
  let dy := y pos2 - y pos1 in
  sqrt (dx * dx + dy * dy).

(** [checkCollision] on the centres and radii of two entities. *)
Definition checkCollision (p1 : Vec2) (r1 : R) (p2 : Vec2) (r2 : R) : bool :=
  let dx := x p2 - x p1 in
  let dy := y p2 - y p1 in
  let distance := sqrt (dx * dx + dy * dy) in
  let minDistance := r1 + r2 in
  JS.ltb distance minDistance.

Definition normalize (vector : Vec2) : Vec2 :=
  let magnitude := sqrt (x vector * x vector + y vector * y vector) in
  if JS.eqb magnitude 0 then mkVec2 0 0
  else mkVec2 (x vector / magnitude) (y vector / magnitude).

Definition clampToWorld (position : Vec2) (radius : R) (worldBounds : WorldBounds) : Vec2 :=
  mkVec2 (Rmax radius (Rmin (width worldBounds - radius) (x position)))
         (Rmax radius (Rmin (height worldBounds - radius) (y position))).

(** [integratePosition] on the position and velocity of an entity. *)
Definition integratePosition (pos vel : Vec2) (deltaTime : R) : Vec2 :=
  mkVec2 (x pos + x vel * deltaTime) (y pos + y vel * deltaTime).

(** [canEat] on the masses of predator and prey. *)
Definition canEat (predatorMass preyMass : R) : bool :=
  JS.ltb (preyMass * (11 / 10)) predatorMass.

(** [calculateNewMass(predatorMass, preyMass, efficiency = 1.0)] *)
Definition calculateNewMass (predatorMass preyMass efficiency : R) : R :=
  predatorMass + preyMass * efficiency.

Definition INITIAL_PLAYER_MASS : R := 100.


(** [PhysicsValidator]; an entity is given by the properties read. *)
Module PhysicsValidator.

(** [isValidMovement(entity, newPosition, deltaTime)] *)
Definition isValidMovement (entityPos : Vec2) (entityMass : R) (newPosition : Vec2)
    (deltaTime : R) : bool :=
  let maxSpeed := vMaxFromMass entityMass in
  let maxDistance := maxSpeed * deltaTime in
  let actualDistance := distance entityPos newPosition in
  JS.leb actualDistance (maxDistance * (11 / 10)).

(** [isValidMassChange(oldMass, newMass, deltaTime)] *)
Definition isValidMassChange (oldMass newMass deltaTime : R) : bool :=
  let maxChangeRate := 100 in
  let maxChange := maxChangeRate * deltaTime in
  let actualChange := Rabs (newMass - oldMass) in
  JS.leb actualChange maxChange.

(** [isWithinBounds(entity, worldBounds)] *)
Definition isWithinBounds (entityPos : Vec2) (entityMass : R) (worldBounds : WorldBounds)
  : bool :=
  JS.leb 0 (x entityPos) && JS.leb (x entityPos) (width worldBounds)
  && JS.leb 0 (y entityPos) && JS.leb (y entityPos) (height worldBounds)
  && JS.ltb 0 entityMass && JS.ltb entityMass 10000.

End PhysicsValidator.

End Physics.

(** ** Server game engine (createGame) *)

Module Game.
Local Open Scope R_scope.

Inductive EntityType := Player | Fragment | Pellet | Bot.

#[global] Instance EntityType_eq_dec : EqDecision EntityType.
Proof. solve_decision. Defined.

(** An entity object.  The optional properties ([ownerId], [lifetime],
    [role], [color], [name], [killedBy], [deathTime]) are [None] while the
    object does not carry them. *)
Record Entity := mkEntity {
  id : string;
  type : EntityType;
  x : R;
  y : R;
  vx : R;
  vy : R;
  mass : R;
  radius : R;
  isAlive : bool;
  createdAt : Z;
  lastInputTime : Z;
  ownerId : option string;
  lifetime : option Z;
  role : option string;
  color : option string;
  name : option string;
  killedBy : option string;
  deathTime : option Z
}.

Definition pos (e : Entity) : Physics.Vec2 := Physics.mkVec2 (x e) (y e).
Definition vel (e : Entity) : Physics.Vec2 := Physics.mkVec2 (vx e) (vy e).

(** Assignments to single properties of an entity object. *)
Definition set_xy (e : Entity) (x' y' : R) : Entity :=
  mkEntity (id e) (type e) x' y' (vx e) (vy e) (mass e) (radius e) (isAlive e)
           (createdAt e) (lastInputTime e) (ownerId e) (lifetime e) (role e)
           (color e) (name e) (killedBy e) (deathTime e).

Definition set_v (e : Entity) (vx' vy' : R) : Entity :=
  mkEntity (id e) (type e) (x e) (y e) vx' vy' (mass e) (radius e) (isAlive e)
           (createdAt e) (lastInputTime e) (ownerId e) (lifetime e) (role e)
           (color e) (name e) (killedBy e) (deathTime e).

Definition set_mass (e : Entity) (mass' : R) : Entity :=
  mkEntity (id e) (type e) (x e) (y e) (vx e) (vy e) mass' (radius e) (isAlive e)
           (createdAt e) (lastInputTime e) (ownerId e) (lifetime e) (role e)
           (color e) (name e) (killedBy e) (deathTime e).

Definition set_radius (e : Entity) (radius' : R) : Entity :=
  mkEntity (id e) (type e) (x e) (y e) (vx e) (vy e) (mass e) radius' (isAlive e)
           (createdAt e) (lastInputTime e) (ownerId e) (lifetime e) (role e)
           (color e) (name e) (killedBy e) (deathTime e).

Definition set_lastInputTime (e : Entity) (t : Z) : Entity :=
  mkEntity (id e) (type e) (x e) (y e) (vx e) (vy e) (mass e) (radius e) (isAlive e)
           (createdAt e) t (ownerId e) (lifetime e) (role e)
           (color e) (name e) (killedBy e) (deathTime e).

Definition set_isAlive (e : Entity) (b : bool) : Entity :=
  mkEntity (id e) (type e) (x e) (y e) (vx e) (vy e) (mass e) (radius e) b
           (createdAt e) (lastInputTime e) (ownerId e) (lifetime e) (role e)
           (color e) (name e) (killedBy e) (deathTime e).

Definition set_killedBy (e : Entity) (k : string) : Entity :=
  mkEntity (id e) (type e) (x e) (y e) (vx e) (vy e) (mass e) (radius e) (isAlive e)
           (createdAt e) (lastInputTime e) (ownerId e) (lifetime e) (role e)
           (color e) (name e) (Some k) (deathTime e).

Definition set_deathTime (e : Entity) (t : Z) : Entity :=
  mkEntity (id e) (type e) (x e) (y e) (vx e) (vy e) (mass e) (radius e) (isAlive e)
           (createdAt e) (lastInputTime e) (ownerId e) (lifetime e) (role e)
           (color e) (name e) (killedBy e) (Some t).

(** The [Map<id, entity>] of the game state, in insertion order: the
    iteration order of a JavaScript [Map]. *)
Abbreviation EntityMap := (list (string * Entity)).

Fixpoint Map_get (k : string) (m : EntityMap) : option Entity :=
  match m with
  | [] => None
  | (k', v) :: m' => if decide (k = k') then Some v else Map_get k m'
  end.

(** [m.set(k, v)]: an existing key keeps its place, a new key goes last. *)
Fixpoint Map_set (k : string) (v : Entity) (m : EntityMap) : EntityMap :=
  match m with
  | [] => [(k, v)]
  | (k', v') :: m' =>
      if decide (k = k') then (k, v) :: m' else (k', v') :: Map_set k v m'
  end.

Definition Map_values (m : EntityMap) : list Entity := List.map snd m.

(** The argument object of [createEntity]: every property is optional. *)
Record EntityConfig := mkEntityConfig {
  cfg_id : option string;
  cfg_type : option EntityType;
  cfg_x : option R;
  cfg_y : option R;
  cfg_vx : option R;
  cfg_vy : option R;
  cfg_mass : option R;
  cfg_ownerId : option string;
  cfg_lifetime : option Z;
  cfg_role : option string;
  cfg_color : option string;
  cfg_name : option string
}.

(** [createEntity(config)].  Each default [config.p || d] is followed by
    the spread [...config], so a property present in [config] keeps the
    value [config] gives it and an absent one takes the default; [uuid] is
    the value [uuidv4()] returns when it is called, [now] the reading of
    [Date.now()].  The radius is assigned last, from the mass. *)
Definition createEntity (uuid : string) (now : Z) (config : EntityConfig) : Entity :=
  let entity :=
    mkEntity (default uuid (cfg_id config))
             (default Player (cfg_type config))
             (default 0 (cfg_x config))
             (default 0 (cfg_y config))
             (default 0 (cfg_vx config))
             (default 0 (cfg_vy config))
             (default Physics.INITIAL_PLAYER_MASS (cfg_mass config))
             0
             true
             now
             now
             (cfg_ownerId config)
             (cfg_lifetime config)
             (cfg_role config)
             (cfg_color config)
             (cfg_name config)
             None
             None in
  set_radius entity (Physics.radiusFromMass (mass entity)).

(** A player action.  [data] is the optional payload object; of its
    content the engine reads only [dir]. *)
Record ActionData := mkActionData { dir : option Physics.Vec2 }.

Record Action := mkAction {
  atype : string;
  playerId : string;
  ts : Z;
  data : option ActionData;
  serverTimestamp : option Z;
  targetTick : option nat
}.

Record Stats := mkStats {
  totalPlayers : nat;
  activePlayers : nat;
  pelletsCount : nat;
  actionsProcessed : nat;
  lastStepDuration : R
}.

(** [gameState].  The last two fields are not properties of the source
    object: they count the calls made so far to [Math.random()] and
    [uuidv4()], whose results are the streams [random] and [uuidv4]
    below. *)
Record GameState := mkGameState {
  roomId : string;
  tickHz : R;
  tickInterval : R;
  worldBounds : Physics.WorldBounds;
  entities : EntityMap;
  actionQueue : list Action;
  isRunning : bool;
  currentTick : nat;
  lastTickTime : Z;
  deltaTime : R;
  stats : Stats;
  randomCalls : nat;
  uuidCalls : nat
}.

Definition set_entities (st : GameState) (es : EntityMap) : GameState :=
  mkGameState (roomId st) (tickHz st) (tickInterval st) (worldBounds st) es
              (actionQueue st) (isRunning st) (currentTick st) (lastTickTime st)
              (deltaTime st) (stats st) (randomCalls st) (uuidCalls st).

Definition set_actionQueue (st : GameState) (q : list Action) : GameState :=
  mkGameState (roomId st) (tickHz st) (tickInterval st) (worldBounds st) (entities st)
              q (isRunning st) (currentTick st) (lastTickTime st)
              (deltaTime st) (stats st) (randomCalls st) (uuidCalls st).

Definition set_running (st : GameState) (b : bool) (t : Z) : GameState :=
  mkGameState (roomId st) (tickHz st) (tickInterval st) (worldBounds st) (entities st)
              (actionQueue st) b (currentTick st) t
              (deltaTime st) (stats st) (randomCalls st) (uuidCalls st).

Definition set_currentTick (st : GameState) (n : nat) : GameState :=
  mkGameState (roomId st) (tickHz st) (tickInterval st) (worldBounds st) (entities st)
              (actionQueue st) (isRunning st) n (lastTickTime st)
              (deltaTime st) (stats st) (randomCalls st) (uuidCalls st).

Definition set_stats (st : GameState) (s : Stats) : GameState :=
  mkGameState (roomId st) (tickHz st) (tickInterval st) (worldBounds st) (entities st)
              (actionQueue st) (isRunning st) (currentTick st) (lastTickTime st)
              (deltaTime st) s (randomCalls st) (uuidCalls st).

Definition set_randomCalls (st : GameState) (n : nat) : GameState :=
  mkGameState (roomId st) (tickHz st) (tickInterval st) (worldBounds st) (entities st)
              (actionQueue st) (isRunning st) (currentTick st) (lastTickTime st)
              (deltaTime st) (stats st) n (uuidCalls st).

Definition set_uuidCalls (st : GameState) (n : nat) : GameState :=
  mkGameState (roomId st) (tickHz st) (tickInterval st) (worldBounds st) (entities st)
              (actionQueue st) (isRunning st) (currentTick st) (lastTickTime st)
              (deltaTime st) (stats st) (randomCalls st) n.

(** [createGame(config)]: the initial state. *)
Definition createGame (roomId : string) (tickHz : R) (worldBounds : Physics.WorldBounds)
  : GameState :=
  mkGameState roomId tickHz (1000 / tickHz) worldBounds [] [] false 0%nat 0%Z
              (1 / tickHz) (mkStats 0 0 0 0 0) 0 0.

Definition defaultGame : GameState :=
  createGame "default" 10 (Physics.mkWorldBounds 2000 2000).

(** [enqueueAction(action)]: rejects an action without type or player,
    otherwise stamps it and appends it to the queue. *)
Definition enqueueAction (now : Z) (action : Action) (st : GameState) : GameState * bool :=
  if bool_decide (atype action = "") || bool_decide (playerId action = "") then
    (st, false)
  else
    let action' :=
      mkAction (atype action) (playerId action) (ts action) (data action)
               (Some now) (Some (currentTick st + 1)%nat) in
    (set_actionQueue st (actionQueue st ++ [action']), true).

(** The payload sent to the clients. *)
Module Payload.
Record EntityView := mkEntityView {
  id : string;
  pos : Physics.Vec2;
  vel : Physics.Vec2;
  mass : R;
  radius : R;
  type : EntityType;
  role : string;
  isAlive : bool
}.
Record t := mk {
  kind : string;
  tick : nat;
  entities : list EntityView;
  serverTs : Z;
  stats : Stats
}.
End Payload.

Section Engine.

(** The successive results of [Math.random()] and of [uuidv4()]. *)
Variable random : nat -> R.
Variable uuidv4 : nat -> string.

(** [generateRandomPosition]: up to [attempts] tries, each drawing two
    random numbers from position [k] of the stream; the result is the
    position and the stream position after it. *)
Fixpoint randomPositionLoop (attempts : nat) (k : nat)
    (worldBounds : Physics.WorldBounds) (radius : R) (avoidAreas : list Entity)
  : Physics.Vec2 * nat :=
  let px := radius + random k * (Physics.width worldBounds - 2 * radius) in
  let py := radius + random (S k) * (Physics.height worldBounds - 2 * radius) in
  match attempts with
  | O => (Physics.mkVec2 px py, S (S k))
  | S attempts' =>
      let valid :=
        forallb (fun area =>
                   negb (JS.ltb (Physics.distance (Physics.mkVec2 px py) (pos area))
                                (Game.radius area + radius + 50)))
                avoidAreas in
      if valid then (Physics.mkVec2 px py, S (S k))
      else randomPositionLoop attempts' (S (S k)) worldBounds radius avoidAreas
  end.

Definition generateRandomPosition := randomPositionLoop 50.

(** [addPlayer(playerId)] with the default (empty) configuration; the
    result is the new state and the player's entity. *)
Definition addPlayer (now : Z) (playerId : string) (st : GameState) : GameState * Entity :=
  match Map_get playerId (entities st) with
  | Some existing => (st, existing)
  | None =>
      let '(spawnPosition, k) :=
        generateRandomPosition (randomCalls st) (worldBounds st) 25
                               (Map_values (entities st)) in
      let colour :=
        String.append "#"
          (JS.toString16 (JS.floor (random k * 16777215))) in
      let player :=
        createEntity (uuidv4 (uuidCalls st)) now
          (mkEntityConfig (Some playerId) (Some Player)
                          (Some (Physics.x spawnPosition)) (Some (Physics.y spawnPosition))
                          None None (Some Physics.INITIAL_PLAYER_MASS) None None
                          (Some "basic") (Some colour)
                          (Some (String.append "Player_" (String.substring 0 8 playerId)))) in
      let st1 := set_entities st (Map_set playerId player (entities st)) in
      let st2 := set_randomCalls st1 (S k) in
      let st3 :=
        if bool_decide (playerId = "")
        then set_uuidCalls st2 (S (uuidCalls st2)) else st2 in
      let s := stats st3 in
      (set_stats st3 (mkStats (S (totalPlayers s)) (activePlayers s) (pelletsCount s)
                             (actionsProcessed s) (lastStepDuration s)),
       player)
  end.

(** [processInputAction(entity, inputData)]: the entity after the call. *)
Definition processInputAction (now : Z) (entity : Entity) (inputData : option ActionData)
  : Entity :=
  match inputData with
  | Some (mkActionData (Some d)) =>
      let direction := Physics.normalize d in
      let maxSpeed := Physics.vMaxFromMass (mass entity) in
      let entity1 :=
        set_v entity (Physics.x direction * maxSpeed) (Physics.y direction * maxSpeed) in
      set_lastInputTime entity1 now
  | _ => entity
  end.

(** [processSplitAction(entity, splitData)] on the state holding the
    object [entity] under [key]. *)
Definition processSplitAction (now : Z) (key : string) (entity : Entity) (st : GameState)
  : GameState :=
  if JS.ltb (mass entity) 50 then st
  else
    let newMass := mass entity / 2 in
    let entity1 := set_mass entity newMass in
    let entity2 := set_radius entity1 (Physics.radiusFromMass newMass) in
    let fragment :=
      createEntity (uuidv4 (uuidCalls st)) now
        (mkEntityConfig None (Some Fragment)
                        (Some (x entity2 + radius entity2 * 2)) (Some (y entity2))
                        (Some (vx entity2 * (15 / 10))) (Some (vy entity2 * (15 / 10)))
                        (Some newMass) (Some (id entity2)) (Some 30000%Z)
                        None None None) in
    let es1 := Map_set key entity2 (entities st) in
    let es2 := Map_set (id fragment) fragment es1 in
    set_uuidCalls (set_entities st es2) (S (uuidCalls st)).

(** [processAction(action)] *)
Definition processAction (now : Z) (action : Action) (st : GameState) : GameState :=
  match Map_get (playerId action) (entities st) with
  | None =>
      if bool_decide (atype action = "input") || bool_decide (atype action = "spawn")
      then fst (addPlayer now (playerId action) st)
      else st
  | Some entity =>
      if bool_decide (atype action = "input") then
        set_entities st
          (Map_set (playerId action) (processInputAction now entity (data action))
                   (entities st))
      else if bool_decide (atype action = "ability") then st
      else if bool_decide (atype action = "split") then
        processSplitAction now (playerId action) entity st
      else if bool_decide (atype action = "orb_collect") then st
      else st
  end.

(** The actions of a list handled one after the other, first to last. *)
Definition applyInOrder (now : Z) (actions : list Action) (st : GameState) : GameState :=
  foldl (fun s action => processAction now action s) st actions.

(** The loop of [processActionQueue].  [elapsed k] is the reading
    [performance.now() - startTime] taken after the [k]-th action of this
    drain; the third component of the result is the warning, carrying the
    number of actions left behind. *)
Fixpoint drainLoop (now : Z) (elapsed : nat -> R) (processedCount : nat)
    (queue : list Action) (st : GameState) : GameState * nat * option nat :=
  match queue with
  | [] => (set_actionQueue st [], processedCount, None)
  | action :: rest =>
      let st1 := processAction now action (set_actionQueue st rest) in
      let processedCount' := S processedCount in
      if JS.ltb 50 (elapsed processedCount')
      then (st1, processedCount', Some (length (actionQueue st1)))
      else drainLoop now elapsed processedCount' rest st1
  end.

Definition processActionQueue (now : Z) (elapsed : nat -> R) (st : GameState)
  : GameState * option nat :=
  let '(st1, processedCount, warning) := drainLoop now elapsed 0 (actionQueue st) st in
  let s := stats st1 in
  (set_stats st1 (mkStats (totalPlayers s) (activePlayers s) (pelletsCount s)
                          (actionsProcessed s + processedCount) (lastStepDuration s)),
   warning).

(** One iteration of the loop of [integratePhysics]. *)
Definition integrateEntity (deltaTime : R) (worldBounds : Physics.WorldBounds)
    (entity : Entity) : Entity :=
  if decide (type entity = Pellet) then entity
  else
    let newPos := Physics.integratePosition (pos entity) (vel entity) deltaTime in
    let entity1 := set_xy entity (Physics.x newPos) (Physics.y newPos) in
    let entity2 :=
      set_v entity1 (Physics.applyDamping (vx entity1) Physics.DEFAULT_DAMPING)
                    (Physics.applyDamping (vy entity1) Physics.DEFAULT_DAMPING) in
    let clampedPos := Physics.clampToWorld (pos entity2) (radius entity2) worldBounds in
    let entity3 := set_xy entity2 (Physics.x clampedPos) (Physics.y clampedPos) in
    if negb (JS.eqb (Physics.x clampedPos) (x entity3))
       || negb (JS.eqb (Physics.y clampedPos) (y entity3))
    then set_v entity3 (vx entity3 * (5 / 10)) (vy entity3 * (5 / 10))
    else entity3.

Definition integratePhysics (st : GameState) : GameState :=
  set_entities st
    (List.map (fun p => (fst p, integrateEntity (deltaTime st) (worldBounds st) (snd p)))
              (entities st)).

(** The mass transfer at the end of [handleCollision]: the predator and
    the prey after it. *)
Definition transferMass (now : Z) (predator prey : Entity) : Entity * Entity :=
  let newMass := Physics.calculateNewMass (mass predator) (mass prey) 1 in
  let predator1 := set_mass predator newMass in
  let predator2 := set_radius predator1 (Physics.radiusFromMass newMass) in
  let prey1 := set_isAlive prey false in
  let prey2 := set_killedBy prey1 (id predator2) in
  let prey3 := set_deathTime prey2 now in
  (predator2, prey3).

(** [handleCollision(entityA, entityB)]: both objects after the call. *)
Definition handleCollision (now : Z) (entityA entityB : Entity) : Entity * Entity :=
  if Physics.canEat (mass entityA) (mass entityB) then
    transferMass now entityA entityB
  else if Physics.canEat (mass entityB) (mass entityA) then
    let '(predator, prey) := transferMass now entityB entityA in (prey, predator)
  else (entityA, entityB).

(** The body of the inner loop of [processCollisions] for one pair. *)
Definition resolvePair (now : Z) (entityA entityB : Entity) : Entity * Entity :=
  if Physics.checkCollision (pos entityA) (radius entityA) (pos entityB) (radius entityB)
  then handleCollision now entityA entityB
  else (entityA, entityB).

(** The same on the array of entity objects, at indices [i] and [j]. *)
Definition collideAt (now : Z) (i j : nat) (es : list Entity) : list Entity :=
  match es !! i, es !! j with
  | Some entityA, Some entityB =>
      let '(entityA', entityB') := resolvePair now entityA entityB in
      <[j := entityB']> (<[i := entityA']> es)
  | _, _ => es
  end.

(** [processCollisions]: all pairs [i < j] of the array of values, in loop
    order; the objects of the array are the objects of the map. *)
Definition processCollisions (now : Z) (st : GameState) : GameState :=
  let es := Map_values (entities st) in
  let n := length es in
  let es' :=
    foldl (fun acc i => foldl (fun acc' j => collideAt now i j acc') acc
                              (seq (S i) (n - S i)))
          es (seq 0 n) in
  set_entities st (zip_with (fun p e => (fst p, e)) (entities st) es').

Definition shouldRemove (now : Z) (entity : Entity) : bool :=
  negb (isAlive entity)
  || (bool_decide (type entity = Fragment)
      && match lifetime entity with
         | Some l => negb (l =? 0)%Z && (l <? now - createdAt entity)%Z
         | None => false
         end)
  || (bool_decide (type entity = Player)
      && negb (lastInputTime entity =? 0)%Z
      && (120000 <? now - lastInputTime entity)%Z).

(** [cleanupDeadEntities]: the entries to remove are deleted, the others
    keep their order. *)
Definition cleanupDeadEntities (now : Z) (st : GameState) : GameState :=
  set_entities st (List.filter (fun p => negb (shouldRemove now (snd p))) (entities st)).

Definition updateStats (st : GameState) : GameState :=
  let es := Map_values (entities st) in
  let playerCount := length (List.filter (fun e => bool_decide (type e = Player)) es) in
  let pelletCount := length (List.filter (fun e => bool_decide (type e = Pellet)) es) in
  let s := stats st in
  set_stats st (mkStats (totalPlayers s) playerCount pelletCount
                        (actionsProcessed s) (lastStepDuration s)).

Definition entityView (entity : Entity) : Payload.EntityView :=
  Payload.mkEntityView
    (id entity)
    (Physics.mkVec2 (JS.round (x entity)) (JS.round (y entity)))
    (Physics.mkVec2 (JS.round (vx entity)) (JS.round (vy entity)))
    (JS.round (mass entity))
    (JS.round (radius entity))
    (type entity)
    (match role entity with
     | Some r => if bool_decide (r = "") then "basic" else r
     | None => "basic"
     end)
    (isAlive entity).

(** [generateDelta()] *)
Definition generateDelta (now : Z) (st : GameState) : Payload.t :=
  Payload.mk "delta" (currentTick st)
             (List.map entityView (Map_values (entities st)))
             now (stats st).

(** [step()].  [onUpdateCallback] turns the payload into what it sends;
    the result is the state, the queue warning and what was sent. *)
Definition step {M : Type} (now : Z) (elapsed : nat -> R) (stepDuration : R)
    (onUpdateCallback : option (Payload.t -> list M)) (st : GameState)
  : GameState * option nat * list M :=
  let '(st1, warning) := processActionQueue now elapsed st in
  let st2 := integratePhysics st1 in
  let st3 := processCollisions now st2 in
  let st4 := cleanupDeadEntities now st3 in
  let st5 := updateStats st4 in
  let delta := generateDelta now st5 in
  let sent := match onUpdateCallback with Some f => f delta | None => [] end in
  let st6 := set_currentTick st5 (S (currentTick st5)) in
  let s := stats st6 in
  (set_stats st6 (mkStats (totalPlayers s) (activePlayers s) (pelletsCount s)
                          (actionsProcessed s) stepDuration),
   warning, sent).

(** The game instance: [gameState] with the two closure variables of
    [createGame], the interval timer (set or not) and the callback. *)
Record GameInstance (M : Type) := mkInstance {
  gameState : GameState;
  gameLoopInterval : bool;
  onUpdateCallback : option (Payload.t -> list M)
}.
Arguments mkInstance {M}.
Arguments gameState {M}.
Arguments gameLoopInterval {M}.
Arguments onUpdateCallback {M}.

(** [startLoop(updateCallback)]: nothing happens when the loop runs. *)
Definition startLoop {M : Type} (now : Z) (updateCallback : Payload.t -> list M)
    (g : GameInstance M) : GameInstance M :=
  if isRunning (gameState g) then g
  else mkInstance (set_running (gameState g) true now) true (Some updateCallback).

Definition stopLoop {M : Type} (g : GameInstance M) : GameInstance M :=
  if negb (isRunning (gameState g)) then g
  else mkInstance (set_running (gameState g) false (lastTickTime (gameState g)))
                  false (onUpdateCallback g).

(** What happens to a game instance: an action arrives, a player joins,
    or the interval timer fires (with the clock readings of that tick). *)
Inductive Event :=
| Arrival (now : Z) (action : Action)
| Join (now : Z) (playerId : string)
| TimerFired (now : Z) (elapsed : nat -> R) (stepDuration : R).


(** One event: the instance after it and what the callback sent. *)
Definition react {M : Type} (ev : Event) (g : GameInstance M) : GameInstance M * list M :=
  match ev with
  | Arrival now action =>
      (mkInstance (fst (enqueueAction now action (gameState g)))
                  (gameLoopInterval g) (onUpdateCallback g), [])
  | Join now playerId =>
      (mkInstance (fst (addPlayer now playerId (gameState g)))
                  (gameLoopInterval g) (onUpdateCallback g), [])
  | TimerFired now elapsed stepDuration =>
      if gameLoopInterval g then
        let '(st, _, sent) :=
          step now elapsed stepDuration (onUpdateCallback g) (gameState g) in
        (mkInstance st (gameLoopInterval g) (onUpdateCallback g), sent)
      else (g, [])
  end.

(** A run: the events in order; the result collects what each one sent. *)
Fixpoint run {M : Type} (evs : list Event) (g : GameInstance M) : GameInstance M * list (list M) :=
  match evs with
  | [] => (g, [])
  | ev :: evs' =>
      let '(g1, sent) := react ev g in
      let '(g2, rest) := run evs' g1 in
      (g2, sent :: rest)
  end.

End Engine.

Arguments mkInstance {M}.
Arguments gameState {M}.
Arguments gameLoopInterval {M}.
Arguments onUpdateCallback {M}.

End Game.

(** ** Server: publication of world updates (server.js) *)

Module Server.

(** A message handed to [room.channel.send]. *)
Record Broadcast := mkBroadcast {
  type : string;
  event : string;
  payload : Game.Payload.t
}.

(** [publishWorldUpdate(room, deltaPayload)]: the messages sent on the
    room's channel, in order (the sends are taken to succeed). *)
Definition publishWorldUpdate (deltaPayload : Game.Payload.t) : list Broadcast :=
  let delta := mkBroadcast "broadcast" "world_update" deltaPayload in
  if (Game.Payload.tick deltaPayload mod 50 =? 0)%nat then
    let snapshotPayload :=
      Game.Payload.mk "snapshot"
                      (Game.Payload.tick deltaPayload)
                      (Game.Payload.entities deltaPayload)
                      (Game.Payload.serverTs deltaPayload)
                      (Game.Payload.stats deltaPayload) in
    [delta; mkBroadcast "broadcast" "world_update" snapshotPayload]
  else [delta].

(** The rate-limit record of a player. *)
Record RateLimit := mkRateLimit {
  messages : list Z;
  blockedUntil : Z
}.

(** [checkRateLimit(playerId)] at the instant [now], on the map
    [serverState.rateLimits]; [maxMsgsPerSecond] is the configured limit.
    The result is the map after the call and the returned flag (the
    security log entry written on blocking is left out). *)
Definition checkRateLimit (maxMsgsPerSecond : Z) (now : Z) (playerId : string)
    (rateLimits : gmap string RateLimit) : gmap string RateLimit * bool :=
  let windowMs := 1000%Z in
  let playerLimits := default (mkRateLimit [] 0) (rateLimits !! playerId) in
  if (now <? blockedUntil playerLimits)%Z then
    (<[playerId := playerLimits]> rateLimits, false)
  else
    let kept := List.filter (fun ts => (now - ts <? windowMs)%Z) (messages playerLimits) in
    if (maxMsgsPerSecond <=? Z.of_nat (length kept))%Z then
      (<[playerId := mkRateLimit kept (now + 3000)]> rateLimits, false)
    else
      (<[playerId := mkRateLimit (kept ++ [now]) (blockedUntil playerLimits)]> rateLimits,
       true).

End Server.

(** ** Client: entity types (PhysicsEngine.ts) *)

Module Client.
Local Open Scope R_scope.

Record Vector2D := mkVector2D { x : R; y : R }.

Inductive EntityType := Player | Pellet | Bot.

Record Entity := mkEntity {
  id : string;
  position : Vector2D;
  velocity : Vector2D;
  mass : R;
  radius : R;
  type : EntityType
}.

End Client.

(** ** Client: spatial hash grid (SpatialHashGrid.ts) *)

Module SpatialHashGrid.
Local Open Scope R_scope.

(** A cell key, the string [x,y] of two integers, is the pair of them. *)
Abbreviation CellKey := (Z * Z)%type.

Record SpatialCell := mkSpatialCell {
  x : Z;
  y : Z;
  entities : gset string
}.

Record t := mk {
  cellSize : R;
  grid : gmap CellKey SpatialCell;
  entityCells : gmap string (list CellKey)
}.

(** [new SpatialHashGrid(cellSize)] *)
Definition create (cellSize : R) : t := mk cellSize ∅ ∅.

(** The integers [a, a+1, ..., b] of a loop [for (i = a; i <= b; i++)]. *)
Definition range (a b : Z) : list Z :=
  List.map (fun i => (a + Z.of_nat i)%Z) (seq 0 (Z.to_nat (b - a + 1))).

(** [getEntityCells(entity)] *)
Definition getEntityCells (g : t) (entity : Client.Entity) : list CellKey :=
  let minX := Client.x (Client.position entity) - Client.radius entity in
  let maxX := Client.x (Client.position entity) + Client.radius entity in
  let minY := Client.y (Client.position entity) - Client.radius entity in
  let maxY := Client.y (Client.position entity) + Client.radius entity in
  let startCellX := JS.floor (minX / cellSize g) in
  let endCellX := JS.floor (maxX / cellSize g) in
  let startCellY := JS.floor (minY / cellSize g) in
  let endCellY := JS.floor (maxY / cellSize g) in
  List.flat_map (fun cx => List.map (fun cy => (cx, cy)) (range startCellY endCellY))
                (range startCellX endCellX).

(** One iteration of the loop of [insert]. *)
Definition insertInCell (entityId : string) (gr : gmap CellKey SpatialCell)
    (cellKey : CellKey) : gmap CellKey SpatialCell :=
  let cell :=
    match gr !! cellKey with
    | Some c => c
    | None => mkSpatialCell (fst cellKey) (snd cellKey) ∅
    end in
  <[cellKey := mkSpatialCell (x cell) (y cell) ({[entityId]} ∪ entities cell)]> gr.

(** [insert(entity)] *)
Definition insert (entity : Client.Entity) (g : t) : t :=
  let cells := getEntityCells g entity in
  mk (cellSize g)
     (foldl (insertInCell (Client.id entity)) (grid g) cells)
     (<[Client.id entity := cells]> (entityCells g)).

(** One iteration of the loop of [remove]. *)
Definition removeFromCell (entityId : string) (gr : gmap CellKey SpatialCell)
    (cellKey : CellKey) : gmap CellKey SpatialCell :=
  match gr !! cellKey with
  | Some cell =>
      let remaining := entities cell ∖ {[entityId]} in
      if decide (size remaining = 0%nat) then delete cellKey gr
      else <[cellKey := mkSpatialCell (x cell) (y cell) remaining]> gr
  | None => gr
  end.

(** [remove(entityId)] *)
Definition remove (entityId : string) (g : t) : t :=
  let oldCells := default [] (entityCells g !! entityId) in
  mk (cellSize g)
     (foldl (removeFromCell entityId) (grid g) oldCells)
     (delete entityId (entityCells g)).

(** [update(entity)] *)
Definition update (entity : Client.Entity) (g : t) : t :=
  insert entity (remove (Client.id entity) g).

(** The set built by [query(entity)]. *)
Definition nearbyEntities (g : t) (entity : Client.Entity) : gset string :=
  foldl (fun acc cellKey =>
           match grid g !! cellKey with
           | Some cell => acc ∪ (entities cell ∖ {[Client.id entity]})
           | None => acc
           end)
        ∅ (getEntityCells g entity).

(** [query(entity)]: the ids of the set, as a list (in no particular
    order). *)
Definition query (g : t) (entity : Client.Entity) : list string :=
  elements (nearbyEntities g entity).

(** [clear()] *)
Definition clear (g : t) : t := mk (cellSize g) ∅ ∅.

(** [rebuild(entities)] *)
Definition rebuild (es : list Client.Entity) (g : t) : t :=
  foldl (fun acc entity => insert entity acc) (clear g) es.

(** The cell keys of the loops of [queryArea]. *)
Definition areaCells (g : t) (minX minY maxX maxY : R) : list CellKey :=
  let startCellX := JS.floor (minX / cellSize g) in
  let endCellX := JS.floor (maxX / cellSize g) in
  let startCellY := JS.floor (minY / cellSize g) in
  let endCellY := JS.floor (maxY / cellSize g) in
  List.flat_map (fun cx => List.map (fun cy => (cx, cy)) (range startCellY endCellY))
                (range startCellX endCellX).

(** The set built by [queryArea]. *)
Definition areaEntities (g : t) (minX minY maxX maxY : R) : gset string :=
  foldl (fun acc cellKey =>
           match grid g !! cellKey with
           | Some cell => acc ∪ entities cell
           | None => acc
           end)
        ∅ (areaCells g minX minY maxX maxY).

(** [queryArea(minX, minY, maxX, maxY)]: the ids of the set, as a list (in
    no particular order). *)
Definition queryArea (g : t) (minX minY maxX maxY : R) : list string :=
  elements (areaEntities g minX minY maxX maxY).

(** [hasEntitiesNear(position, radius)] *)
Definition hasEntitiesNear (g : t) (position : Client.Vector2D) (radius : R) : bool :=
  let cellsToCheck :=
    getEntityCells g
      (Client.mkEntity "temp" position (Client.mkVector2D 0 0) 1 radius Client.Pellet) in
  existsb (fun cellKey =>
             match grid g !! cellKey with
             | Some cell => negb (size (entities cell) =? 0)%nat
             | None => false
             end)
          cellsToCheck.

End SpatialHashGrid.

(** ** Client: physics engine (PhysicsEngine.ts) *)

Module PhysicsEngine.
Import Client.
Local Open Scope R_scope.

(** The engine: its entity table and its grid (the frame clock
    [lastUpdate] is left out). *)
Record t := mk {
  entities : gmap string Entity;
  spatialGrid : SpatialHashGrid.t
}.

(** [new PhysicsEngine()]: 150 x 150 cells. *)
Definition create : t := mk ∅ (SpatialHashGrid.create 150).

Definition calculateRadius (mass : R) : R := sqrt (mass / JS.PI).


(** [calculateMaxVelocity]: v_max = clamp(220 / m^(1/4), 18, 220). *)
Definition calculateMaxVelocity (mass : R) : R :=
  let baseVelocity := 220 / JS.pow mass (1 / 4) in
  Rmax 18 (Rmin 220 baseVelocity).

(** [createEntity(id, type, mass, position)]: the engine and the entity. *)
Definition createEntity (id : string) (type : EntityType) (mass : R)
    (position : Vector2D) (pe : t) : t * Entity :=
  let entity :=
    mkEntity id (mkVector2D (x position) (y position)) (mkVector2D 0 0)
             mass (calculateRadius mass) type in
  (mk (<[id := entity]> (entities pe)) (SpatialHashGrid.insert entity (spatialGrid pe)),
   entity).

Definition getEntity (id : string) (pe : t) : option Entity := entities pe !! id.

(** [updateEntityMass(entityId, newMass)] *)
Definition updateEntityMass (entityId : string) (newMass : R) (pe : t) : t :=
  match entities pe !! entityId with
  | Some entity =>
      let entity' :=
        mkEntity (id entity) (position entity) (velocity entity)
                 newMass (calculateRadius newMass) (type entity) in
      mk (<[entityId := entity']> (entities pe))
         (SpatialHashGrid.update entity' (spatialGrid pe))
  | None => pe
  end.

(** [applyMovement(entityId, direction)] *)
Definition applyMovement (entityId : string) (direction : Vector2D) (pe : t) : t :=
  match entities pe !! entityId with
  | None => pe
  | Some entity =>
      let maxVelocity := calculateMaxVelocity (mass entity) in
      let magnitude := sqrt (x direction * x direction + y direction * y direction) in
      let velocity' :=
        if JS.ltb 0 magnitude
        then mkVector2D (x direction / magnitude * maxVelocity)
                        (y direction / magnitude * maxVelocity)
        else mkVector2D 0 0 in
      mk (<[entityId := mkEntity (id entity) (position entity) velocity'
                                 (mass entity) (radius entity) (type entity)]>
            (entities pe))
         (spatialGrid pe)
  end.

(** [checkCollision(entity1, entity2)] *)
Definition checkCollision (entity1 entity2 : Entity) : bool :=
  let dx := x (position entity1) - x (position entity2) in
  let dy := y (position entity1) - y (position entity2) in
  let distance := sqrt (dx * dx + dy * dy) in
  JS.ltb distance (radius entity1 + radius entity2).

(** [processEatingCollision(predatorId, preyId)]: the engine after the
    call and the returned flag. *)
Definition processEatingCollision (predatorId preyId : string) (pe : t) : t * bool :=
  match entities pe !! predatorId, entities pe !! preyId with
  | Some predator, Some prey =>
      if JS.leb (radius predator) (radius prey) then (pe, false)
      else if checkCollision predator prey then
        let newMass := mass predator + mass prey in
        let pe1 := updateEntityMass predatorId newMass pe in
        (mk (delete preyId (entities pe1)) (spatialGrid pe1), true)
      else (pe, false)
  | _, _ => (pe, false)
  end.

(** [removeEntity(id)] *)
Definition removeEntity (id : string) (pe : t) : t :=
  mk (delete id (entities pe)) (SpatialHashGrid.remove id (spatialGrid pe)).

(** The body of the loop of [updatePositions] on one entity object. *)
Definition moveEntity (deltaTime : R) (entity : Entity) : Entity :=
  mkEntity (id entity)
           (mkVector2D
              (x (position entity) + x (velocity entity) * (deltaTime / 1000))
              (y (position entity) + y (velocity entity) * (deltaTime / 1000)))
           (mkVector2D (x (velocity entity) * (95 / 100))
                       (y (velocity entity) * (95 / 100)))
           (mass entity) (radius entity) (type entity).

(** [updatePositions(deltaTime)].  [order] lists the keys of the entity
    table in the order in which the loop visits them, the insertion order
    of the [Map], which the finite map here does not record. *)
Definition updatePositions (order : list string) (deltaTime : R) (pe : t) : t :=
  foldl (fun acc key =>
           match entities acc !! key with
           | Some entity =>
               let entity' := moveEntity deltaTime entity in
               mk (<[key := entity']> (entities acc))
                  (SpatialHashGrid.update entity' (spatialGrid acc))
           | None => acc
           end)
        pe order.

(** [update()]: [currentTime] is the reading of [performance.now()] and
    [lastUpdate] the one stored by the call before; the result is the
    engine and the new value of [lastUpdate]. *)
Definition update (order : list string) (currentTime lastUpdate : R) (pe : t) : t * R :=
  let deltaTime := currentTime - lastUpdate in
  let clampedDelta := Rmin deltaTime (1000 / 60 * 2) in
  (updatePositions order clampedDelta pe, currentTime).

End PhysicsEngine.

(** ** Client: split and merge (SplitMergeSystem.ts) *)

Module SplitMergeSystem.
Import Client.
Local Open Scope R_scope.

Record SplitConfig := mkSplitConfig {
  minMassToSplit : R;
  splitRatio : R;
  splitForce : R;
  splitCooldown : Z;
  maxSplitParts : Z;
  mergeTime : Z
}.

Record PlayerSplit := mkPlayerSplit {
  id : string;
  parentId : string;
  createdAt : Z;
  canMerge : bool
}.

(** The system with the physics engine it holds a reference to. *)
Record t := mk {
  physicsEngine : PhysicsEngine.t;
  config : SplitConfig;
  playerSplits : gmap string (list PlayerSplit);
  lastSplitTime : gmap string Z
}.

Definition defaultConfig : SplitConfig :=
  mkSplitConfig 35 (5 / 10) 300 1000 16 30000.

(** [new SplitMergeSystem(physicsEngine)] *)
Definition create (physicsEngine : PhysicsEngine.t) : t :=
  mk physicsEngine defaultConfig ∅ ∅.

(** [canPlayerSplit(playerId)] at the instant [now]. *)
Definition canPlayerSplit (now : Z) (playerId : string) (s : t) : bool :=
  match PhysicsEngine.getEntity playerId (physicsEngine s) with
  | None => false
  | Some player =>
      if JS.ltb (mass player) (minMassToSplit (config s)) then false
      else
        let lastSplit := default 0%Z (lastSplitTime s !! playerId) in
        if (now - lastSplit <? splitCooldown (config s))%Z then false
        else
          let splits := default [] (playerSplits s !! playerId) in
          if (maxSplitParts (config s) - 1 <=? Z.of_nat (length splits))%Z then false
          else true
  end.

(** The in-place normalisation of the split direction. *)
Definition normalizeDirection (splitDirection : Vector2D) : Vector2D :=
  let magnitude :=
    sqrt (x splitDirection * x splitDirection + y splitDirection * y splitDirection) in
  if JS.ltb 0 magnitude
  then mkVector2D (x splitDirection / magnitude) (y splitDirection / magnitude)
  else splitDirection.

(** [performSplit(playerId, direction)] at the instant [now]: the system
    after the call and the returned flag. *)
Definition performSplit (now : Z) (playerId : string) (direction : option Vector2D)
    (s : t) : t * bool :=
  if negb (canPlayerSplit now playerId s) then (s, false)
  else
    match PhysicsEngine.getEntity playerId (physicsEngine s) with
    | None => (s, false)
    | Some player =>
        let splitDirection :=
          normalizeDirection (default (mkVector2D 0 (-1)) direction) in
        let newCellMass := mass player * splitRatio (config s) in
        let remainingMass := mass player - newCellMass in
        let pe1 := PhysicsEngine.updateEntityMass playerId remainingMass (physicsEngine s) in
        (* [player] is the object just updated *)
        let player1 := default player (PhysicsEngine.getEntity playerId pe1) in
        let newCellId := String.append playerId (String.append "_split_" (pretty now)) in
        let newCellPosition :=
          mkVector2D
            (x (position player1) + x splitDirection * (radius player1 + 10))
            (y (position player1) + y splitDirection * (radius player1 + 10)) in
        let '(pe2, newCell) :=
          PhysicsEngine.createEntity newCellId (type player1) newCellMass
                                     newCellPosition pe1 in
        let pe3 :=
          PhysicsEngine.applyMovement newCellId
            (mkVector2D (x splitDirection * splitForce (config s))
                        (y splitDirection * splitForce (config s))) pe2 in
        let pe4 :=
          PhysicsEngine.applyMovement playerId
            (mkVector2D (- x splitDirection * (splitForce (config s) * (3 / 10)))
                        (- y splitDirection * (splitForce (config s) * (3 / 10)))) pe3 in
        let splits := default [] (playerSplits s !! playerId) in
        let splits' := splits ++ [mkPlayerSplit newCellId playerId now false] in
        (mk pe4 (config s)
            (<[playerId := splits']> (playerSplits s))
            (<[playerId := now]> (lastSplitTime s)),
         true)
    end.

(** [splits.splice(index, 1)] at the first record with the given id;
    [None] when [findIndex] finds none. *)
Fixpoint spliceFirst (splitId : string) (splits : list PlayerSplit)
  : option (list PlayerSplit) :=
  match splits with
  | [] => None
  | sp :: rest =>
      if decide (id sp = splitId) then Some rest
      else option_map (cons sp) (spliceFirst splitId rest)
  end.

(** [removePlayerSplit(playerId, splitId)] *)
Definition removePlayerSplit (playerId splitId : string) (s : t) : t :=
  let splits := default [] (playerSplits s !! playerId) in
  match spliceFirst splitId splits with
  | Some splits' =>
      mk (physicsEngine s) (config s) (<[playerId := splits']> (playerSplits s))
         (lastSplitTime s)
  | None => s
  end.

(** [mergeCells(parentId, splitId)] *)
Definition mergeCells (parentId splitId : string) (s : t) : t :=
  let pe := physicsEngine s in
  match PhysicsEngine.getEntity parentId pe, PhysicsEngine.getEntity splitId pe with
  | Some parent, Some split =>
      let totalMass := mass parent + mass split in
      let newPosition :=
        mkVector2D
          ((x (position parent) * mass parent + x (position split) * mass split) / totalMass)
          ((y (position parent) * mass parent + y (position split) * mass split) / totalMass) in
      let pe1 := PhysicsEngine.updateEntityMass parentId totalMass pe in
      let moved :=
        match PhysicsEngine.entities pe1 !! parentId with
        | Some p =>
            <[parentId := mkEntity (Client.id p) newPosition (velocity p)
                                   (mass p) (radius p) (type p)]>
              (PhysicsEngine.entities pe1)
        | None => PhysicsEngine.entities pe1
        end in
      let pe2 := PhysicsEngine.mk moved (PhysicsEngine.spatialGrid pe1) in
      let pe3 := PhysicsEngine.removeEntity splitId pe2 in
      removePlayerSplit parentId splitId
        (mk pe3 (config s) (playerSplits s) (lastSplitTime s))
  | _, _ => s
  end.

(** [attemptMerge(parentId, splitId)] *)
Definition attemptMerge (parentId splitId : string) (s : t) : t :=
  let pe := physicsEngine s in
  match PhysicsEngine.getEntity parentId pe, PhysicsEngine.getEntity splitId pe with
  | Some parent, Some split =>
      let dx := x (position parent) - x (position split) in
      let dy := y (position parent) - y (position split) in
      let distance := sqrt (dx * dx + dy * dy) in
      let mergeDistance := (radius parent + radius split) * (8 / 10) in
      if JS.ltb distance mergeDistance then mergeCells parentId splitId s else s
  | _, _ => removePlayerSplit parentId splitId s
  end.

(** One step of the inner loop of [update] at the instant [now]: the
    record at index [i] of the player's array, or [None] when the array
    ends before [i].  Setting [canMerge] changes the record in the array;
    [attemptMerge] may splice the array while the loop walks it. *)
Definition updateSplitAt (now : Z) (playerId : string) (i : nat) (s : t) : option t :=
  let splits := default [] (playerSplits s !! playerId) in
  match splits !! i with
  | None => None
  | Some split =>
      let enable :=
        negb (canMerge split) && (mergeTime (config s) <? now - createdAt split)%Z in
      let split' :=
        if enable
        then mkPlayerSplit (id split) (parentId split) (createdAt split) true
        else split in
      let s1 :=
        if enable
        then mk (physicsEngine s) (config s)
                (<[playerId := <[i := split']> splits]> (playerSplits s))
                (lastSplitTime s)
        else s in
      Some (if canMerge split' then attemptMerge playerId (id split') s1 else s1)
  end.

(** The inner loop of [update] from index [i] on; the array never grows
    in the loop, so its length at the start bounds the number of steps. *)
Fixpoint updateSplitsFrom (steps : nat) (now : Z) (playerId : string) (i : nat) (s : t)
  : t :=
  match steps with
  | O => s
  | S steps' =>
      match updateSplitAt now playerId i s with
      | None => s
      | Some s' => updateSplitsFrom steps' now playerId (S i) s'
      end
  end.

(** [update()] at the instant [now]; [order] lists the keys of
    [playerSplits] in the order in which the outer loop visits them. *)
Definition update (order : list string) (now : Z) (s : t) : t :=
  foldl (fun acc playerId =>
           match playerSplits acc !! playerId with
           | Some splits => updateSplitsFrom (length splits) now playerId 0 acc
           | None => acc
           end)
        s order.

(** [getPlayerCells(playerId)]: the main cell, then the split cells whose
    entities exist, in the order of the records. *)
Definition getPlayerCells (playerId : string) (s : t) : list Entity :=
  let mainCell :=
    match PhysicsEngine.getEntity playerId (physicsEngine s) with
    | Some e => [e]
    | None => []
    end in
  mainCell
    ++ omap (fun split => PhysicsEngine.getEntity (id split) (physicsEngine s))
            (default [] (playerSplits s !! playerId)).

(** [handleSplitInput(playerId, direction)] at the instant [now].  The
    cells are collected first; each one that may split is split under its
    own id.  A given direction object is shared by the calls, and a split
    that takes place normalises it in place: the result is the system and
    the direction object after the loop. *)
Definition handleSplitInput (now : Z) (playerId : string) (direction : option Vector2D)
    (s : t) : t * option Vector2D :=
  foldl (fun acc cell =>
           let '(s1, d) := acc in
           if canPlayerSplit now (Client.id cell) s1
           then (fst (performSplit now (Client.id cell) d s1),
                 option_map normalizeDirection d)
           else (s1, d))
        (s, direction) (getPlayerCells playerId s).


(** [clear()] *)
Definition clear (s : t) : t := mk (physicsEngine s) (config s) ∅ ∅.

End SplitMergeSystem.

(** ** Notions used to state the properties *)

Module Spec.
Local Open Scope R_scope.

(** How a drain ends after [k] actions, [n] having been counted before:
    with a warning, the clock beyond 50 ms after the last of them, or
    without one, the queue empty. *)
Definition drainEnds (elapsed : nat -> R) (n k : nat) (queue : list Game.Action)
    (warning : option nat) : Prop :=
  (warning = Some (length (drop k queue)) /\ (1 <= k)%nat /\ 50 < elapsed (n + k)%nat)
  \/ (warning = None /\ k = length queue
      /\ (k = 0%nat \/ elapsed (n + k)%nat <= 50)).

(** [r] is an integer nearest to [a]. *)
Definition nearestInteger (a r : R) : Prop :=
  exists z : Z, r = IZR z /\ Rabs (r - a) <= 1 / 2.

(** The payload entry [v] reports the entity [e] with its position,
    velocity, mass and radius each replaced by a nearest integer. *)
Definition quantizes (e : Game.Entity) (v : Game.Payload.EntityView) : Prop :=
  Game.Payload.id v = Game.id e
  /\ nearestInteger (Game.x e) (Physics.x (Game.Payload.pos v))
  /\ nearestInteger (Game.y e) (Physics.y (Game.Payload.pos v))
  /\ nearestInteger (Game.vx e) (Physics.x (Game.Payload.vel v))
  /\ nearestInteger (Game.vy e) (Physics.y (Game.Payload.vel v))
  /\ nearestInteger (Game.mass e) (Game.Payload.mass v)
  /\ nearestInteger (Game.radius e) (Game.Payload.radius v)
  /\ Game.Payload.type v = Game.type e
  /\ Game.Payload.isAlive v = Game.isAlive e.

(** The state from which [step] builds its payload: the state after the
    queue, physics, collision, cleanup and statistics phases. *)
Definition beforeEmission (random : nat -> R) (uuidv4 : nat -> string)
    (now : Z) (elapsed : nat -> R) (st : Game.GameState) : Game.GameState :=
  Game.updateStats
    (Game.cleanupDeadEntities now
       (Game.processCollisions now
          (Game.integratePhysics
             (fst (Game.processActionQueue random uuidv4 now elapsed st))))).




(** The grid is in sync with the entities [es]: each of them is
    registered, under its id, in every cell its current position and
    radius make it occupy. *)
Definition inSync (g : SpatialHashGrid.t) (es : list Client.Entity) : Prop :=
  forall o, o ∈ es ->
    forall c, c ∈ SpatialHashGrid.getEntityCells g o ->
      exists cell, SpatialHashGrid.grid g !! c = Some cell
                   /\ Client.id o ∈ SpatialHashGrid.entities cell.

(** The stored radius is the radius of the stored, positive mass. *)
Definition wellSized (mass radius : R) : Prop :=
  0 < mass /\ radius = sqrt (mass / JS.PI).

Definition serverEntityOk (e : Game.Entity) : Prop :=
  wellSized (Game.mass e) (Game.radius e).

Definition serverWellSized (st : Game.GameState) : Prop :=
  Forall serverEntityOk (Game.Map_values (Game.entities st)).

Definition engineWellSized (pe : PhysicsEngine.t) : Prop :=
  forall i e,
    PhysicsEngine.entities pe !! i = Some e ->
    wellSized (Client.mass e) (Client.radius e).

Definition clientWellSized (s : SplitMergeSystem.t) : Prop :=
  engineWellSized (SplitMergeSystem.physicsEngine s).

(** The operations of the client that change the entity table. *)
Inductive ClientOp :=
| Create (id : string) (type : Client.EntityType) (mass : R) (position : Client.Vector2D)
| UpdateMass (entityId : string) (newMass : R)
| Move (entityId : string) (direction : Client.Vector2D)
| Eat (predatorId preyId : string)
| Remove (id : string)
| Split (now : Z) (playerId : string) (direction : option Client.Vector2D)
| Merge (parentId splitId : string)
| AttemptMerge (parentId splitId : string).

Definition onEngine (f : PhysicsEngine.t -> PhysicsEngine.t) (s : SplitMergeSystem.t)
  : SplitMergeSystem.t :=
  SplitMergeSystem.mk (f (SplitMergeSystem.physicsEngine s)) (SplitMergeSystem.config s)
                      (SplitMergeSystem.playerSplits s) (SplitMergeSystem.lastSplitTime s).

Definition applyOp (s : SplitMergeSystem.t) (op : ClientOp) : SplitMergeSystem.t :=
  match op with
  | Create id type mass position =>
      onEngine (fun pe => fst (PhysicsEngine.createEntity id type mass position pe)) s
  | UpdateMass entityId newMass =>
      onEngine (PhysicsEngine.updateEntityMass entityId newMass) s
  | Move entityId direction => onEngine (PhysicsEngine.applyMovement entityId direction) s
  | Eat predatorId preyId =>
      onEngine (fun pe => fst (PhysicsEngine.processEatingCollision predatorId preyId pe)) s
  | Remove id => onEngine (PhysicsEngine.removeEntity id) s
  | Split now playerId direction =>
      fst (SplitMergeSystem.performSplit now playerId direction s)
  | Merge parentId splitId => SplitMergeSystem.mergeCells parentId splitId s
  | AttemptMerge parentId splitId => SplitMergeSystem.attemptMerge parentId splitId s
  end.

(** The masses handed in from outside are positive. *)
Definition admissible (op : ClientOp) : Prop :=
  match op with
  | Create _ _ mass _ => 0 < mass
  | UpdateMass _ newMass => 0 < newMass
  | _ => True
  end.

(** The entity table is keyed by id: no key occurs twice and every entity
    is stored under its own id. *)
Definition keyedTable (m : Game.EntityMap) : Prop :=
  NoDup (List.map fst m) /\ Forall (fun p => Game.id (snd p) = fst p) m.

Definition keyed (st : Game.GameState) : Prop := keyedTable (Game.entities st).

(** The grid keeps track of its entries: every cell that lists an id is
    among the cells recorded for that id. *)
Definition tracked (g : SpatialHashGrid.t) : Prop :=
  forall i c cell,
    SpatialHashGrid.grid g !! c = Some cell ->
    i ∈ SpatialHashGrid.entities cell ->
    c ∈ default [] (SpatialHashGrid.entityCells g !! i).

(** The entity table of the engine and its grid agree: every entity is
    stored under its own id and is registered, under that id, in every
    cell its position and radius make it occupy. *)
Definition engineInSync (pe : PhysicsEngine.t) : Prop :=
  forall i o,
    PhysicsEngine.entities pe !! i = Some o ->
    Client.id o = i
    /\ forall c, c ∈ SpatialHashGrid.getEntityCells (PhysicsEngine.spatialGrid pe) o ->
         exists cell,
           SpatialHashGrid.grid (PhysicsEngine.spatialGrid pe) !! c = Some cell
           /\ i ∈ SpatialHashGrid.entities cell.

(** The operations of the client, with the position update of a frame. *)
Inductive FrameOp :=
| Op (op : ClientOp)
| UpdatePositions (order : list string) (deltaTime : R).

Definition applyFrameOp (s : SplitMergeSystem.t) (fop : FrameOp) : SplitMergeSystem.t :=
  match fop with
  | Op op => applyOp s op
  | UpdatePositions order deltaTime =>
      onEngine (PhysicsEngine.updatePositions order deltaTime) s
  end.

(** The operations that update the grid along with the table: all but the
    merges, which move the parent cell without telling the grid. *)
Definition gridSafe (fop : FrameOp) : Prop :=
  match fop with
  | Op (Merge _ _) | Op (AttemptMerge _ _) => False
  | Op op => admissible op
  | UpdatePositions _ _ => True
  end.


(** The random numbers lie in [0, 1), as those of [Math.random()]. *)
Definition unitInterval (random : nat -> R) : Prop := forall k, 0 <= random k < 1.

End Spec.

(** ** Concrete scenarios *)

Module Scenario.
Local Open Scope R_scope.

(** A live server entity with the radius of its mass. *)
Definition serverEntity (id : string) (type : Game.EntityType) (x y vx vy mass : R)
  : Game.Entity :=
  Game.mkEntity id type x y vx vy mass (Physics.radiusFromMass mass) true 0 0
                None None (Some "basic") None None None None.

(** Two overlapping players of masses 200 and 150. *)
Definition big : Game.Entity := serverEntity "big" Game.Player 500 500 0 0 200.
Definition small : Game.Entity := serverEntity "small" Game.Player 501 500 0 0 150.

(** A player of mass 100 moving right, 5 units from the right wall of the
    default 2000 x 2000 world. *)
Definition wallRunner : Game.Entity :=
  serverEntity "runner" Game.Player 1995 1000 50 0 100.

Definition world : Physics.WorldBounds := Physics.mkWorldBounds 2000 2000.

(** The entities of [clientPair] below. *)
Definition clientPlayer : Client.Entity :=
  Client.mkEntity "player" (Client.mkVector2D 500 500) (Client.mkVector2D 0 0)
                  100 (PhysicsEngine.calculateRadius 100) Client.Player.
Definition clientPellet : Client.Entity :=
  Client.mkEntity "pellet" (Client.mkVector2D 500 500) (Client.mkVector2D 0 0)
                  95 (PhysicsEngine.calculateRadius 95) Client.Pellet.

(** A client engine holding a player of mass 100 and, at the same place,
    a pellet of mass 95. *)
Definition clientPair : PhysicsEngine.t :=
  let pe1 :=
    fst (PhysicsEngine.createEntity "player" Client.Player 100
                                    (Client.mkVector2D 500 500) PhysicsEngine.create) in
  fst (PhysicsEngine.createEntity "pellet" Client.Pellet 95
                                  (Client.mkVector2D 500 500) pe1).

(** The default game, started with the server's publisher as callback. *)
Definition startedGame : Game.GameInstance Server.Broadcast :=
  Game.startLoop 0 Server.publishWorldUpdate
                 (Game.mkInstance Game.defaultGame false None).

(** A clock that never passes the budget, and constant generators. *)
Definition quietClock : nat -> R := fun _ => 0.
Definition someRandom : nat -> R := fun _ => 1 / 2.
Definition someUuid : nat -> string := fun _ => "0b1c".

(** Two firings of the timer with a join in between. *)
Definition threeEvents : list Game.Event :=
  [Game.TimerFired 100 quietClock 1; Game.Join 150 "ann"; Game.TimerFired 200 quietClock 1].

(** A clock that passes the 50 ms budget after the second action, and a
    queue of three actions for players that do not exist. *)
Definition busyClock : nat -> R := fun k => if (2 <=? k)%nat then 60 else 10.
Definition ability (who : string) : Game.Action :=
  Game.mkAction "ability" who 0 None (Some 0%Z) (Some 1%nat).
Definition backlog : Game.GameState :=
  Game.set_actionQueue Game.defaultGame [ability "a"; ability "b"; ability "c"].

(** The default game holding one player of mass 80. *)
Definition gameWith80 : Game.GameState :=
  Game.set_entities Game.defaultGame
                    [("p80", serverEntity "p80" Game.Player 1000 1000 0 0 80)].

(** A split system over an engine holding one player of mass 80. *)
Definition splitter : SplitMergeSystem.t :=
  SplitMergeSystem.create
    (fst (PhysicsEngine.createEntity "player" Client.Player 80
                                     (Client.mkVector2D 1000 1000) PhysicsEngine.create)).

End Scenario.

(** * Properties *)

Local Open Scope R_scope.

(** ** Comparisons and clamping *)

Lemma ltb_true a b : JS.ltb a b = true <-> a < b.
Proof. unfold JS.ltb. destruct (Rlt_dec a b); split; intros; try easy. Qed.

Lemma ltb_false a b : JS.ltb a b = false <-> b <= a.
Proof.
  unfold JS.ltb. destruct (Rlt_dec a b); split; intros; try easy; lra.
Qed.

Lemma leb_true a b : JS.leb a b = true <-> a <= b.
Proof. unfold JS.leb. destruct (Rle_dec a b); split; intros; try easy. Qed.

Lemma leb_false a b : JS.leb a b = false <-> b < a.
Proof.
  unfold JS.leb. destruct (Rle_dec a b); split; intros; try easy; lra.
Qed.

Lemma eqb_refl a : JS.eqb a a = true.
Proof. unfold JS.eqb. destruct (Req_dec_T a a); congruence. Qed.

Lemma clamp_bounds lo hi v : lo <= hi -> lo <= Rmax lo (Rmin hi v) <= hi.
Proof.
  intros H. unfold Rmax, Rmin.
  destruct (Rle_dec hi v); destruct (Rle_dec lo _); lra.
Qed.

Lemma clamp_mono lo hi v w : v <= w -> Rmax lo (Rmin hi v) <= Rmax lo (Rmin hi w).
Proof.
  intros H. unfold Rmax, Rmin.
  destruct (Rle_dec hi v); destruct (Rle_dec hi w);
    repeat match goal with |- context [Rle_dec ?a ?b] => destruct (Rle_dec a b) end; lra.
Qed.

(** ** Maximum speed *)

Lemma vMaxFromMass_pos m :
  0 < m -> Physics.vMaxFromMass m = Rmax 18 (Rmin 220 (220 / Rpower m (1 / 4))).
Proof.
  intros Hm. unfold Physics.vMaxFromMass, JS.pow.
  destruct (JS.leb m 0) eqn:E; [apply leb_true in E; lra |].
  replace (25 / 100) with (1 / 4) by lra. reflexivity.
Qed.

Lemma base_speed_antitone m1 m2 :
  0 < m1 -> m1 <= m2 -> 220 / Rpower m2 (1 / 4) <= 220 / Rpower m1 (1 / 4).
Proof.
  intros H1 H2.
  assert (Hp1 : 0 < Rpower m1 (1 / 4)) by apply exp_pos.
  assert (Hle : Rpower m1 (1 / 4) <= Rpower m2 (1 / 4))
    by (apply Rle_Rpower_l; lra).
  unfold Rdiv. apply Rmult_le_compat_l; [lra |].
  apply Rinv_le_contravar; assumption.
Qed.

(** C9.  For masses [0 < m1 <= m2] the maximum speed at [m2] is at most
    the one at [m1], and it lies in [18, 220]; the server function
    [vMaxFromMass] and the client function [calculateMaxVelocity] both
    compute [clamp(220 / m^(1/4), 18, 220)]. *)
Theorem vMax_antitone_and_bounded (m1 m2 : R) (H1 : 0 < m1) (H2 : m1 <= m2) :
  Physics.vMaxFromMass m2 <= Physics.vMaxFromMass m1
  /\ PhysicsEngine.calculateMaxVelocity m2 <= PhysicsEngine.calculateMaxVelocity m1
  /\ 18 <= Physics.vMaxFromMass m1 <= 220
  /\ 18 <= PhysicsEngine.calculateMaxVelocity m1 <= 220
  /\ Physics.vMaxFromMass m1 = Rmax 18 (Rmin 220 (220 / Rpower m1 (1 / 4)))
  /\ PhysicsEngine.calculateMaxVelocity m1 = Rmax 18 (Rmin 220 (220 / Rpower m1 (1 / 4))).
Proof.
  assert (Hc : forall m, PhysicsEngine.calculateMaxVelocity m
                         = Rmax 18 (Rmin 220 (220 / Rpower m (1 / 4)))) by reflexivity.
  rewrite !Hc, !vMaxFromMass_pos by lra.
  pose proof (base_speed_antitone m1 m2 H1 H2) as Hb.
  pose proof (clamp_mono 18 220 _ _ Hb) as Hm.
  pose proof (clamp_bounds 18 220 (220 / Rpower m1 (1 / 4)) ltac:(lra)) as Hbd.
  repeat split; try lra.
Qed.

Lemma vMax_antitone_and_bounded_witness :
  0 < 1 /\ 1 <= 16
  /\ Physics.vMaxFromMass 16 <= Physics.vMaxFromMass 1
  /\ 18 <= Physics.vMaxFromMass 1 <= 220.
Proof.
  assert (Ha : 0 < 1) by lra. assert (Hb : 1 <= 16) by lra.
  destruct (vMax_antitone_and_bounded 1 16 Ha Hb) as (H1 & _ & H3 & _).
  repeat split; try assumption; apply H3.
Defined.

(** ** Radius *)

Lemma PI_pos : 0 < JS.PI.
Proof. exact PI_RGT_0. Qed.

Lemma PI_gt_3 : 3 < JS.PI.
Proof. unfold JS.PI. pose proof PI_4. pose proof PI2_3_2. unfold PI2 in *. lra. Qed.

Lemma radiusFromMass_pos m : 0 < m -> Physics.radiusFromMass m = sqrt (m / JS.PI).
Proof.
  intros H. unfold Physics.radiusFromMass.
  destruct (JS.leb m 0) eqn:E; [apply leb_true in E; lra | reflexivity].
Qed.

Lemma radius_positive m : 0 < m -> 0 < sqrt (m / JS.PI).
Proof.
  intros H. apply sqrt_lt_R0. apply Rdiv_lt_0_compat; [lra | apply PI_pos].
Qed.

Lemma radius_below m k : 0 < m -> 0 <= k -> m <= 3 * (k * k) -> sqrt (m / JS.PI) <= k.
Proof.
  intros Hm Hk Hle. rewrite <- (sqrt_square k) by lra.
  apply sqrt_le_1_alt.
  pose proof PI_gt_3. pose proof PI_pos.
  apply (Rmult_le_reg_r JS.PI); [lra |].
  unfold Rdiv. rewrite Rmult_assoc, Rinv_l by lra. nra.
Qed.

(** ** Eating on the server *)

Lemma transferMass_spec now predator prey :
  let r := Game.transferMass now predator prey in
  Game.mass (fst r) = Game.mass predator + Game.mass prey
  /\ Game.radius (fst r) = Physics.radiusFromMass (Game.mass predator + Game.mass prey)
  /\ Game.id (fst r) = Game.id predator
  /\ Game.isAlive (fst r) = Game.isAlive predator
  /\ Game.isAlive (snd r) = false
  /\ Game.killedBy (snd r) = Some (Game.id predator)
  /\ Game.deathTime (snd r) = Some now
  /\ Game.mass (snd r) = Game.mass prey.
Proof.
  unfold Game.transferMass, Physics.calculateNewMass. simpl.
  replace (Game.mass prey * 1) with (Game.mass prey) by lra.
  repeat split; reflexivity.
Qed.

(** C7.  When [handleCollision] finds an eater (the first argument if it
    can eat the second, otherwise the second if it can eat the first),
    the eater's mass afterwards is its mass before plus the whole mass of
    the eaten entity, and the eaten entity is not alive and carries
    [killedBy] (the eater's id) and [deathTime]. *)
Theorem eating_conserves_mass (now : Z) (entityA entityB : Game.Entity) :
  let r := Game.handleCollision now entityA entityB in
  (Physics.canEat (Game.mass entityA) (Game.mass entityB) = true ->
     Game.mass (fst r) = Game.mass entityA + Game.mass entityB
     /\ Game.isAlive (snd r) = false
     /\ Game.killedBy (snd r) = Some (Game.id entityA)
     /\ Game.deathTime (snd r) = Some now)
  /\ (Physics.canEat (Game.mass entityA) (Game.mass entityB) = false ->
      Physics.canEat (Game.mass entityB) (Game.mass entityA) = true ->
     Game.mass (snd r) = Game.mass entityB + Game.mass entityA
     /\ Game.isAlive (fst r) = false
     /\ Game.killedBy (fst r) = Some (Game.id entityB)
     /\ Game.deathTime (fst r) = Some now).
Proof.
  intros r; subst r; unfold Game.handleCollision. split.
  - intros ->. pose proof (transferMass_spec now entityA entityB) as H.
    cbv zeta in H. tauto.
  - intros -> ->. pose proof (transferMass_spec now entityB entityA) as H.
    cbv zeta in H. destruct (Game.transferMass now entityB entityA). simpl in *. tauto.
Qed.

Lemma canEat_big_small :
  Physics.canEat (Game.mass Scenario.big) (Game.mass Scenario.small) = true.
Proof. apply ltb_true. simpl. lra. Qed.

Lemma eating_conserves_mass_witness :
  let r := Game.handleCollision 1000 Scenario.big Scenario.small in
  Game.mass (fst r) = 200 + 150
  /\ Game.isAlive (snd r) = false
  /\ Game.killedBy (snd r) = Some "big"
  /\ Game.deathTime (snd r) = Some 1000%Z.
Proof.
  exact (proj1 (eating_conserves_mass 1000 Scenario.big Scenario.small)
               canEat_big_small).
Defined.

(** ** The eating rule *)

(** A predator of mass 110 cannot eat a prey of mass 100; one of mass 111
    can. *)
Example canEat_110_100 : Physics.canEat 110 100 = false /\ Physics.canEat 111 100 = true.
Proof. split; [apply ltb_false; lra | apply ltb_true; lra]. Qed.

Lemma checkCollision_distance p1 r1 p2 r2 :
  Physics.checkCollision p1 r1 p2 r2 = true <-> Physics.distance p1 p2 < r1 + r2.
Proof. unfold Physics.checkCollision, Physics.distance. apply ltb_true. Qed.

Lemma canEat_spec a b : Physics.canEat a b = true <-> b * (11 / 10) < a.
Proof. apply ltb_true. Qed.

(** On the server an entity that was alive and is not alive after the
    pair was resolved has been eaten by the other one, under the rule. *)
Lemma resolvePair_only_if now entityA entityB :
  let r := Game.resolvePair now entityA entityB in
  (Game.isAlive entityB = true -> Game.isAlive (snd r) = false ->
     Game.mass entityB * (11 / 10) < Game.mass entityA
     /\ Physics.distance (Game.pos entityA) (Game.pos entityB)
        < Game.radius entityA + Game.radius entityB)
  /\ (Game.isAlive entityA = true -> Game.isAlive (fst r) = false ->
     Game.mass entityA * (11 / 10) < Game.mass entityB
     /\ Physics.distance (Game.pos entityA) (Game.pos entityB)
        < Game.radius entityA + Game.radius entityB).
Proof.
  intros r; subst r. unfold Game.resolvePair, Game.handleCollision.
  destruct (Physics.checkCollision _ _ _ _) eqn:Hc; simpl.
  2: { split; intros; congruence. }
  apply checkCollision_distance in Hc.
  destruct (Physics.canEat (Game.mass entityA) (Game.mass entityB)) eqn:Hab.
  - apply canEat_spec in Hab. simpl. split; intros; [tauto | congruence].
  - destruct (Physics.canEat (Game.mass entityB) (Game.mass entityA)) eqn:Hba; simpl.
    + apply canEat_spec in Hba. split; intros; [congruence | tauto].
    + split; intros; congruence.
Qed.

(** The client eats exactly when the predator's radius is larger and
    the circles overlap. *)
Lemma processEatingCollision_true predatorId preyId pe :
  snd (PhysicsEngine.processEatingCollision predatorId preyId pe) = true <->
  exists predator prey,
    PhysicsEngine.entities pe !! predatorId = Some predator
    /\ PhysicsEngine.entities pe !! preyId = Some prey
    /\ Client.radius prey < Client.radius predator
    /\ PhysicsEngine.checkCollision predator prey = true.
Proof.
  unfold PhysicsEngine.processEatingCollision.
  destruct (PhysicsEngine.entities pe !! predatorId) as [predator|] eqn:Hp.
  2: { simpl; split; [discriminate | intros (? & ? & ? & _); discriminate]. }
  destruct (PhysicsEngine.entities pe !! preyId) as [prey|] eqn:Hq.
  2: { simpl; split; [discriminate | intros (? & ? & _ & ? & _); discriminate]. }
  destruct (JS.leb (Client.radius predator) (Client.radius prey)) eqn:Hr.
  - apply leb_true in Hr. simpl. split; [discriminate |].
    intros (p & q & [= <-] & [= <-] & Hlt & _). lra.
  - apply leb_false in Hr.
    destruct (PhysicsEngine.checkCollision predator prey) eqn:Hc; simpl.
    + split; [| reflexivity]. intros _. exists predator, prey. auto.
    + split; [discriminate |].
      intros (p & q & [= <-] & [= <-] & _ & Hc'). congruence.
Qed.

Lemma client_checkCollision_distance e1 e2 :
  PhysicsEngine.checkCollision e1 e2 = true <->
  sqrt ((Client.x (Client.position e1) - Client.x (Client.position e2))
        * (Client.x (Client.position e1) - Client.x (Client.position e2))
        + (Client.y (Client.position e1) - Client.y (Client.position e2))
          * (Client.y (Client.position e1) - Client.y (Client.position e2)))
  < Client.radius e1 + Client.radius e2.
Proof. unfold PhysicsEngine.checkCollision. apply ltb_true. Qed.

(** C1, as the code has it.  On the server, resolving a pair of live
    entities makes one of them not alive only if the other one's mass
    exceeds 1.1 times its mass and the centres are closer than the sum of
    the radii.  On the client, [processEatingCollision] eats only if the
    predator's radius exceeds the prey's radius and the centres are closer
    than the sum of the radii. *)
Theorem eating_rule_server_and_client
    (now : Z) (entityA entityB : Game.Entity)
    (predatorId preyId : string) (pe : PhysicsEngine.t)
    (HA : Game.isAlive entityA = true) (HB : Game.isAlive entityB = true) :
  let r := Game.resolvePair now entityA entityB in
  (Game.isAlive (snd r) = false ->
     Game.mass entityB * (11 / 10) < Game.mass entityA
     /\ Physics.distance (Game.pos entityA) (Game.pos entityB)
        < Game.radius entityA + Game.radius entityB)
  /\ (Game.isAlive (fst r) = false ->
     Game.mass entityA * (11 / 10) < Game.mass entityB
     /\ Physics.distance (Game.pos entityA) (Game.pos entityB)
        < Game.radius entityA + Game.radius entityB)
  /\ (snd (PhysicsEngine.processEatingCollision predatorId preyId pe) = true ->
      exists predator prey,
        PhysicsEngine.entities pe !! predatorId = Some predator
        /\ PhysicsEngine.entities pe !! preyId = Some prey
        /\ Client.radius prey < Client.radius predator
        /\ sqrt ((Client.x (Client.position predator) - Client.x (Client.position prey))
                 * (Client.x (Client.position predator) - Client.x (Client.position prey))
                 + (Client.y (Client.position predator) - Client.y (Client.position prey))
                   * (Client.y (Client.position predator) - Client.y (Client.position prey)))
           < Client.radius predator + Client.radius prey).
Proof.
  intros r; subst r.
  destruct (resolvePair_only_if now entityA entityB) as [H1 H2].
  split; [auto | split; [auto |]].
  intros H. apply processEatingCollision_true in H.
  destruct H as (p & q & Hp & Hq & Hr & Hc).
  exists p, q. rewrite <- client_checkCollision_distance. auto.
Qed.

Lemma eating_rule_server_and_client_witness :
  Game.isAlive Scenario.big = true /\ Game.isAlive Scenario.small = true
  /\ (Game.isAlive (snd (Game.resolvePair 1000 Scenario.big Scenario.small)) = false ->
      Game.mass Scenario.small * (11 / 10) < Game.mass Scenario.big
      /\ Physics.distance (Game.pos Scenario.big) (Game.pos Scenario.small)
         < Game.radius Scenario.big + Game.radius Scenario.small).
Proof.
  split; [reflexivity | split; [reflexivity |]].
  exact (proj1 (eating_rule_server_and_client 1000 Scenario.big Scenario.small
                  "player" "pellet" Scenario.clientPair eq_refl eq_refl)).
Defined.

Lemma clientPair_lookup :
  PhysicsEngine.entities Scenario.clientPair !! "player" = Some Scenario.clientPlayer
  /\ PhysicsEngine.entities Scenario.clientPair !! "pellet" = Some Scenario.clientPellet.
Proof.
  unfold Scenario.clientPair, PhysicsEngine.createEntity. simpl. split.
  - rewrite lookup_insert_ne by discriminate. apply lookup_insert_eq.
  - apply lookup_insert_eq.
Qed.

Lemma clientPair_overlap :
  Client.radius Scenario.clientPellet < Client.radius Scenario.clientPlayer
  /\ 0 <= Client.radius Scenario.clientPlayer
  /\ 0 <= Client.radius Scenario.clientPellet
  /\ PhysicsEngine.checkCollision Scenario.clientPlayer Scenario.clientPellet = true.
Proof.
  pose proof PI_pos as Hpi.
  pose proof (radius_positive 100 ltac:(lra)).
  pose proof (radius_positive 95 ltac:(lra)).
  simpl. unfold PhysicsEngine.calculateRadius. repeat split; try lra.
  - apply sqrt_lt_1.
    + apply Rlt_le, Rdiv_lt_0_compat; lra.
    + apply Rlt_le, Rdiv_lt_0_compat; lra.
    + unfold Rdiv. apply Rmult_lt_compat_r; [apply Rinv_0_lt_compat; lra | lra].
  - apply client_checkCollision_distance. simpl.
    replace ((500 - 500) * (500 - 500) + (500 - 500) * (500 - 500)) with 0 by lra.
    rewrite sqrt_0. unfold PhysicsEngine.calculateRadius. lra.
Qed.

(** C1 fails on the client path: a player of mass 100 eats an overlapping
    pellet of mass 95, although 100 <= 95 * 1.1. *)
Lemma client_eats_without_mass_margin :
  exists predator prey,
    PhysicsEngine.entities Scenario.clientPair !! "player" = Some predator
    /\ PhysicsEngine.entities Scenario.clientPair !! "pellet" = Some prey
    /\ Client.mass predator <= Client.mass prey * (11 / 10)
    /\ snd (PhysicsEngine.processEatingCollision "player" "pellet" Scenario.clientPair)
       = true.
Proof.
  destruct clientPair_lookup as [Hp Hq].
  destruct clientPair_overlap as (Hr & _ & _ & Hc).
  exists Scenario.clientPlayer, Scenario.clientPellet.
  split; [exact Hp | split; [exact Hq |]].
  split; [simpl; lra |].
  apply processEatingCollision_true.
  exists Scenario.clientPlayer, Scenario.clientPellet. auto.
Qed.

Lemma processEatingCollision_eats predatorId preyId pe predator prey :
  PhysicsEngine.entities pe !! predatorId = Some predator ->
  PhysicsEngine.entities pe !! preyId = Some prey ->
  Client.radius prey < Client.radius predator ->
  PhysicsEngine.checkCollision predator prey = true ->
  PhysicsEngine.entities (fst (PhysicsEngine.processEatingCollision predatorId preyId pe))
  = delete preyId
      (<[predatorId :=
           Client.mkEntity (Client.id predator) (Client.position predator)
             (Client.velocity predator) (Client.mass predator + Client.mass prey)
             (PhysicsEngine.calculateRadius (Client.mass predator + Client.mass prey))
             (Client.type predator)]> (PhysicsEngine.entities pe)).
Proof.
  intros Hp Hq Hr Hc. unfold PhysicsEngine.processEatingCollision.
  rewrite Hp, Hq.
  destruct (JS.leb _ _) eqn:E; [apply leb_true in E; lra |].
  rewrite Hc. unfold PhysicsEngine.updateEntityMass. rewrite Hp. reflexivity.
Qed.

(** ** Integration at the world border *)

(** For an entity that moves, [integrateEntity] puts the position at the
    clamped Euler position and only damps the velocity: the comparison
    that guards the halving reads the position it has just assigned. *)
Lemma integrateEntity_moving deltaTime worldBounds entity :
  Game.type entity <> Game.Pellet ->
  let moved :=
    Physics.integratePosition (Game.pos entity) (Game.vel entity) deltaTime in
  let clamped := Physics.clampToWorld moved (Game.radius entity) worldBounds in
  let entity' := Game.integrateEntity deltaTime worldBounds entity in
  Game.x entity' = Physics.x clamped
  /\ Game.y entity' = Physics.y clamped
  /\ Game.vx entity' = Game.vx entity * (98 / 100)
  /\ Game.vy entity' = Game.vy entity * (98 / 100).
Proof.
  intros Ht. unfold Game.integrateEntity.
  destruct (decide (Game.type entity = Game.Pellet)) as [E | _]; [contradiction |].
  cbn [Game.x Game.y Game.set_xy Game.set_v Game.pos Game.radius Game.vx Game.vy].
  rewrite !eqb_refl. cbn. unfold Physics.applyDamping, Physics.DEFAULT_DAMPING. auto.
Qed.

(** C2 at a failing input.  A player of mass 100 at x = 1995 moving right
    at 50 units per second in the 2000 x 2000 world, with the tick length
    1/10 s: the Euler position 2000 is clamped to 2000 - radius, so
    clamping altered the position, yet the velocity after the step is the
    damped 49 and not its half 24.5. *)
Theorem integrate_clamped_velocity_not_halved :
  let entity := Scenario.wallRunner in
  let entity' := Game.integrateEntity (1 / 10) Scenario.world entity in
  Game.x entity + Game.vx entity * (1 / 10) = 2000
  /\ Game.x entity' = 2000 - Game.radius entity
  /\ Game.x entity' < 2000
  /\ Game.vx entity' = 49
  /\ Game.vx entity' <> 49 / 2.
Proof.
  cbv zeta.
  destruct (integrateEntity_moving (1 / 10) Scenario.world Scenario.wallRunner)
    as (Hx & _ & Hvx & _); [discriminate |].
  assert (Hr : Game.radius Scenario.wallRunner = sqrt (100 / JS.PI))
    by (apply radiusFromMass_pos; lra).
  pose proof (radius_positive 100 ltac:(lra)) as Hpos.
  pose proof (radius_below 100 10 ltac:(lra) ltac:(lra) ltac:(lra)) as Hle.
  assert (Hx' : Game.x (Game.integrateEntity (1 / 10) Scenario.world Scenario.wallRunner)
                = 2000 - Game.radius Scenario.wallRunner).
  { rewrite Hx, Hr. cbn.
    replace (1995 + 50 * (1 / 10)) with 2000 by lra.
    unfold Rmin. destruct (Rle_dec _ _); [| lra].
    unfold Rmax. destruct (Rle_dec _ _); lra. }
  rewrite Hx', Hvx, Hr. cbn. repeat split; lra.
Qed.

(** ** What the action handlers leave alone *)

Section Frame.
Variable random : nat -> R.
Variable uuidv4 : nat -> string.

Lemma addPlayer_frame now playerId st :
  let st' := fst (Game.addPlayer random uuidv4 now playerId st) in
  Game.actionQueue st' = Game.actionQueue st
  /\ Game.currentTick st' = Game.currentTick st
  /\ Game.worldBounds st' = Game.worldBounds st
  /\ Game.deltaTime st' = Game.deltaTime st.
Proof.
  unfold Game.addPlayer.
  destruct (Game.Map_get playerId (Game.entities st)); simpl; [auto |].
  destruct (Game.generateRandomPosition _ _ _ _ _) as [p k]; simpl.
  destruct (bool_decide (playerId = "")); simpl; auto.
Qed.

Lemma processSplitAction_frame now key entity st :
  let st' := Game.processSplitAction uuidv4 now key entity st in
  Game.actionQueue st' = Game.actionQueue st
  /\ Game.currentTick st' = Game.currentTick st
  /\ Game.worldBounds st' = Game.worldBounds st
  /\ Game.deltaTime st' = Game.deltaTime st.
Proof.
  unfold Game.processSplitAction. destruct (JS.ltb _ _); simpl; auto.
Qed.

Lemma processAction_frame now action st :
  let st' := Game.processAction random uuidv4 now action st in
  Game.actionQueue st' = Game.actionQueue st
  /\ Game.currentTick st' = Game.currentTick st
  /\ Game.worldBounds st' = Game.worldBounds st
  /\ Game.deltaTime st' = Game.deltaTime st.
Proof.
  unfold Game.processAction.
  destruct (Game.Map_get _ _).
  - repeat (destruct (bool_decide _); simpl; auto using processSplitAction_frame).
  - destruct (_ || _); simpl; auto using addPlayer_frame.
Qed.

(** The handlers never read the queue. *)
Lemma processAction_set_actionQueue now action st q :
  Game.processAction random uuidv4 now action (Game.set_actionQueue st q)
  = Game.set_actionQueue (Game.processAction random uuidv4 now action st) q.
Proof.
  unfold Game.processAction. simpl.
  destruct (Game.Map_get _ _).
  - repeat (destruct (bool_decide _); simpl; try reflexivity).
    unfold Game.processSplitAction. destruct (JS.ltb _ _); reflexivity.
  - destruct (_ || _); simpl; [| reflexivity].
    unfold Game.addPlayer. simpl.
    destruct (Game.Map_get _ _); simpl; [reflexivity |].
    destruct (Game.generateRandomPosition _ _ _ _ _) as [p k]; simpl.
    destruct (bool_decide _); reflexivity.
Qed.

End Frame.

(** ** Draining the action queue *)

Section Drain.
Variable random : nat -> R.
Variable uuidv4 : nat -> string.

Lemma applyInOrder_set_actionQueue now actions st q :
  Game.applyInOrder random uuidv4 now actions (Game.set_actionQueue st q)
  = Game.set_actionQueue (Game.applyInOrder random uuidv4 now actions st) q.
Proof.
  revert st. induction actions as [| a actions IH]; intros st; [reflexivity |].
  unfold Game.applyInOrder in *. simpl.
  rewrite processAction_set_actionQueue. apply IH.
Qed.

Lemma applyInOrder_actionQueue now actions st :
  Game.actionQueue (Game.applyInOrder random uuidv4 now actions st) = Game.actionQueue st.
Proof.
  revert st. induction actions as [| a actions IH]; intros st; [reflexivity |].
  unfold Game.applyInOrder in *. simpl. rewrite IH.
  apply processAction_frame.
Qed.

Lemma drainLoop_prefix now elapsed queue : forall n st,
  exists k warning,
    (k <= length queue)%nat
    /\ Game.drainLoop random uuidv4 now elapsed n queue st
       = (Game.set_actionQueue
            (Game.applyInOrder random uuidv4 now (take k queue) st) (drop k queue),
          (n + k)%nat, warning)
    /\ (forall j, (1 <= j < k)%nat -> elapsed (n + j)%nat <= 50)
    /\ Spec.drainEnds elapsed n k queue warning.
Proof.
  induction queue as [| action rest IH]; intros n st.
  - exists 0%nat, None. simpl. rewrite Nat.add_0_r.
    repeat split; [lia | intros; lia | right; auto].
  - simpl. rewrite processAction_set_actionQueue.
    destruct (JS.ltb 50 (elapsed (S n))) eqn:E.
    + apply ltb_true in E.
      exists 1%nat, (Some (length rest)). simpl.
      replace (n + 1)%nat with (S n) by lia.
      repeat split; [lia | intros; lia |].
      left. rewrite Nat.add_1_r. repeat split; [lia | exact E].
    + apply ltb_false in E.
      destruct (IH (S n) (Game.set_actionQueue
                            (Game.processAction random uuidv4 now action st) rest))
        as (k & w & Hk & Hrun & Hbefore & Hend).
      exists (S k), w. simpl.
      replace (n + S k)%nat with (S n + k)%nat by lia.
      repeat split.
      * lia.
      * rewrite Hrun. rewrite applyInOrder_set_actionQueue. reflexivity.
      * intros j Hj. destruct (decide (j = 1%nat)) as [-> | Hne].
        -- replace (n + 1)%nat with (S n) by lia. exact E.
        -- replace (n + j)%nat with (S n + (j - 1))%nat by lia.
           apply Hbefore. lia.
      * unfold Spec.drainEnds in *.
        replace (n + S k)%nat with (S n + k)%nat by lia.
        destruct Hend as [(Hw & Hk1 & Ht) | (Hw & Hk0 & Ht)].
        -- left. split; [exact Hw | split; [lia | exact Ht]].
        -- right. split; [exact Hw | split; [simpl; lia |]].
           right. destruct Ht as [-> | Ht]; [| exact Ht].
           replace (S n + 0)%nat with (S n) by lia. exact E.
Qed.

Lemma processActionQueue_state now elapsed st :
  exists k,
    fst (Game.processActionQueue random uuidv4 now elapsed st)
    = let handled :=
        Game.set_actionQueue
          (Game.applyInOrder random uuidv4 now (take k (Game.actionQueue st)) st)
          (drop k (Game.actionQueue st)) in
      let s := Game.stats handled in
      Game.set_stats handled
        (Game.mkStats (Game.totalPlayers s) (Game.activePlayers s)
           (Game.pelletsCount s) (Game.actionsProcessed s + k)
           (Game.lastStepDuration s)).
Proof.
  unfold Game.processActionQueue.
  destruct (drainLoop_prefix now elapsed (Game.actionQueue st) 0%nat st)
    as (k & w & _ & Hrun & _).
  rewrite Hrun. exists k. reflexivity.
Qed.


End Drain.

(** Three queued actions, the budget passed after the second: two are
    handled, the third stays, and the warning reports one action left. *)
Example drain_cut_after_two :
  let r := Game.processActionQueue Scenario.someRandom Scenario.someUuid 0
                                   Scenario.busyClock Scenario.backlog in
  Game.actionQueue (fst r) = [Scenario.ability "c"]
  /\ Game.actionsProcessed (Game.stats (fst r)) = 2%nat
  /\ snd r = Some 1%nat.
Proof.
  assert (H1 : JS.ltb 50 (Scenario.busyClock 1) = false)
    by (apply ltb_false; unfold Scenario.busyClock; simpl; lra).
  assert (H2 : JS.ltb 50 (Scenario.busyClock 2) = true)
    by (apply ltb_true; unfold Scenario.busyClock; simpl; lra).
  unfold Game.processActionQueue, Scenario.backlog.
  cbn [Game.actionQueue Game.set_actionQueue Game.drainLoop].
  rewrite H1, H2. cbn. auto.
Qed.

(** ** The tick and what it emits *)

Section Tick.
Variable random : nat -> R.
Variable uuidv4 : nat -> string.

Lemma applyInOrder_currentTick now actions st :
  Game.currentTick (Game.applyInOrder random uuidv4 now actions st) = Game.currentTick st.
Proof.
  revert st. induction actions as [| a actions IH]; intros st; [reflexivity |].
  unfold Game.applyInOrder in *. simpl. rewrite IH.
  apply processAction_frame.
Qed.

Lemma processActionQueue_currentTick now elapsed st :
  Game.currentTick (fst (Game.processActionQueue random uuidv4 now elapsed st))
  = Game.currentTick st.
Proof.
  destruct (processActionQueue_state random uuidv4 now elapsed st) as (k & -> ).
  simpl. apply applyInOrder_currentTick.
Qed.

Lemma beforeEmission_currentTick now elapsed st :
  Game.currentTick (Spec.beforeEmission random uuidv4 now elapsed st) = Game.currentTick st.
Proof.
  unfold Spec.beforeEmission. simpl. apply processActionQueue_currentTick.
Qed.

Lemma step_emits {M : Type} now elapsed stepDuration
    (cb : option (Game.Payload.t -> list M)) st :
  let r := Game.step random uuidv4 now elapsed stepDuration cb st in
  snd r = match cb with
          | Some f => f (Game.generateDelta now (Spec.beforeEmission random uuidv4 now elapsed st))
          | None => []
          end
  /\ Game.entities (fst (fst r)) = Game.entities (Spec.beforeEmission random uuidv4 now elapsed st)
  /\ Game.currentTick (fst (fst r)) = S (Game.currentTick st).
Proof.
  intros r; subst r. unfold Game.step, Spec.beforeEmission.
  destruct (Game.processActionQueue random uuidv4 now elapsed st) as [st1 w] eqn:E.
  simpl. repeat split.
  change st1 with (fst (st1, w)). rewrite <- E.
  f_equal. apply processActionQueue_currentTick.
Qed.

Lemma round_nearest a : Spec.nearestInteger a (JS.round a).
Proof.
  unfold Spec.nearestInteger, JS.round. eexists. split; [reflexivity |].
  pose proof (Zfloor_bound (a + 1 / 2)) as [H1 H2].
  apply Rabs_le. lra.
Qed.

Lemma entityView_quantizes e : Spec.quantizes e (Game.entityView e).
Proof.
  unfold Spec.quantizes, Game.entityView. simpl.
  repeat split; auto using round_nearest.
Qed.

(** C10.  The payload a tick emits lists, for every entity of the state
    and in the same order, the entity with position, velocity, mass and
    radius each rounded to a nearest integer; the entities of the state
    after the tick are those the payload was built from, unrounded. *)
Theorem payload_is_quantized_state_is_not {M : Type}
    (now : Z) (elapsed : nat -> R) (stepDuration : R)
    (cb : Game.Payload.t -> list M) (st : Game.GameState) :
  let r := Game.step random uuidv4 now elapsed stepDuration (Some cb) st in
  let source := Spec.beforeEmission random uuidv4 now elapsed st in
  let delta := Game.generateDelta now source in
  snd r = cb delta
  /\ Forall2 Spec.quantizes (Game.Map_values (Game.entities source))
                            (Game.Payload.entities delta)
  /\ Game.entities (fst (fst r)) = Game.entities source.
Proof.
  intros r source delta.
  destruct (step_emits now elapsed stepDuration (Some cb) st) as (Hs & He & _).
  split; [exact Hs |]. split; [| exact He].
  subst delta. unfold Game.generateDelta. cbn [Game.Payload.entities].
  generalize (Game.Map_values (Game.entities source)). intros es.
  induction es as [| e es IH]; simpl.
  - constructor.
  - constructor; [apply entityView_quantizes | exact IH].
Qed.



(** [startLoop] on a game that is not running sets the timer and the
    callback. *)
Lemma startLoop_starts {M : Type} now (cb : Game.Payload.t -> list M) (g : Game.GameInstance M) :
  Game.isRunning (Game.gameState g) = false ->
  Game.gameLoopInterval (Game.startLoop now cb g) = true
  /\ Game.onUpdateCallback (Game.startLoop now cb g) = Some cb
  /\ Game.currentTick (Game.gameState (Game.startLoop now cb g))
     = Game.currentTick (Game.gameState g).
Proof. intros H. unfold Game.startLoop. rewrite H. auto. Qed.


End Tick.


(** ** The spatial hash grid *)

Lemma range_spec a b z : z ∈ SpatialHashGrid.range a b <-> (a <= z <= b)%Z.
Proof.
  unfold SpatialHashGrid.range. rewrite list_elem_of_In, in_map_iff. split.
  - intros (i & <- & Hi). apply in_seq in Hi. lia.
  - intros H. exists (Z.to_nat (z - a)). split; [lia |]. apply in_seq. lia.
Qed.

Lemma getEntityCells_spec g e cx cy :
  (cx, cy) ∈ SpatialHashGrid.getEntityCells g e <->
  (JS.floor ((Client.x (Client.position e) - Client.radius e) / SpatialHashGrid.cellSize g)
   <= cx
   <= JS.floor ((Client.x (Client.position e) + Client.radius e) / SpatialHashGrid.cellSize g))%Z
  /\ (JS.floor ((Client.y (Client.position e) - Client.radius e) / SpatialHashGrid.cellSize g)
      <= cy
      <= JS.floor ((Client.y (Client.position e) + Client.radius e) / SpatialHashGrid.cellSize g))%Z.
Proof.
  unfold SpatialHashGrid.getEntityCells. cbv zeta.
  rewrite list_elem_of_In, in_flat_map. split.
  - intros (x0 & Hx & Hy). apply in_map_iff in Hy as (y0 & [= <- <-] & Hy).
    apply list_elem_of_In, range_spec in Hx. apply list_elem_of_In, range_spec in Hy.
    auto.
  - intros [Hx Hy]. exists cx. split.
    + apply list_elem_of_In, range_spec, Hx.
    + apply in_map_iff. exists cy. split; [reflexivity |].
      apply list_elem_of_In, range_spec, Hy.
Qed.

(** Two intervals with a common point share a cell index. *)
Lemma shared_cell_index cs lo1 hi1 lo2 hi2 :
  0 < cs -> lo1 <= hi1 -> lo2 <= hi2 -> lo1 <= hi2 -> lo2 <= hi1 ->
  exists c : Z,
    (JS.floor (lo1 / cs) <= c <= JS.floor (hi1 / cs))%Z
    /\ (JS.floor (lo2 / cs) <= c <= JS.floor (hi2 / cs))%Z.
Proof.
  intros Hcs H1 H2 H12 H21. unfold JS.floor.
  assert (Hdiv : forall a b, a <= b -> a / cs <= b / cs).
  { intros a b Hab. unfold Rdiv. apply Rmult_le_compat_r; [| exact Hab].
    apply Rlt_le, Rinv_0_lt_compat, Hcs. }
  exists (Zfloor (Rmax lo1 lo2 / cs)).
  repeat split; apply Zfloor_le, Hdiv; unfold Rmax; destruct (Rle_dec lo1 lo2); lra.
Qed.

Lemma overlap_within_radii e o :
  PhysicsEngine.checkCollision e o = true ->
  Rabs (Client.x (Client.position e) - Client.x (Client.position o))
    < Client.radius e + Client.radius o
  /\ Rabs (Client.y (Client.position e) - Client.y (Client.position o))
    < Client.radius e + Client.radius o.
Proof.
  intros H. apply client_checkCollision_distance in H.
  set (dx := Client.x (Client.position e) - Client.x (Client.position o)) in *.
  set (dy := Client.y (Client.position e) - Client.y (Client.position o)) in *.
  assert (Hx : Rabs dx <= sqrt (dx * dx + dy * dy)).
  { rewrite <- sqrt_Rsqr_abs. apply sqrt_le_1_alt. unfold Rsqr. nra. }
  assert (Hy : Rabs dy <= sqrt (dx * dx + dy * dy)).
  { rewrite <- sqrt_Rsqr_abs. apply sqrt_le_1_alt. unfold Rsqr. nra. }
  lra.
Qed.

(** Overlapping circles occupy a common cell. *)
Lemma overlap_shares_cell g e o :
  0 < SpatialHashGrid.cellSize g ->
  0 <= Client.radius e -> 0 <= Client.radius o ->
  PhysicsEngine.checkCollision e o = true ->
  exists c, c ∈ SpatialHashGrid.getEntityCells g e
            /\ c ∈ SpatialHashGrid.getEntityCells g o.
Proof.
  intros Hcs Hre Hro Hov.
  destruct (overlap_within_radii e o Hov) as [Hx Hy].
  apply Rabs_def2 in Hx. apply Rabs_def2 in Hy.
  destruct (shared_cell_index (SpatialHashGrid.cellSize g)
              (Client.x (Client.position e) - Client.radius e)
              (Client.x (Client.position e) + Client.radius e)
              (Client.x (Client.position o) - Client.radius o)
              (Client.x (Client.position o) + Client.radius o))
    as (cx & Hx1 & Hx2); try lra.
  destruct (shared_cell_index (SpatialHashGrid.cellSize g)
              (Client.y (Client.position e) - Client.radius e)
              (Client.y (Client.position e) + Client.radius e)
              (Client.y (Client.position o) - Client.radius o)
              (Client.y (Client.position o) + Client.radius o))
    as (cy & Hy1 & Hy2); try lra.
  exists (cx, cy). split; apply getEntityCells_spec; auto.
Qed.

Lemma nearbyEntities_spec g e i :
  i ∈ SpatialHashGrid.nearbyEntities g e <->
  i <> Client.id e
  /\ exists c cell, c ∈ SpatialHashGrid.getEntityCells g e
                    /\ SpatialHashGrid.grid g !! c = Some cell
                    /\ i ∈ SpatialHashGrid.entities cell.
Proof.
  unfold SpatialHashGrid.nearbyEntities.
  assert (Hgen : forall cells (acc : gset string),
    i ∈ foldl (fun acc cellKey =>
                 match SpatialHashGrid.grid g !! cellKey with
                 | Some cell => acc ∪ (SpatialHashGrid.entities cell ∖ {[Client.id e]})
                 | None => acc
                 end) acc cells
    <-> i ∈ acc
        \/ (i <> Client.id e
            /\ exists c cell, c ∈ cells /\ SpatialHashGrid.grid g !! c = Some cell
                              /\ i ∈ SpatialHashGrid.entities cell)).
  { induction cells as [| c cells IH]; intros acc; simpl.
    - split; [auto |]. intros [H | (_ & c & cell & Hc & _)]; [exact H | inversion Hc].
    - rewrite IH. split.
      + intros [H | (Hne & c' & cell & Hc' & Hl & Hi)].
        * destruct (SpatialHashGrid.grid g !! c) as [cell |] eqn:El; [| auto].
          apply elem_of_union in H as [H | H]; [auto |].
          apply elem_of_difference in H as [H1 H2].
          right. split; [intros ->; apply H2, elem_of_singleton; reflexivity |].
          exists c, cell. split; [left | auto].
        * right. split; [exact Hne |]. exists c', cell. split; [right; exact Hc' | auto].
      + intros [H | (Hne & c' & cell & Hc' & Hl & Hi)].
        * left. destruct (SpatialHashGrid.grid g !! c); [| exact H].
          apply elem_of_union. left. exact H.
        * apply elem_of_cons in Hc' as [-> | Hc'].
          -- left. rewrite Hl. apply elem_of_union. right.
             apply elem_of_difference. split; [exact Hi |].
             intros Hs. apply elem_of_singleton in Hs. contradiction.
          -- right. split; [exact Hne |]. exists c', cell. auto. }
  rewrite Hgen. split.
  - intros [H | H]; [apply not_elem_of_empty in H; contradiction | exact H].
  - intros H. right. exact H.
Qed.

(** C5.  In a grid with positive cell size that is in sync with the
    entities [es], the query for an entity [e] returns the id of every
    entity of [es] with another id whose circle overlaps the circle of
    [e] under the exact pairwise test (radii being non-negative). *)
Theorem query_covers_overlaps
    (g : SpatialHashGrid.t) (es : list Client.Entity) (e o : Client.Entity)
    (Hcs : 0 < SpatialHashGrid.cellSize g)
    (Hsync : Spec.inSync g es)
    (Hre : 0 <= Client.radius e)
    (Ho : o ∈ es) (Hro : 0 <= Client.radius o)
    (Hid : Client.id o <> Client.id e)
    (Hov : PhysicsEngine.checkCollision e o = true) :
  Client.id o ∈ SpatialHashGrid.query g e.
Proof.
  unfold SpatialHashGrid.query. apply elem_of_elements, nearbyEntities_spec.
  split; [exact Hid |].
  destruct (overlap_shares_cell g e o Hcs Hre Hro Hov) as (c & Hce & Hco).
  destruct (Hsync o Ho c Hco) as (cell & Hl & Hin).
  exists c, cell. auto.
Qed.

Lemma insertInCell_keeps i gr c0 c cell x :
  gr !! c = Some cell -> x ∈ SpatialHashGrid.entities cell ->
  exists cell', SpatialHashGrid.insertInCell i gr c0 !! c = Some cell'
                /\ x ∈ SpatialHashGrid.entities cell'.
Proof.
  intros Hl Hx. unfold SpatialHashGrid.insertInCell.
  destruct (decide (c0 = c)) as [-> | Hne].
  - rewrite Hl, lookup_insert_eq. eexists. split; [reflexivity |].
    simpl. apply elem_of_union. right. exact Hx.
  - rewrite lookup_insert_ne by exact Hne. eauto.
Qed.

Lemma insertInCell_adds i gr c :
  exists cell, SpatialHashGrid.insertInCell i gr c !! c = Some cell
               /\ i ∈ SpatialHashGrid.entities cell.
Proof.
  unfold SpatialHashGrid.insertInCell. rewrite lookup_insert_eq.
  eexists. split; [reflexivity |]. simpl. apply elem_of_union. left.
  apply elem_of_singleton. reflexivity.
Qed.

Lemma foldl_insertInCell_keeps i cells : forall gr c cell x,
  gr !! c = Some cell -> x ∈ SpatialHashGrid.entities cell ->
  exists cell', foldl (SpatialHashGrid.insertInCell i) gr cells !! c = Some cell'
                /\ x ∈ SpatialHashGrid.entities cell'.
Proof.
  induction cells as [| c0 cells IH]; intros gr c cell x Hl Hx; simpl; [eauto |].
  destruct (insertInCell_keeps i gr c0 c cell x Hl Hx) as (cell1 & Hl1 & Hx1).
  eapply IH; eauto.
Qed.

Lemma foldl_insertInCell_adds i cells : forall gr c,
  c ∈ cells ->
  exists cell, foldl (SpatialHashGrid.insertInCell i) gr cells !! c = Some cell
               /\ i ∈ SpatialHashGrid.entities cell.
Proof.
  induction cells as [| c0 cells IH]; intros gr c Hc; [inversion Hc |].
  simpl. apply elem_of_cons in Hc as [-> | Hc].
  - destruct (insertInCell_adds i gr c0) as (cell & Hl & Hi).
    eapply foldl_insertInCell_keeps; eauto.
  - apply IH, Hc.
Qed.

(** Inserting an entity keeps the grid in sync and registers it. *)
Lemma insert_inSync g es e :
  Spec.inSync g es -> Spec.inSync (SpatialHashGrid.insert e g) (e :: es).
Proof.
  intros Hsync o Ho c Hc.
  change (SpatialHashGrid.getEntityCells (SpatialHashGrid.insert e g) o)
    with (SpatialHashGrid.getEntityCells g o) in Hc.
  unfold SpatialHashGrid.insert. simpl.
  apply elem_of_cons in Ho as [-> | Ho].
  - apply foldl_insertInCell_adds, Hc.
  - destruct (Hsync o Ho c Hc) as (cell & Hl & Hi).
    eapply foldl_insertInCell_keeps; eauto.
Qed.

(** A rebuilt grid is in sync with the entities it was rebuilt from. *)
Lemma rebuild_inSync g es : Spec.inSync (SpatialHashGrid.rebuild es g) es.
Proof.
  unfold SpatialHashGrid.rebuild.
  assert (Hgen : forall es g0 done,
    Spec.inSync g0 done ->
    forall o, o ∈ done \/ o ∈ es ->
      forall c, c ∈ SpatialHashGrid.getEntityCells
                      (foldl (fun acc entity => SpatialHashGrid.insert entity acc) g0 es) o ->
        exists cell,
          SpatialHashGrid.grid
            (foldl (fun acc entity => SpatialHashGrid.insert entity acc) g0 es) !! c
          = Some cell
          /\ Client.id o ∈ SpatialHashGrid.entities cell).
  { clear. induction es as [| e es IH]; intros g0 done Hs o Ho c Hc; simpl in *.
    - destruct Ho as [Ho | Ho]; [eauto | inversion Ho].
    - apply (IH (SpatialHashGrid.insert e g0) (e :: done)
                (insert_inSync g0 done e Hs) o); [| exact Hc].
      destruct Ho as [Ho | Ho]; [left; right; exact Ho |].
      apply elem_of_cons in Ho as [-> | Ho]; [left; left | right; exact Ho]. }
  intros o Ho c Hc.
  apply (Hgen es (SpatialHashGrid.clear g) []); auto.
  intros o' Ho'. inversion Ho'.
Qed.

Lemma query_covers_overlaps_witness :
  Client.id Scenario.clientPellet
  ∈ SpatialHashGrid.query
      (SpatialHashGrid.rebuild [Scenario.clientPlayer; Scenario.clientPellet]
                               (SpatialHashGrid.create 150))
      Scenario.clientPlayer.
Proof.
  destruct clientPair_overlap as (_ & Hp & Hq & Hc).
  apply (query_covers_overlaps _ [Scenario.clientPlayer; Scenario.clientPellet]).
  - simpl. lra.
  - apply rebuild_inSync.
  - exact Hp.
  - right. left.
  - exact Hq.
  - discriminate.
  - exact Hc.
Defined.

(** ** The client engine's entity table *)

Lemma updateEntityMass_entities i m pe e :
  PhysicsEngine.entities pe !! i = Some e ->
  PhysicsEngine.entities (PhysicsEngine.updateEntityMass i m pe)
  = <[i := Client.mkEntity (Client.id e) (Client.position e) (Client.velocity e) m
                           (PhysicsEngine.calculateRadius m) (Client.type e)]>
      (PhysicsEngine.entities pe).
Proof. intros H. unfold PhysicsEngine.updateEntityMass. rewrite H. reflexivity. Qed.

Lemma updateEntityMass_absent i m pe :
  PhysicsEngine.entities pe !! i = None -> PhysicsEngine.updateEntityMass i m pe = pe.
Proof. intros H. unfold PhysicsEngine.updateEntityMass. rewrite H. reflexivity. Qed.

Lemma createEntity_entities i ty m p pe :
  PhysicsEngine.entities (fst (PhysicsEngine.createEntity i ty m p pe))
  = <[i := Client.mkEntity i (Client.mkVector2D (Client.x p) (Client.y p))
                           (Client.mkVector2D 0 0) m (PhysicsEngine.calculateRadius m) ty]>
      (PhysicsEngine.entities pe).
Proof. reflexivity. Qed.

(** [applyMovement] changes the velocity of one entity and nothing else. *)
Lemma applyMovement_lookup i d pe j :
  PhysicsEngine.entities (PhysicsEngine.applyMovement i d pe) !! j
  = if decide (i = j) then
      (fun e => Client.mkEntity (Client.id e) (Client.position e)
                  (Client.velocity
                     (default e (PhysicsEngine.entities
                                   (PhysicsEngine.applyMovement i d pe) !! i)))
                  (Client.mass e) (Client.radius e) (Client.type e))
        <$> PhysicsEngine.entities pe !! j
    else PhysicsEngine.entities pe !! j.
Proof.
  unfold PhysicsEngine.applyMovement.
  destruct (PhysicsEngine.entities pe !! i) as [e |] eqn:E.
  - destruct (decide (i = j)) as [<- | Hne]; simpl.
    + rewrite !lookup_insert_eq, E. reflexivity.
    + rewrite lookup_insert_ne by exact Hne. reflexivity.
  - destruct (decide (i = j)) as [<- | Hne]; [rewrite E |]; reflexivity.
Qed.

Lemma applyMovement_mass i d pe j :
  Client.mass <$> (PhysicsEngine.entities (PhysicsEngine.applyMovement i d pe) !! j)
  = Client.mass <$> (PhysicsEngine.entities pe !! j).
Proof.
  rewrite applyMovement_lookup. destruct (decide (i = j)); [| reflexivity].
  destruct (PhysicsEngine.entities pe !! j); reflexivity.
Qed.

Lemma applyMovement_radius i d pe j :
  Client.radius <$> (PhysicsEngine.entities (PhysicsEngine.applyMovement i d pe) !! j)
  = Client.radius <$> (PhysicsEngine.entities pe !! j).
Proof.
  rewrite applyMovement_lookup. destruct (decide (i = j)); [| reflexivity].
  destruct (PhysicsEngine.entities pe !! j); reflexivity.
Qed.

Lemma applyMovement_other i d pe j :
  i <> j ->
  PhysicsEngine.entities (PhysicsEngine.applyMovement i d pe) !! j
  = PhysicsEngine.entities pe !! j.
Proof.
  intros H. rewrite applyMovement_lookup. destruct (decide (i = j)); [contradiction |].
  reflexivity.
Qed.

(** ** Splitting on the client *)

Lemma append_nonempty_neq (s t : string) : t <> "" -> String.append s t <> s.
Proof.
  intros Ht. induction s as [| c s IH]; simpl; [exact Ht |].
  intros [= H]. exact (IH H).
Qed.

Lemma newCellId_fresh (playerId : string) (now : Z) :
  String.append playerId (String.append "_split_" (pretty now)) <> playerId.
Proof. apply append_nonempty_neq. discriminate. Qed.

(** The engine after a split that passed the eligibility check. *)
Lemma performSplit_eligible now playerId direction s player :
  SplitMergeSystem.canPlayerSplit now playerId s = true ->
  PhysicsEngine.getEntity playerId (SplitMergeSystem.physicsEngine s) = Some player ->
  let cfg := SplitMergeSystem.config s in
  let d := SplitMergeSystem.normalizeDirection (default (Client.mkVector2D 0 (-1)) direction) in
  let newCellMass := Client.mass player * SplitMergeSystem.splitRatio cfg in
  let remainingMass := Client.mass player - newCellMass in
  let newCellId := String.append playerId (String.append "_split_" (pretty now)) in
  let pe1 :=
    PhysicsEngine.updateEntityMass playerId remainingMass
                                   (SplitMergeSystem.physicsEngine s) in
  let player1 := default player (PhysicsEngine.getEntity playerId pe1) in
  let pe2 :=
    fst (PhysicsEngine.createEntity newCellId (Client.type player1) newCellMass
           (Client.mkVector2D
              (Client.x (Client.position player1) + Client.x d * (Client.radius player1 + 10))
              (Client.y (Client.position player1) + Client.y d * (Client.radius player1 + 10)))
           pe1) in
  let pe3 :=
    PhysicsEngine.applyMovement newCellId
      (Client.mkVector2D (Client.x d * SplitMergeSystem.splitForce cfg)
                         (Client.y d * SplitMergeSystem.splitForce cfg)) pe2 in
  let pe4 :=
    PhysicsEngine.applyMovement playerId
      (Client.mkVector2D (- Client.x d * (SplitMergeSystem.splitForce cfg * (3 / 10)))
                         (- Client.y d * (SplitMergeSystem.splitForce cfg * (3 / 10)))) pe3 in
  SplitMergeSystem.performSplit now playerId direction s
  = (SplitMergeSystem.mk pe4 cfg
       (<[playerId := default [] (SplitMergeSystem.playerSplits s !! playerId)
                      ++ [SplitMergeSystem.mkPlayerSplit newCellId playerId now false]]>
          (SplitMergeSystem.playerSplits s))
       (<[playerId := now]> (SplitMergeSystem.lastSplitTime s)),
     true).
Proof.
  intros Hcan Hp. cbv zeta. unfold SplitMergeSystem.performSplit.
  rewrite Hcan, Hp. reflexivity.
Qed.

Lemma performSplit_ineligible now playerId direction s :
  SplitMergeSystem.canPlayerSplit now playerId s = false ->
  SplitMergeSystem.performSplit now playerId direction s = (s, false).
Proof. intros H. unfold SplitMergeSystem.performSplit. rewrite H. reflexivity. Qed.

(** Within the cooldown after the recorded last split nobody splits. *)
Lemma canPlayerSplit_cooldown now playerId s t :
  SplitMergeSystem.lastSplitTime s !! playerId = Some t ->
  (now - t < SplitMergeSystem.splitCooldown (SplitMergeSystem.config s))%Z ->
  SplitMergeSystem.canPlayerSplit now playerId s = false.
Proof.
  intros Ht Hlt. unfold SplitMergeSystem.canPlayerSplit.
  destruct (PhysicsEngine.getEntity _ _); [| reflexivity].
  destruct (JS.ltb _ _); [reflexivity |].
  rewrite Ht. simpl.
  destruct (Z.ltb_spec (now - t) (SplitMergeSystem.splitCooldown (SplitMergeSystem.config s)));
    [reflexivity | lia].
Qed.

Lemma split_masses_after now playerId direction s player :
  SplitMergeSystem.canPlayerSplit now playerId s = true ->
  PhysicsEngine.getEntity playerId (SplitMergeSystem.physicsEngine s) = Some player ->
  let s' := fst (SplitMergeSystem.performSplit now playerId direction s) in
  let newCellId := String.append playerId (String.append "_split_" (pretty now)) in
  let newCellMass :=
    Client.mass player * SplitMergeSystem.splitRatio (SplitMergeSystem.config s) in
  let entities' := PhysicsEngine.entities (SplitMergeSystem.physicsEngine s') in
  Client.mass <$> (entities' !! playerId) = Some (Client.mass player - newCellMass)
  /\ Client.radius <$> (entities' !! playerId)
     = Some (PhysicsEngine.calculateRadius (Client.mass player - newCellMass))
  /\ Client.mass <$> (entities' !! newCellId) = Some newCellMass
  /\ Client.radius <$> (entities' !! newCellId)
     = Some (PhysicsEngine.calculateRadius newCellMass)
  /\ (forall i, i <> playerId -> i <> newCellId ->
        entities' !! i
        = PhysicsEngine.entities (SplitMergeSystem.physicsEngine s) !! i).
Proof.
  intros Hcan Hp. cbv zeta.
  rewrite (performSplit_eligible now playerId direction s player Hcan Hp).
  cbn [fst SplitMergeSystem.physicsEngine].
  pose proof (newCellId_fresh playerId now) as Hfresh.
  unfold PhysicsEngine.getEntity in Hp.
  split_and!.
  - rewrite !applyMovement_mass, createEntity_entities.
    rewrite lookup_insert_ne by exact Hfresh.
    rewrite (updateEntityMass_entities _ _ _ _ Hp), lookup_insert_eq. reflexivity.
  - rewrite !applyMovement_radius, createEntity_entities.
    rewrite lookup_insert_ne by exact Hfresh.
    rewrite (updateEntityMass_entities _ _ _ _ Hp), lookup_insert_eq. reflexivity.
  - rewrite !applyMovement_mass, createEntity_entities, lookup_insert_eq. reflexivity.
  - rewrite !applyMovement_radius, createEntity_entities, lookup_insert_eq. reflexivity.
  - intros i Hi1 Hi2.
    rewrite !applyMovement_other by congruence.
    rewrite createEntity_entities, lookup_insert_ne by congruence.
    rewrite (updateEntityMass_entities _ _ _ _ Hp).
    rewrite lookup_insert_ne by congruence.
    reflexivity.
Qed.



(** ** Radius and mass on the server *)

Lemma radiusFromMass_wellSized m : 0 < m -> Spec.wellSized m (Physics.radiusFromMass m).
Proof. intros H. split; [exact H | apply radiusFromMass_pos, H]. Qed.

Lemma createEntity_ok uuid now config :
  (forall m, Game.cfg_mass config = Some m -> 0 < m) ->
  Spec.serverEntityOk (Game.createEntity uuid now config).
Proof.
  intros Hm. unfold Spec.serverEntityOk, Game.createEntity. simpl.
  apply radiusFromMass_wellSized.
  destruct (Game.cfg_mass config) as [m |]; simpl.
  - apply Hm. reflexivity.
  - unfold Physics.INITIAL_PLAYER_MASS. lra.
Qed.

Lemma Map_get_values k m e :
  Game.Map_get k m = Some e -> e ∈ Game.Map_values m.
Proof.
  induction m as [| [k' v] m IH]; simpl; [discriminate |].
  destruct (decide (k = k')); intros H.
  - injection H as ->. left.
  - right. apply IH, H.
Qed.

Lemma Map_set_values_ok (P : Game.Entity -> Prop) k v m :
  Forall P (Game.Map_values m) -> P v -> Forall P (Game.Map_values (Game.Map_set k v m)).
Proof.
  intros Hm Hv. induction m as [| [k' v'] m IH]; simpl.
  - constructor; [exact Hv | constructor].
  - inversion Hm as [| ? ? Hv' Hm']; subst.
    destruct (decide (k = k')); simpl; constructor; auto.
Qed.

Lemma handleCollision_ok now entityA entityB :
  Spec.serverEntityOk entityA -> Spec.serverEntityOk entityB ->
  Spec.serverEntityOk (fst (Game.handleCollision now entityA entityB))
  /\ Spec.serverEntityOk (snd (Game.handleCollision now entityA entityB)).
Proof.
  intros [Ha1 Ha2] [Hb1 Hb2]. unfold Game.handleCollision.
  assert (Hsum : forall p q, 0 < p -> 0 < q ->
                 Spec.wellSized (Physics.calculateNewMass p q 1)
                                (Physics.radiusFromMass (Physics.calculateNewMass p q 1))).
  { intros p q Hp Hq. apply radiusFromMass_wellSized.
    unfold Physics.calculateNewMass. lra. }
  destruct (Physics.canEat (Game.mass entityA) (Game.mass entityB)).
  - split; [apply Hsum; assumption | split; assumption].
  - destruct (Physics.canEat (Game.mass entityB) (Game.mass entityA)); simpl.
    + split; [split; assumption | apply Hsum; assumption].
    + split; split; assumption.
Qed.

Lemma collideAt_ok now i j es :
  Forall Spec.serverEntityOk es ->
  Forall Spec.serverEntityOk (Game.collideAt now i j es)
  /\ length (Game.collideAt now i j es) = length es.
Proof.
  intros Hes. unfold Game.collideAt.
  destruct (es !! i) as [a |] eqn:Ea; [| auto].
  destruct (es !! j) as [b |] eqn:Eb; [| auto].
  assert (Ha : Spec.serverEntityOk a) by (eapply Forall_lookup_1; eauto).
  assert (Hb : Spec.serverEntityOk b) by (eapply Forall_lookup_1; eauto).
  unfold Game.resolvePair.
  destruct (Physics.checkCollision _ _ _ _).
  - destruct (handleCollision_ok now a b Ha Hb) as [Ha' Hb'].
    destruct (Game.handleCollision now a b) as [a' b']. simpl in *.
    split; [| rewrite !length_insert; reflexivity].
    apply Forall_insert; [apply Forall_insert |]; assumption.
  - split; [| rewrite !length_insert; reflexivity].
    apply Forall_insert; [apply Forall_insert |]; assumption.
Qed.

Lemma foldl_invariant {A B : Type} (f : A -> B -> A) (Q : A -> Prop) l :
  (forall a b, Q a -> Q (f a b)) -> forall a, Q a -> Q (foldl f a l).
Proof.
  intros Hf. induction l as [| b l IH]; intros a Ha; simpl; [exact Ha |].
  apply IH, Hf, Ha.
Qed.

Lemma zip_keys_values (m : list (string * Game.Entity)) (es : list Game.Entity) :
  length es = length m ->
  Game.Map_values (zip_with (fun p e => (fst p, e)) m es) = es.
Proof.
  revert es. induction m as [| p m IH]; intros [| e es] Hl; simpl in *;
    try discriminate; [reflexivity |].
  f_equal. apply IH. lia.
Qed.

Lemma processCollisions_ok now st :
  Spec.serverWellSized st -> Spec.serverWellSized (Game.processCollisions now st).
Proof.
  unfold Spec.serverWellSized, Game.processCollisions. intros Hst. simpl.
  set (es := Game.Map_values (Game.entities st)) in *.
  set (Q := fun l : list Game.Entity =>
              Forall Spec.serverEntityOk l /\ length l = length es).
  assert (HQ : Q (foldl (fun acc i =>
                           foldl (fun acc' j => Game.collideAt now i j acc') acc
                                 (seq (S i) (length es - S i)))
                        es (seq 0 (length es)))).
  { apply foldl_invariant; [| split; [exact Hst | reflexivity]].
    intros a i Ha. apply foldl_invariant; [| exact Ha].
    intros a' j [Ha1 Ha2]. destruct (collideAt_ok now i j a' Ha1) as [H1 H2].
    split; [exact H1 | congruence]. }
  destruct HQ as [HQ1 HQ2].
  rewrite zip_keys_values; [exact HQ1 |].
  rewrite HQ2. unfold es, Game.Map_values. apply length_map.
Qed.

Lemma integrateEntity_size deltaTime worldBounds entity :
  Game.mass (Game.integrateEntity deltaTime worldBounds entity) = Game.mass entity
  /\ Game.radius (Game.integrateEntity deltaTime worldBounds entity) = Game.radius entity.
Proof.
  unfold Game.integrateEntity.
  destruct (decide _); [auto |].
  destruct (_ || _); simpl; auto.
Qed.

Lemma integratePhysics_ok st :
  Spec.serverWellSized st -> Spec.serverWellSized (Game.integratePhysics st).
Proof.
  unfold Spec.serverWellSized, Game.integratePhysics, Game.Map_values. simpl.
  intros H. induction (Game.entities st) as [| [k e] m IH]; simpl in *; [constructor |].
  inversion H as [| ? ? He Hm]; subst. constructor; [| apply IH, Hm].
  unfold Spec.serverEntityOk in *.
  destruct (integrateEntity_size (Game.deltaTime st) (Game.worldBounds st) e) as [-> ->].
  exact He.
Qed.

Lemma cleanupDeadEntities_ok now st :
  Spec.serverWellSized st -> Spec.serverWellSized (Game.cleanupDeadEntities now st).
Proof.
  unfold Spec.serverWellSized, Game.cleanupDeadEntities, Game.Map_values. simpl.
  intros H. induction (Game.entities st) as [| [k e] m IH]; simpl in *; [constructor |].
  inversion H as [| ? ? He Hm]; subst.
  destruct (negb _); simpl; [constructor |]; auto.
Qed.

Section ServerSizes.
Variable random : nat -> R.
Variable uuidv4 : nat -> string.

Lemma addPlayer_ok now playerId st :
  Spec.serverWellSized st ->
  Spec.serverWellSized (fst (Game.addPlayer random uuidv4 now playerId st)).
Proof.
  unfold Spec.serverWellSized, Game.addPlayer. intros H.
  destruct (Game.Map_get playerId (Game.entities st)); simpl; [exact H |].
  destruct (Game.generateRandomPosition _ _ _ _ _) as [p k]; simpl.
  assert (Hset : forall e, Spec.serverEntityOk e ->
            Forall Spec.serverEntityOk
                   (Game.Map_values (Game.Map_set playerId e (Game.entities st))))
    by (intros e He; apply Map_set_values_ok; assumption).
  destruct (bool_decide (playerId = "")); simpl; apply Hset;
    apply createEntity_ok; simpl; intros m [= <-];
    unfold Physics.INITIAL_PLAYER_MASS; lra.
Qed.

Lemma processSplitAction_ok now key entity st :
  Spec.serverWellSized st -> Spec.serverEntityOk entity ->
  Spec.serverWellSized (Game.processSplitAction uuidv4 now key entity st).
Proof.
  unfold Spec.serverWellSized, Game.processSplitAction. intros H [He1 He2].
  destruct (JS.ltb (Game.mass entity) 50) eqn:E; [exact H |].
  apply ltb_false in E. simpl.
  assert (Hhalf : 0 < Game.mass entity / 2) by lra.
  apply Map_set_values_ok; [apply Map_set_values_ok; [exact H |] |].
  - unfold Spec.serverEntityOk. simpl. apply radiusFromMass_wellSized, Hhalf.
  - apply createEntity_ok. simpl. intros m [= <-]. exact Hhalf.
Qed.

Lemma processAction_ok now action st :
  Spec.serverWellSized st ->
  Spec.serverWellSized (Game.processAction random uuidv4 now action st).
Proof.
  intros H. unfold Game.processAction.
  destruct (Game.Map_get (Game.playerId action) (Game.entities st)) as [entity |] eqn:Eg.
  - assert (He : Spec.serverEntityOk entity).
    { unfold Spec.serverWellSized in H. rewrite Forall_forall in H.
      apply H. eapply Map_get_values, Eg. }
    destruct (bool_decide (Game.atype action = "input")).
    { unfold Spec.serverWellSized. simpl. apply Map_set_values_ok; [exact H |].
      unfold Game.processInputAction.
      destruct (Game.data action) as [[[d |]] |]; exact He. }
    destruct (bool_decide (Game.atype action = "ability")); [exact H |].
    destruct (bool_decide (Game.atype action = "split"));
      [apply processSplitAction_ok; assumption |].
    destruct (bool_decide _); exact H.
  - destruct (_ || _); [apply addPlayer_ok, H | exact H].
Qed.

Lemma applyInOrder_ok now actions st :
  Spec.serverWellSized st ->
  Spec.serverWellSized (Game.applyInOrder random uuidv4 now actions st).
Proof.
  unfold Game.applyInOrder. apply foldl_invariant.
  intros a b Ha. apply processAction_ok, Ha.
Qed.

Lemma processActionQueue_ok now elapsed st :
  Spec.serverWellSized st ->
  Spec.serverWellSized (fst (Game.processActionQueue random uuidv4 now elapsed st)).
Proof.
  intros H.
  destruct (processActionQueue_state random uuidv4 now elapsed st) as (k & ->).
  unfold Spec.serverWellSized. simpl. apply applyInOrder_ok, H.
Qed.

Lemma step_ok {M : Type} now elapsed stepDuration
    (cb : option (Game.Payload.t -> list M)) st :
  Spec.serverWellSized st ->
  Spec.serverWellSized (fst (fst (Game.step random uuidv4 now elapsed stepDuration cb st))).
Proof.
  intros H. unfold Spec.serverWellSized.
  destruct (step_emits random uuidv4 now elapsed stepDuration cb st) as (_ & -> & _).
  unfold Spec.beforeEmission.
  apply cleanupDeadEntities_ok, processCollisions_ok, integratePhysics_ok,
    processActionQueue_ok, H.
Qed.

Lemma react_ok {M : Type} ev (g : Game.GameInstance M) :
  Spec.serverWellSized (Game.gameState g) ->
  Spec.serverWellSized (Game.gameState (fst (Game.react random uuidv4 ev g))).
Proof.
  intros H. destruct ev as [t a | t pid | t el dur]; simpl.
  - unfold Game.enqueueAction. destruct (_ || _); exact H.
  - apply addPlayer_ok, H.
  - destruct (Game.gameLoopInterval g); [| exact H].
    pose proof (step_ok t el dur (Game.onUpdateCallback g) (Game.gameState g) H) as Hs.
    destruct (Game.step _ _ _ _ _ _ _) as [[st' w] out]. exact Hs.
Qed.

Lemma run_ok {M : Type} evs : forall g : Game.GameInstance M,
  Spec.serverWellSized (Game.gameState g) ->
  Spec.serverWellSized (Game.gameState (fst (Game.run random uuidv4 evs g))).
Proof.
  induction evs as [| ev evs IH]; intros g H; simpl; [exact H |].
  pose proof (react_ok ev g H) as H1.
  destruct (Game.react random uuidv4 ev g) as [g1 out].
  specialize (IH g1 H1).
  destruct (Game.run random uuidv4 evs g1) as [g2 rest]. exact IH.
Qed.

End ServerSizes.

(** ** Radius and mass on the client *)

Lemma calculateRadius_wellSized m :
  0 < m -> Spec.wellSized m (PhysicsEngine.calculateRadius m).
Proof. intros H. split; [exact H | reflexivity]. Qed.

Lemma insert_wellSized (pe : PhysicsEngine.t) i e (m : gmap string Client.Entity) :
  (forall j e', m !! j = Some e' -> Spec.wellSized (Client.mass e') (Client.radius e')) ->
  Spec.wellSized (Client.mass e) (Client.radius e) ->
  forall j e', <[i := e]> m !! j = Some e' ->
               Spec.wellSized (Client.mass e') (Client.radius e').
Proof.
  intros Hm He j e' Hl. destruct (decide (i = j)) as [<- | Hne].
  - rewrite lookup_insert_eq in Hl. injection Hl as <-. exact He.
  - rewrite lookup_insert_ne in Hl by exact Hne. eapply Hm, Hl.
Qed.

Lemma client_createEntity_ok i ty m p pe :
  0 < m -> Spec.engineWellSized pe ->
  Spec.engineWellSized (fst (PhysicsEngine.createEntity i ty m p pe)).
Proof.
  intros Hm H. unfold Spec.engineWellSized. rewrite createEntity_entities.
  apply (insert_wellSized pe); [exact H |]. apply calculateRadius_wellSized, Hm.
Qed.

Lemma updateEntityMass_ok i m pe :
  0 < m -> Spec.engineWellSized pe ->
  Spec.engineWellSized (PhysicsEngine.updateEntityMass i m pe).
Proof.
  intros Hm H. destruct (PhysicsEngine.entities pe !! i) as [e |] eqn:E.
  - unfold Spec.engineWellSized. rewrite (updateEntityMass_entities _ _ _ _ E).
    apply (insert_wellSized pe); [exact H |]. apply calculateRadius_wellSized, Hm.
  - rewrite updateEntityMass_absent by exact E. exact H.
Qed.

Lemma applyMovement_ok i d pe :
  Spec.engineWellSized pe -> Spec.engineWellSized (PhysicsEngine.applyMovement i d pe).
Proof.
  intros H j e Hl.
  pose proof (applyMovement_mass i d pe j) as Hm.
  pose proof (applyMovement_radius i d pe j) as Hr.
  rewrite Hl in Hm, Hr. simpl in Hm, Hr.
  destruct (PhysicsEngine.entities pe !! j) as [e0 |] eqn:E; [| discriminate].
  simpl in Hm, Hr. injection Hm as ->. injection Hr as ->. eapply H, E.
Qed.

Lemma removeEntity_ok i pe :
  Spec.engineWellSized pe -> Spec.engineWellSized (PhysicsEngine.removeEntity i pe).
Proof.
  intros H j e Hl. unfold PhysicsEngine.removeEntity in Hl. simpl in Hl.
  apply lookup_delete_Some in Hl as [_ Hl]. eapply H, Hl.
Qed.

Lemma processEatingCollision_ok predatorId preyId pe :
  Spec.engineWellSized pe ->
  Spec.engineWellSized (fst (PhysicsEngine.processEatingCollision predatorId preyId pe)).
Proof.
  intros H. unfold PhysicsEngine.processEatingCollision.
  destruct (PhysicsEngine.entities pe !! predatorId) as [p |] eqn:Ep; [| exact H].
  destruct (PhysicsEngine.entities pe !! preyId) as [q |] eqn:Eq; [| exact H].
  destruct (JS.leb _ _); [exact H |].
  destruct (PhysicsEngine.checkCollision p q); [| exact H].
  simpl. intros j e Hl. simpl in Hl.
  apply lookup_delete_Some in Hl as [_ Hl].
  destruct (H _ _ Ep) as [Hp _]. destruct (H _ _ Eq) as [Hq _].
  eapply (updateEntityMass_ok predatorId (Client.mass p + Client.mass q) pe); eauto.
  lra.
Qed.

Lemma performSplit_ok now playerId direction s :
  0 < SplitMergeSystem.splitRatio (SplitMergeSystem.config s) < 1 ->
  Spec.clientWellSized s ->
  Spec.clientWellSized (fst (SplitMergeSystem.performSplit now playerId direction s)).
Proof.
  intros Hratio H.
  destruct (SplitMergeSystem.canPlayerSplit now playerId s) eqn:Hcan.
  2: { rewrite performSplit_ineligible by exact Hcan. exact H. }
  destruct (PhysicsEngine.getEntity playerId (SplitMergeSystem.physicsEngine s))
    as [player |] eqn:Hp.
  2: { unfold SplitMergeSystem.canPlayerSplit in Hcan. rewrite Hp in Hcan. discriminate. }
  destruct (split_masses_after now playerId direction s player Hcan Hp)
    as (Hm1 & Hr1 & Hm2 & Hr2 & Hothers).
  cbv zeta in *. destruct (H _ _ Hp) as [Hpos _].
  set (ratio := SplitMergeSystem.splitRatio (SplitMergeSystem.config s)) in *.
  assert (Hnew : 0 < Client.mass player * ratio) by nra.
  assert (Hrest : 0 < Client.mass player - Client.mass player * ratio) by nra.
  intros j e Hl.
  destruct (decide (j = playerId)) as [-> | Hj1].
  { rewrite Hl in Hm1, Hr1. simpl in Hm1, Hr1.
    injection Hm1 as ->. injection Hr1 as ->. split; [exact Hrest | reflexivity]. }
  destruct (decide (j = String.append playerId (String.append "_split_" (pretty now))))
    as [-> | Hj2].
  { rewrite Hl in Hm2, Hr2. simpl in Hm2, Hr2.
    injection Hm2 as ->. injection Hr2 as ->. split; [exact Hnew | reflexivity]. }
  rewrite Hothers in Hl by assumption. eapply H, Hl.
Qed.

Lemma removePlayerSplit_engine playerId splitId s :
  SplitMergeSystem.physicsEngine (SplitMergeSystem.removePlayerSplit playerId splitId s)
  = SplitMergeSystem.physicsEngine s.
Proof.
  unfold SplitMergeSystem.removePlayerSplit.
  destruct (SplitMergeSystem.spliceFirst _ _); reflexivity.
Qed.

Lemma mergeCells_ok parentId splitId s :
  Spec.clientWellSized s ->
  Spec.clientWellSized (SplitMergeSystem.mergeCells parentId splitId s).
Proof.
  intros H. unfold SplitMergeSystem.mergeCells, PhysicsEngine.getEntity.
  destruct (PhysicsEngine.entities (SplitMergeSystem.physicsEngine s) !! parentId)
    as [parent |] eqn:Ep; [| exact H].
  destruct (PhysicsEngine.entities (SplitMergeSystem.physicsEngine s) !! splitId)
    as [split |] eqn:Es; [| exact H].
  unfold Spec.clientWellSized. rewrite removePlayerSplit_engine. simpl.
  destruct (H _ _ Ep) as [Hp _]. destruct (H _ _ Es) as [Hs _].
  apply removeEntity_ok.
  pose proof (updateEntityMass_ok parentId (Client.mass parent + Client.mass split)
                (SplitMergeSystem.physicsEngine s) ltac:(lra) H) as H1.
  intros j e Hl. simpl in Hl.
  destruct (PhysicsEngine.entities
              (PhysicsEngine.updateEntityMass parentId
                 (Client.mass parent + Client.mass split)
                 (SplitMergeSystem.physicsEngine s)) !! parentId) as [p |] eqn:E1;
    [| eapply H1, Hl].
  destruct (decide (parentId = j)) as [<- | Hne].
  - rewrite lookup_insert_eq in Hl. injection Hl as <-. simpl. eapply H1, E1.
  - rewrite lookup_insert_ne in Hl by exact Hne. eapply H1, Hl.
Qed.

Lemma attemptMerge_ok parentId splitId s :
  Spec.clientWellSized s ->
  Spec.clientWellSized (SplitMergeSystem.attemptMerge parentId splitId s).
Proof.
  intros H. unfold SplitMergeSystem.attemptMerge.
  destruct (PhysicsEngine.getEntity parentId _);
    [destruct (PhysicsEngine.getEntity splitId _) |].
  - destruct (JS.ltb _ _); [apply mergeCells_ok, H | exact H].
  - unfold Spec.clientWellSized. rewrite removePlayerSplit_engine. exact H.
  - unfold Spec.clientWellSized. rewrite removePlayerSplit_engine. exact H.
Qed.

Lemma removePlayerSplit_config playerId splitId s :
  SplitMergeSystem.config (SplitMergeSystem.removePlayerSplit playerId splitId s)
  = SplitMergeSystem.config s.
Proof.
  unfold SplitMergeSystem.removePlayerSplit.
  destruct (SplitMergeSystem.spliceFirst _ _); reflexivity.
Qed.

Lemma applyOp_config s op :
  SplitMergeSystem.config (Spec.applyOp s op) = SplitMergeSystem.config s.
Proof.
  destruct op; simpl; try reflexivity.
  - unfold SplitMergeSystem.performSplit.
    destruct (negb _); [reflexivity |].
    destruct (PhysicsEngine.getEntity _ _); reflexivity.
  - unfold SplitMergeSystem.mergeCells.
    destruct (PhysicsEngine.getEntity parentId _);
      [destruct (PhysicsEngine.getEntity splitId _) |]; try reflexivity.
    rewrite removePlayerSplit_config. reflexivity.
  - unfold SplitMergeSystem.attemptMerge, SplitMergeSystem.mergeCells.
    destruct (PhysicsEngine.getEntity parentId _);
      [destruct (PhysicsEngine.getEntity splitId _) |];
      try (rewrite removePlayerSplit_config; reflexivity).
    destruct (JS.ltb _ _); [| reflexivity].
    rewrite removePlayerSplit_config. reflexivity.
Qed.

Lemma applyOp_ok s op :
  0 < SplitMergeSystem.splitRatio (SplitMergeSystem.config s) < 1 ->
  Spec.admissible op -> Spec.clientWellSized s -> Spec.clientWellSized (Spec.applyOp s op).
Proof.
  intros Hratio Hop H. destruct op; simpl in *.
  - apply client_createEntity_ok; assumption.
  - apply updateEntityMass_ok; assumption.
  - apply applyMovement_ok, H.
  - apply processEatingCollision_ok, H.
  - apply removeEntity_ok, H.
  - apply performSplit_ok; assumption.
  - apply mergeCells_ok, H.
  - apply attemptMerge_ok, H.
Qed.

(** C6.  Server: if every entity of a game state has a positive mass and
    the radius sqrt(mass/pi), so has every entity of the state after any
    run of events (arrivals, joins and ticks, which create, split and eat).
    Client: if every entity of the engine has a positive mass and the
    radius sqrt(mass/pi), so has every entity after any sequence of
    creations, mass updates, moves, eatings, removals, splits and merges,
    the masses handed in being positive and the split ratio lying strictly
    between 0 and 1. *)
Theorem radius_follows_mass
    (random : nat -> R) (uuidv4 : nat -> string) {M : Type}
    (evs : list Game.Event) (g : Game.GameInstance M)
    (ops : list Spec.ClientOp) (s : SplitMergeSystem.t)
    (Hserver : Spec.serverWellSized (Game.gameState g))
    (Hratio : 0 < SplitMergeSystem.splitRatio (SplitMergeSystem.config s) < 1)
    (Hops : Forall Spec.admissible ops)
    (Hclient : Spec.clientWellSized s) :
  Spec.serverWellSized (Game.gameState (fst (Game.run random uuidv4 evs g)))
  /\ Spec.clientWellSized (foldl Spec.applyOp s ops).
Proof.
  split; [apply run_ok, Hserver |].
  revert s Hratio Hclient. induction Hops as [| op ops Hop Hops IH]; intros s Hratio Hclient.
  - exact Hclient.
  - simpl. apply IH.
    + rewrite applyOp_config. exact Hratio.
    + apply applyOp_ok; assumption.
Qed.

Lemma radius_follows_mass_witness :
  Spec.serverWellSized
    (Game.gameState
       (fst (Game.run Scenario.someRandom Scenario.someUuid
                      Scenario.threeEvents Scenario.startedGame)))
  /\ Spec.clientWellSized
       (foldl Spec.applyOp Scenario.splitter
              [Spec.Split 5000 "player" None; Spec.UpdateMass "player" 60]).
Proof.
  apply radius_follows_mass.
  - constructor.
  - simpl. lra.
  - constructor; [exact I |]. constructor; [| constructor].
    unfold Spec.admissible. lra.
  - intros i e Hl. simpl in Hl.
    apply lookup_insert_Some in Hl as [[_ <-] | [_ Hl]].
    + apply calculateRadius_wellSized. simpl. lra.
    + rewrite lookup_empty in Hl. discriminate.
Defined.


(** ** Splitting on the server *)

Lemma Map_get_set_eq k v m : Game.Map_get k (Game.Map_set k v m) = Some v.
Proof.
  induction m as [| [k' v'] m IH]; simpl.
  - destruct (decide (k = k)); [reflexivity | contradiction].
  - destruct (decide (k = k')) as [E | E]; simpl.
    + destruct (decide (k = k)); [reflexivity | contradiction].
    + destruct (decide (k = k')); [contradiction | exact IH].
Qed.

Lemma Map_get_set_ne k k' v m :
  k <> k' -> Game.Map_get k' (Game.Map_set k v m) = Game.Map_get k' m.
Proof.
  intros Hne. induction m as [| [k0 v0] m IH]; simpl.
  - destruct (decide (k' = k)); [congruence | reflexivity].
  - destruct (decide (k = k0)) as [E | E]; simpl.
    + subst k0. destruct (decide (k' = k)); [congruence | reflexivity].
    + destruct (decide (k' = k0)); [reflexivity | exact IH].
Qed.





(** * Further properties of the code *)

(** ** Radius, mass and vectors *)














(** ** Speed *)

Lemma Rpower_quarter_of_fourth a : 0 < a -> Rpower (a * a * a * a) (1 / 4) = a.
Proof.
  intros Ha.
  replace (a * a * a * a) with (a ^ 4) by ring.
  rewrite <- (Rpower_pow 4 a Ha). rewrite Rpower_mult.
  replace (INR 4 * (1 / 4)) with 1 by (simpl; lra).
  apply Rpower_1, Ha.
Qed.

(** X4.  The speed limit saturates: it is 220 for every mass up to 1 (on
    the server also for masses that are not positive) and 18 for every
    mass from 22316 on, on the server and on the client. *)
Theorem vMax_saturates (m : R) :
  (m <= 1 -> Physics.vMaxFromMass m = 220)
  /\ (0 < m <= 1 -> PhysicsEngine.calculateMaxVelocity m = 220)
  /\ (22316 <= m ->
      Physics.vMaxFromMass m = 18 /\ PhysicsEngine.calculateMaxVelocity m = 18).
Proof.
  assert (Hc : forall m, PhysicsEngine.calculateMaxVelocity m
                         = Rmax 18 (Rmin 220 (220 / Rpower m (1 / 4)))) by reflexivity.
  assert (Hlow : 0 < m <= 1 -> Rmax 18 (Rmin 220 (220 / Rpower m (1 / 4))) = 220).
  { intros [H0 H1].
    assert (Hp : 0 < Rpower m (1 / 4)) by apply exp_pos.
    assert (Hle : Rpower m (1 / 4) <= 1).
    { rewrite <- (Rpower_quarter_of_fourth 1) at 2 by lra.
      apply Rle_Rpower_l; lra. }
    assert (Hq : 220 <= 220 / Rpower m (1 / 4)).
    { apply (Rmult_le_reg_r (Rpower m (1 / 4))); [exact Hp |].
      unfold Rdiv. rewrite Rmult_assoc, Rinv_l by lra. nra. }
    unfold Rmin. destruct (Rle_dec _ _); [| lra].
    unfold Rmax. destruct (Rle_dec _ _); lra. }
  assert (Hhigh : 22316 <= m -> Rmax 18 (Rmin 220 (220 / Rpower m (1 / 4))) = 18).
  { intros H.
    assert (Hge : 110 / 9 <= Rpower m (1 / 4)).
    { rewrite <- (Rpower_quarter_of_fourth (110 / 9)) by lra.
      apply Rle_Rpower_l; [lra |]. split; [| lra].
      repeat apply Rmult_lt_0_compat; lra. }
    assert (Hq : 220 / Rpower m (1 / 4) <= 18).
    { apply (Rmult_le_reg_r (Rpower m (1 / 4))); [lra |].
      unfold Rdiv. rewrite Rmult_assoc, Rinv_l by lra. lra. }
    unfold Rmin. destruct (Rle_dec _ _); [lra |].
    unfold Rmax. destruct (Rle_dec _ _); lra. }
  split_and!.
  - intros H. destruct (Rle_dec m 0) as [H0 | H0].
    + unfold Physics.vMaxFromMass.
      destruct (JS.leb m 0) eqn:E; [reflexivity | apply leb_false in E; lra].
    + rewrite vMaxFromMass_pos by lra. apply Hlow. lra.
  - intros H. rewrite Hc. apply Hlow, H.
  - intros H. rewrite Hc, vMaxFromMass_pos by lra. split; apply Hhigh, H.
Qed.

Lemma vMaxFromMass_at_least_18 m : 18 <= Physics.vMaxFromMass m <= 220.
Proof.
  unfold Physics.vMaxFromMass. destruct (JS.leb m 0); [lra |].
  apply clamp_bounds. lra.
Qed.



Lemma vMax_saturates_witness : Physics.vMaxFromMass 1 = 220.
Proof. apply (proj1 (vMax_saturates 1)). lra. Defined.

(** ** Integration, bounds and the validator *)

Lemma clamp_inside lo hi v : lo <= hi -> lo <= Rmax lo (Rmin hi v) <= hi.
Proof. apply clamp_bounds. Qed.

Lemma clamp_nonexpansive lo hi a b :
  lo <= a <= hi -> Rabs (Rmax lo (Rmin hi b) - a) <= Rabs (b - a).
Proof.
  intros [H1 H2]. unfold Rmax, Rmin.
  destruct (Rle_dec hi b); destruct (Rle_dec lo _);
    unfold Rabs; repeat destruct (Rcase_abs _); lra.
Qed.

Lemma sqrt_sum_squares_le a b c d :
  Rabs a <= Rabs c -> Rabs b <= Rabs d ->
  sqrt (a * a + b * b) <= sqrt (c * c + d * d).
Proof.
  intros Ha Hb. apply sqrt_le_1_alt.
  pose proof (Rsqr_le_abs_1 a c Ha) as H1.
  pose proof (Rsqr_le_abs_1 b d Hb) as H2.
  unfold Rsqr in *. lra.
Qed.

(** X6.  An entity that fits into the world (its radius is at most half
    of the width and of the height) and moves lies, after the physics
    step, with its centre in [radius, width - radius] x [radius, height -
    radius]; if its radius is not negative and its mass is in (0, 10000)
    it passes [isWithinBounds].  A pellet is returned unchanged. *)
Theorem integrate_keeps_inside (deltaTime : R) (worldBounds : Physics.WorldBounds)
    (entity : Game.Entity)
    (Hw : Game.radius entity <= Physics.width worldBounds - Game.radius entity)
    (Hh : Game.radius entity <= Physics.height worldBounds - Game.radius entity)
    (Hr : 0 <= Game.radius entity)
    (Hm : 0 < Game.mass entity < 10000) :
  let entity' := Game.integrateEntity deltaTime worldBounds entity in
  (Game.type entity = Game.Pellet -> entity' = entity)
  /\ (Game.type entity <> Game.Pellet ->
      Game.radius entity <= Game.x entity' <= Physics.width worldBounds - Game.radius entity
      /\ Game.radius entity <= Game.y entity'
         <= Physics.height worldBounds - Game.radius entity
      /\ Physics.PhysicsValidator.isWithinBounds (Game.pos entity') (Game.mass entity')
           worldBounds = true).
Proof.
  cbv zeta. split.
  - intros Ht. unfold Game.integrateEntity.
    destruct (decide _); [reflexivity | contradiction].
  - intros Ht.
    destruct (integrateEntity_moving deltaTime worldBounds entity Ht) as (Hx & Hy & _).
    destruct (integrateEntity_size deltaTime worldBounds entity) as [Hmass _].
    cbv zeta in Hx, Hy. unfold Physics.clampToWorld in Hx, Hy. simpl in Hx, Hy.
    pose proof (clamp_inside (Game.radius entity)
                  (Physics.width worldBounds - Game.radius entity)
                  (Game.x entity + Game.vx entity * deltaTime) Hw) as Bx.
    pose proof (clamp_inside (Game.radius entity)
                  (Physics.height worldBounds - Game.radius entity)
                  (Game.y entity + Game.vy entity * deltaTime) Hh) as By.
    rewrite <- Hx in Bx. rewrite <- Hy in By.
    split; [exact Bx |]. split; [exact By |].
    unfold Physics.PhysicsValidator.isWithinBounds. simpl. rewrite Hmass.
    repeat (apply andb_true_intro; split);
      first [apply leb_true; lra | apply ltb_true; lra].
Qed.

Lemma integrate_keeps_inside_witness :
  let entity' := Game.integrateEntity (1 / 10) Scenario.world Scenario.wallRunner in
  Game.radius Scenario.wallRunner <= Game.x entity'
  <= Physics.width Scenario.world - Game.radius Scenario.wallRunner.
Proof.
  assert (Hr : Game.radius Scenario.wallRunner = sqrt (100 / JS.PI))
    by (apply radiusFromMass_pos; lra).
  pose proof (radius_positive 100 ltac:(lra)) as Hpos.
  pose proof (radius_below 100 10 ltac:(lra) ltac:(lra) ltac:(lra)) as Hle.
  assert (Hw : Game.radius Scenario.wallRunner
               <= Physics.width Scenario.world - Game.radius Scenario.wallRunner)
    by (rewrite Hr; simpl; lra).
  assert (Hh : Game.radius Scenario.wallRunner
               <= Physics.height Scenario.world - Game.radius Scenario.wallRunner)
    by (rewrite Hr; simpl; lra).
  assert (H0 : 0 <= Game.radius Scenario.wallRunner) by (rewrite Hr; lra).
  assert (Hm : 0 < Game.mass Scenario.wallRunner < 10000) by (simpl; lra).
  destruct (integrate_keeps_inside (1 / 10) Scenario.world Scenario.wallRunner Hw Hh H0 Hm)
    as [_ H].
  apply H. discriminate.
Defined.

(** X7.  The validator accepts every move the physics step makes: for an
    entity inside the world bounds whose speed is at most
    [vMaxFromMass(mass)], and a tick length that is not negative, the
    position after [integrateEntity] passes [isValidMovement] against the
    position before. *)
Theorem integrate_passes_validator (deltaTime : R) (worldBounds : Physics.WorldBounds)
    (entity : Game.Entity)
    (Hdt : 0 <= deltaTime)
    (Hx : Game.radius entity <= Game.x entity
          <= Physics.width worldBounds - Game.radius entity)
    (Hy : Game.radius entity <= Game.y entity
          <= Physics.height worldBounds - Game.radius entity)
    (Hv : sqrt (Game.vx entity * Game.vx entity + Game.vy entity * Game.vy entity)
          <= Physics.vMaxFromMass (Game.mass entity)) :
  Physics.PhysicsValidator.isValidMovement
    (Game.pos entity) (Game.mass entity)
    (Game.pos (Game.integrateEntity deltaTime worldBounds entity)) deltaTime = true.
Proof.
  unfold Physics.PhysicsValidator.isValidMovement. apply leb_true.
  pose proof (vMaxFromMass_at_least_18 (Game.mass entity)) as Hb.
  set (vmax := Physics.vMaxFromMass (Game.mass entity)) in *.
  assert (Hstep : sqrt ((Game.vx entity * deltaTime) * (Game.vx entity * deltaTime)
                        + (Game.vy entity * deltaTime) * (Game.vy entity * deltaTime))
                  <= vmax * deltaTime).
  { replace ((Game.vx entity * deltaTime) * (Game.vx entity * deltaTime)
             + (Game.vy entity * deltaTime) * (Game.vy entity * deltaTime))
      with ((Game.vx entity * Game.vx entity + Game.vy entity * Game.vy entity)
            * (deltaTime * deltaTime)) by ring.
    rewrite sqrt_mult_alt by nra. rewrite (sqrt_square deltaTime) by exact Hdt.
    apply Rmult_le_compat_r; assumption. }
  assert (Hgoal : vmax * deltaTime <= vmax * deltaTime * (11 / 10)) by nra.
  destruct (decide (Game.type entity = Game.Pellet)) as [Ht | Ht].
  - unfold Game.integrateEntity. destruct (decide _); [| contradiction].
    unfold Physics.distance. simpl.
    replace ((Game.x entity - Game.x entity) * (Game.x entity - Game.x entity)
             + (Game.y entity - Game.y entity) * (Game.y entity - Game.y entity))
      with 0 by ring.
    rewrite sqrt_0. nra.
  - destruct (integrateEntity_moving deltaTime worldBounds entity Ht) as (Ex & Ey & _).
    cbv zeta in Ex, Ey. unfold Physics.clampToWorld in Ex, Ey. simpl in Ex, Ey.
    unfold Physics.distance. simpl. rewrite Ex, Ey.
    eapply Rle_trans; [| eapply Rle_trans; [exact Hstep | exact Hgoal]].
    apply sqrt_sum_squares_le.
    + eapply Rle_trans; [apply clamp_nonexpansive; exact Hx |].
      apply Req_le. f_equal. ring.
    + eapply Rle_trans; [apply clamp_nonexpansive; exact Hy |].
      apply Req_le. f_equal. ring.
Qed.

Lemma integrate_passes_validator_witness :
  Physics.PhysicsValidator.isValidMovement
    (Game.pos Scenario.big) (Game.mass Scenario.big)
    (Game.pos (Game.integrateEntity (1 / 10) Scenario.world Scenario.big)) (1 / 10) = true.
Proof.
  assert (Hr : Game.radius Scenario.big = sqrt (200 / JS.PI))
    by (apply radiusFromMass_pos; lra).
  pose proof (radius_positive 200 ltac:(lra)) as Hpos.
  pose proof (radius_below 200 10 ltac:(lra) ltac:(lra) ltac:(lra)) as Hle.
  pose proof (vMaxFromMass_at_least_18 (Game.mass Scenario.big)) as Hv.
  apply integrate_passes_validator.
  - lra.
  - rewrite Hr. simpl. lra.
  - rewrite Hr. simpl. lra.
  - simpl. replace (0 * 0 + 0 * 0) with 0 by lra. rewrite sqrt_0.
    simpl in Hv. lra.
Defined.

(** ** Spawning *)

Section Spawning.
Variable random : nat -> R.
Variable uuidv4 : nat -> string.

Lemma randomPositionLoop_bounds attempts : forall k worldBounds radius avoidAreas,
  Spec.unitInterval random ->
  2 * radius <= Physics.width worldBounds ->
  2 * radius <= Physics.height worldBounds ->
  let r := Game.randomPositionLoop random attempts k worldBounds radius avoidAreas in
  radius <= Physics.x (fst r) <= Physics.width worldBounds - radius
  /\ radius <= Physics.y (fst r) <= Physics.height worldBounds - radius
  /\ (k + 2 <= snd r <= k + 2 * S attempts)%nat
  /\ (avoidAreas = [] -> snd r = (k + 2)%nat).
Proof.
  induction attempts as [| n IH]; intros k wb radius areas Hu Hw Hh; cbv zeta.
  - simpl. pose proof (Hu k). pose proof (Hu (S k)).
    split_and!; first [nra | lia].
  - simpl.
    destruct (forallb _ areas) eqn:E.
    + simpl. pose proof (Hu k). pose proof (Hu (S k)).
      split_and!; first [nra | lia].
    + specialize (IH (S (S k)) wb radius areas Hu Hw Hh). cbv zeta in IH.
      destruct IH as (Hx & Hy & Hk & _).
      split_and!; try lra; try lia.
      intros ->. simpl in E. discriminate.
Qed.

(** X8.  With random numbers in [0, 1) and a world at least two radii
    wide and high, [generateRandomPosition] returns a position at least
    [radius] away from every wall; it draws at least 2 and at most 102
    random numbers, and exactly 2 when there is nothing to avoid. *)
Theorem generateRandomPosition_inside
    (k : nat) (worldBounds : Physics.WorldBounds) (radius : R)
    (avoidAreas : list Game.Entity)
    (Hu : Spec.unitInterval random)
    (Hw : 2 * radius <= Physics.width worldBounds)
    (Hh : 2 * radius <= Physics.height worldBounds) :
  let r := Game.generateRandomPosition random k worldBounds radius avoidAreas in
  radius <= Physics.x (fst r) <= Physics.width worldBounds - radius
  /\ radius <= Physics.y (fst r) <= Physics.height worldBounds - radius
  /\ (k + 2 <= snd r <= k + 102)%nat
  /\ (avoidAreas = [] -> snd r = (k + 2)%nat).
Proof.
  exact (randomPositionLoop_bounds 50 k worldBounds radius avoidAreas Hu Hw Hh).
Qed.

End Spawning.

Lemma someRandom_unit : Spec.unitInterval Scenario.someRandom.
Proof. intros k. unfold Scenario.someRandom. lra. Qed.

Lemma generateRandomPosition_inside_witness :
  let r := Game.generateRandomPosition Scenario.someRandom 0 Scenario.world 25 [] in
  25 <= Physics.x (fst r) <= Physics.width Scenario.world - 25.
Proof.
  assert (Hw : 2 * 25 <= Physics.width Scenario.world) by (simpl; lra).
  assert (Hh : 2 * 25 <= Physics.height Scenario.world) by (simpl; lra).
  exact (proj1 (generateRandomPosition_inside Scenario.someRandom 0 Scenario.world 25 []
                  someRandom_unit Hw Hh)).
Defined.

Lemma Map_set_absent k v m :
  Game.Map_get k m = None -> Game.Map_set k v m = m ++ [(k, v)].
Proof.
  induction m as [| [k0 v0] m IH]; simpl; [reflexivity |].
  destruct (decide (k = k0)); [discriminate |].
  intros H. rewrite IH by exact H. reflexivity.
Qed.

Section Joining.
Variable random : nat -> R.
Variable uuidv4 : nat -> string.

(** The result of [addPlayer] for a new id, spelled out. *)
Lemma addPlayer_new now playerId st :
  Game.Map_get playerId (Game.entities st) = None ->
  let gp :=
    Game.generateRandomPosition random (Game.randomCalls st) (Game.worldBounds st) 25
                                (Game.Map_values (Game.entities st)) in
  let player :=
    Game.createEntity (uuidv4 (Game.uuidCalls st)) now
      (Game.mkEntityConfig (Some playerId) (Some Game.Player)
         (Some (Physics.x (fst gp))) (Some (Physics.y (fst gp)))
         None None (Some Physics.INITIAL_PLAYER_MASS) None None
         (Some "basic")
         (Some (String.append "#"
                  (JS.toString16 (JS.floor (random (snd gp) * 16777215)))))
         (Some (String.append "Player_" (String.substring 0 8 playerId)))) in
  Game.entities (fst (Game.addPlayer random uuidv4 now playerId st))
  = Game.Map_set playerId player (Game.entities st)
  /\ snd (Game.addPlayer random uuidv4 now playerId st) = player
  /\ Game.totalPlayers (Game.stats (fst (Game.addPlayer random uuidv4 now playerId st)))
     = S (Game.totalPlayers (Game.stats st)).
Proof.
  intros Hnew. cbv zeta. unfold Game.addPlayer. rewrite Hnew.
  destruct (Game.generateRandomPosition _ _ _ _ _) as [p k].
  destruct (bool_decide (playerId = "")); simpl; auto.
Qed.

(** X9.  [addPlayer] for an id that is not in the table appends one
    entity under that id: a live player of mass 100 with the radius of
    that mass, at rest, at least 25 away from every wall (random numbers
    in [0, 1), world at least 50 wide and high), and counts it in
    [totalPlayers].  Adding the same id again changes nothing and returns
    the same entity. *)
Theorem addPlayer_spawns_once (now now2 : Z) (playerId : string) (st : Game.GameState)
    (Hnew : Game.Map_get playerId (Game.entities st) = None)
    (Hu : Spec.unitInterval random)
    (Hw : 50 <= Physics.width (Game.worldBounds st))
    (Hh : 50 <= Physics.height (Game.worldBounds st)) :
  let r := Game.addPlayer random uuidv4 now playerId st in
  let player := snd r in
  Game.entities (fst r) = Game.entities st ++ [(playerId, player)]
  /\ Game.Map_get playerId (Game.entities (fst r)) = Some player
  /\ Game.id player = playerId
  /\ Game.type player = Game.Player
  /\ Game.mass player = 100
  /\ Game.radius player = sqrt (100 / JS.PI)
  /\ Game.isAlive player = true
  /\ Game.vx player = 0 /\ Game.vy player = 0
  /\ 25 <= Game.x player <= Physics.width (Game.worldBounds st) - 25
  /\ 25 <= Game.y player <= Physics.height (Game.worldBounds st) - 25
  /\ Game.totalPlayers (Game.stats (fst r)) = S (Game.totalPlayers (Game.stats st))
  /\ Game.addPlayer random uuidv4 now2 playerId (fst r) = (fst r, player).
Proof.
  cbv zeta.
  pose proof (randomPositionLoop_bounds random 50 (Game.randomCalls st)
                (Game.worldBounds st) 25 (Game.Map_values (Game.entities st)) Hu
                ltac:(lra) ltac:(lra)) as Hpos.
  fold (Game.generateRandomPosition random) in Hpos.
  cbv zeta in Hpos. destruct Hpos as (Hx & Hy & _).
  assert (Hr : Physics.radiusFromMass Physics.INITIAL_PLAYER_MASS = sqrt (100 / JS.PI)).
  { unfold Physics.INITIAL_PLAYER_MASS. apply radiusFromMass_pos. lra. }
  destruct (addPlayer_new now playerId st Hnew) as (He & Hp & Ht). cbv zeta in He, Hp.
  assert (Hagain : Game.addPlayer random uuidv4 now2 playerId
                     (fst (Game.addPlayer random uuidv4 now playerId st))
                   = (fst (Game.addPlayer random uuidv4 now playerId st),
                      snd (Game.addPlayer random uuidv4 now playerId st))).
  { unfold Game.addPlayer at 1. rewrite He, Map_get_set_eq, Hp. reflexivity. }
  split; [rewrite He, Hp; apply Map_set_absent, Hnew |].
  split; [rewrite He, Hp; apply Map_get_set_eq |].
  split; [rewrite Hp; reflexivity |]. split; [rewrite Hp; reflexivity |].
  split; [rewrite Hp; reflexivity |].
  split; [rewrite Hp; exact Hr |]. split; [rewrite Hp; reflexivity |].
  split; [rewrite Hp; reflexivity |]. split; [rewrite Hp; reflexivity |].
  split; [rewrite Hp; exact Hx |]. split; [rewrite Hp; exact Hy |].
  split; [exact Ht | exact Hagain].
Qed.

(** X10.  An action for a player that is not in the table: of type
    [input] or [spawn] it only spawns the player, who stays at rest (the
    direction of the input is not applied); of any other type it leaves
    the state as it is.  For a player in the table, an action of a type
    other than [input] and [split] leaves the state as it is. *)
Theorem action_for_unknown_player (now : Z) (action : Game.Action) (st : Game.GameState)
    (Hnew : Game.Map_get (Game.playerId action) (Game.entities st) = None) :
  let st' := Game.processAction random uuidv4 now action st in
  (Game.atype action = "input" \/ Game.atype action = "spawn" ->
     st' = fst (Game.addPlayer random uuidv4 now (Game.playerId action) st)
     /\ exists player,
          Game.Map_get (Game.playerId action) (Game.entities st') = Some player
          /\ Game.vx player = 0 /\ Game.vy player = 0 /\ Game.mass player = 100)
  /\ (Game.atype action <> "input" -> Game.atype action <> "spawn" -> st' = st)
  /\ (forall st0 entity,
        Game.Map_get (Game.playerId action) (Game.entities st0) = Some entity ->
        Game.atype action <> "input" -> Game.atype action <> "split" ->
        Game.processAction random uuidv4 now action st0 = st0).
Proof.
  cbv zeta. unfold Game.processAction at 1 2 3. rewrite Hnew. split_and!.
  - intros Ht.
    assert (E : bool_decide (Game.atype action = "input")
                || bool_decide (Game.atype action = "spawn") = true).
    { destruct Ht as [-> | ->]; reflexivity. }
    rewrite E. split; [reflexivity |].
    unfold Game.addPlayer. rewrite Hnew.
    destruct (Game.generateRandomPosition _ _ _ _ _) as [p k].
    eexists. split.
    + cbn [fst Game.entities Game.set_stats].
      destruct (bool_decide (Game.playerId action = ""));
        cbn [Game.entities Game.set_uuidCalls Game.set_randomCalls Game.set_entities];
        apply Map_get_set_eq.
    + simpl. auto.
  - intros H1 H2.
    rewrite (bool_decide_eq_false_2 _ H1), (bool_decide_eq_false_2 _ H2). reflexivity.
  - intros st0 entity Hg H1 H2. unfold Game.processAction. rewrite Hg.
    rewrite (bool_decide_eq_false_2 _ H1), (bool_decide_eq_false_2 _ H2).
    repeat (destruct (bool_decide _); try reflexivity).
Qed.

End Joining.

Lemma addPlayer_spawns_once_witness :
  let r := Game.addPlayer Scenario.someRandom Scenario.someUuid 10 "ann" Game.defaultGame in
  Game.mass (snd r) = 100
  /\ Game.addPlayer Scenario.someRandom Scenario.someUuid 20 "ann" (fst r) = (fst r, snd r).
Proof.
  assert (Hw : 50 <= Physics.width (Game.worldBounds Game.defaultGame)) by (simpl; lra).
  assert (Hh : 50 <= Physics.height (Game.worldBounds Game.defaultGame)) by (simpl; lra).
  destruct (addPlayer_spawns_once Scenario.someRandom Scenario.someUuid 10 20 "ann"
              Game.defaultGame eq_refl someRandom_unit Hw Hh)
    as (_ & _ & _ & _ & Hm & _ & _ & _ & _ & _ & _ & _ & Hagain).
  split; [exact Hm | exact Hagain].
Defined.

Lemma action_for_unknown_player_witness :
  Game.processAction Scenario.someRandom Scenario.someUuid 10
                     (Scenario.ability "ann") Game.defaultGame
  = Game.defaultGame.
Proof.
  apply (action_for_unknown_player Scenario.someRandom Scenario.someUuid 10
           (Scenario.ability "ann") Game.defaultGame eq_refl); discriminate.
Defined.

(** ** The action queue *)

Section Progress.
Variable random : nat -> R.
Variable uuidv4 : nat -> string.

Lemma processAction_actionsProcessed now action st :
  Game.actionsProcessed (Game.stats (Game.processAction random uuidv4 now action st))
  = Game.actionsProcessed (Game.stats st).
Proof.
  unfold Game.processAction.
  destruct (Game.Map_get (Game.playerId action) (Game.entities st)) as [entity |] eqn:Eg.
  - destruct (bool_decide (Game.atype action = "input")); [reflexivity |].
    destruct (bool_decide (Game.atype action = "ability")); [reflexivity |].
    destruct (bool_decide (Game.atype action = "split")).
    + unfold Game.processSplitAction. destruct (JS.ltb _ _); reflexivity.
    + destruct (bool_decide _); reflexivity.
  - destruct (_ || _); [| reflexivity].
    unfold Game.addPlayer. rewrite Eg.
    destruct (Game.generateRandomPosition _ _ _ _ _) as [p k].
    destruct (bool_decide (Game.playerId action = "")); reflexivity.
Qed.

Lemma applyInOrder_actionsProcessed now actions st :
  Game.actionsProcessed (Game.stats (Game.applyInOrder random uuidv4 now actions st))
  = Game.actionsProcessed (Game.stats st).
Proof.
  unfold Game.applyInOrder.
  apply (foldl_invariant _
           (fun a => Game.actionsProcessed (Game.stats a)
                     = Game.actionsProcessed (Game.stats st))); [| reflexivity].
  intros a b Ha. rewrite processAction_actionsProcessed. exact Ha.
Qed.

(** X11.  A drain of the queue counts in [actionsProcessed] exactly the
    actions it takes off the queue; it handles at least one action when
    the queue is not empty, whatever the clock says; it ends without a
    warning only with the queue empty, and a warning carries the number
    of actions left. *)
Theorem drain_counts_what_it_removes (now : Z) (elapsed : nat -> R) (st : Game.GameState) :
  let r := Game.processActionQueue random uuidv4 now elapsed st in
  (Game.actionsProcessed (Game.stats (fst r)) + length (Game.actionQueue (fst r))
   = Game.actionsProcessed (Game.stats st) + length (Game.actionQueue st))%nat
  /\ (Game.actionQueue st <> [] ->
      (length (Game.actionQueue (fst r)) < length (Game.actionQueue st))%nat)
  /\ (snd r = None -> Game.actionQueue (fst r) = [])
  /\ (forall n, snd r = Some n -> n = length (Game.actionQueue (fst r))).
Proof.
  cbv zeta. unfold Game.processActionQueue.
  destruct (drainLoop_prefix random uuidv4 now elapsed (Game.actionQueue st) 0 st)
    as (k & w & Hk & E & _ & Hend).
  rewrite E. cbn [fst snd Game.stats Game.set_stats Game.actionQueue Game.set_actionQueue
                  Game.actionsProcessed].
  rewrite applyInOrder_actionsProcessed, length_drop.
  destruct Hend as [(Hw & H1 & _) | (Hw & Hlen & _)].
  - split_and!.
    + lia.
    + intros _. lia.
    + intros Hn. congruence.
    + intros n Hn. rewrite Hw in Hn. injection Hn as <-. apply length_drop.
  - split_and!.
    + lia.
    + intros Hq. destruct (Game.actionQueue st); [contradiction | simpl in *; lia].
    + intros _. rewrite Hlen. apply drop_all.
    + intros n Hn. congruence.
Qed.

(** ** Splitting on the server *)

(** X12.  [processSplitAction] on an entity of the table: below mass 50
    nothing changes; from 50 on the entity keeps its place, position and
    velocity with half the mass, and a fragment is appended under a fresh
    id with the other half, owned by the entity, two (new) radii to its
    right, at one and a half times its velocity.  The fragment is due for
    removal exactly when more than 30000 ms have passed since the split. *)
Theorem server_split_halves (now now2 : Z) (key : string) (entity : Game.Entity)
    (st : Game.GameState)
    (Hkey : Game.Map_get key (Game.entities st) = Some entity)
    (Hfresh : Game.Map_get (uuidv4 (Game.uuidCalls st)) (Game.entities st) = None) :
  let st' := Game.processSplitAction uuidv4 now key entity st in
  let fragmentId := uuidv4 (Game.uuidCalls st) in
  (Game.mass entity < 50 -> st' = st)
  /\ (50 <= Game.mass entity ->
      exists parent fragment,
        Game.entities st'
        = Game.Map_set key parent (Game.entities st) ++ [(fragmentId, fragment)]
        /\ Game.Map_get key (Game.entities st') = Some parent
        /\ Game.Map_get fragmentId (Game.entities st') = Some fragment
        /\ Game.mass parent = Game.mass entity / 2
        /\ Game.mass fragment = Game.mass entity / 2
        /\ Game.radius parent = sqrt (Game.mass entity / 2 / JS.PI)
        /\ Game.radius fragment = sqrt (Game.mass entity / 2 / JS.PI)
        /\ Game.pos parent = Game.pos entity
        /\ Game.vel parent = Game.vel entity
        /\ Game.id fragment = fragmentId
        /\ Game.type fragment = Game.Fragment
        /\ Game.ownerId fragment = Some (Game.id entity)
        /\ Game.isAlive fragment = true
        /\ Game.x fragment = Game.x entity + Game.radius parent * 2
        /\ Game.y fragment = Game.y entity
        /\ Game.vx fragment = Game.vx entity * (15 / 10)
        /\ Game.vy fragment = Game.vy entity * (15 / 10)
        /\ Game.shouldRemove now2 fragment = (30000 <? now2 - now)%Z).
Proof.
  cbv zeta. unfold Game.processSplitAction. split.
  - intros Hm. apply ltb_true in Hm. rewrite Hm. reflexivity.
  - intros Hm. destruct (JS.ltb (Game.mass entity) 50) eqn:E; [apply ltb_true in E; lra |].
    assert (Hhalf : 0 < Game.mass entity / 2) by lra.
    pose proof (radiusFromMass_pos _ Hhalf) as Hr.
    assert (Hne : uuidv4 (Game.uuidCalls st) <> key) by congruence.
    eexists. eexists.
    cbn [Game.entities Game.set_entities Game.set_uuidCalls].
    split_and!.
    + cbn [Game.createEntity Game.id Game.set_radius Game.cfg_id default].
      apply Map_set_absent. rewrite Map_get_set_ne by congruence. exact Hfresh.
    + cbn [Game.createEntity Game.id Game.set_radius Game.cfg_id default].
      rewrite Map_get_set_ne by exact Hne. apply Map_get_set_eq.
    + cbn [Game.createEntity Game.id Game.set_radius Game.cfg_id default].
      apply Map_get_set_eq.
    + reflexivity.
    + reflexivity.
    + exact Hr.
    + exact Hr.
    + reflexivity.
    + reflexivity.
    + reflexivity.
    + reflexivity.
    + reflexivity.
    + reflexivity.
    + reflexivity.
    + reflexivity.
    + reflexivity.
    + reflexivity.
    + unfold Game.shouldRemove. simpl.
      destruct (30000 <? now2 - now)%Z; reflexivity.
Qed.

End Progress.

Lemma server_split_halves_witness :
  exists parent fragment,
    Game.entities
      (Game.processSplitAction Scenario.someUuid 5000 "p80"
         (Scenario.serverEntity "p80" Game.Player 1000 1000 0 0 80) Scenario.gameWith80)
    = Game.Map_set "p80" parent (Game.entities Scenario.gameWith80) ++ [("0b1c", fragment)]
    /\ Game.mass parent = 80 / 2 /\ Game.mass fragment = 80 / 2.
Proof.
  assert (Hm : 50 <= Game.mass (Scenario.serverEntity "p80" Game.Player 1000 1000 0 0 80))
    by (simpl; lra).
  destruct (proj2 (server_split_halves Scenario.someUuid 5000 6000 "p80"
                     (Scenario.serverEntity "p80" Game.Player 1000 1000 0 0 80)
                     Scenario.gameWith80 eq_refl eq_refl) Hm)
    as (parent & fragment & He & _ & _ & Hp & Hf & _).
  exists parent, fragment. split; [exact He | split; [exact Hp | exact Hf]].
Defined.

(** ** What a tick reports *)

Lemma filter_entityView_length ty l :
  length (List.filter (fun v => bool_decide (Game.Payload.type v = ty))
                      (List.map Game.entityView l))
  = length (List.filter (fun e => bool_decide (Game.type e = ty)) l).
Proof.
  induction l as [| e l IH]; simpl; [reflexivity |].
  destruct (bool_decide (Game.type e = ty)); simpl; rewrite IH; reflexivity.
Qed.

Lemma cleanup_keeps_survivors now m :
  Forall (fun e => Game.shouldRemove now e = false)
         (Game.Map_values
            (List.filter (fun p => negb (Game.shouldRemove now (snd p))) m)).
Proof.
  unfold Game.Map_values. induction m as [| [k e] m IH]; simpl; [constructor |].
  destruct (Game.shouldRemove now e) eqn:E; simpl; [exact IH |].
  constructor; [exact E | exact IH].
Qed.

Lemma survivor_spec now e :
  Game.shouldRemove now e = false ->
  Game.isAlive e = true
  /\ (Game.type e = Game.Fragment ->
      forall l, Game.lifetime e = Some l -> l <> 0%Z -> (now - Game.createdAt e <= l)%Z)
  /\ (Game.type e = Game.Player ->
      Game.lastInputTime e <> 0%Z -> (now - Game.lastInputTime e <= 120000)%Z).
Proof.
  unfold Game.shouldRemove. intros H.
  apply orb_false_elim in H as [H H3]. apply orb_false_elim in H as [H1 H2].
  split_and!.
  - destruct (Game.isAlive e); [reflexivity | discriminate].
  - intros Ht l Hl Hz. rewrite Hl in H2.
    rewrite bool_decide_eq_true_2 in H2 by exact Ht. simpl in H2.
    destruct (Z.eqb_spec l 0); [contradiction |]. simpl in H2.
    apply Z.ltb_ge in H2. exact H2.
  - intros Ht Hz. rewrite bool_decide_eq_true_2 in H3 by exact Ht. simpl in H3.
    destruct (Z.eqb_spec (Game.lastInputTime e) 0); [contradiction |]. simpl in H3.
    apply Z.ltb_ge in H3. exact H3.
Qed.

Section Report.
Variable random : nat -> R.
Variable uuidv4 : nat -> string.

(** X13.  The payload a tick hands to the callback lists survivors only:
    every entry is alive, no fragment in it has outlived its lifetime and
    no player in it has been idle for more than 120000 ms; its statistics
    count the player and pellet entries of that very payload, and it
    carries the tick number the state had before the tick. *)
Theorem payload_holds_survivors {M : Type} (now : Z) (elapsed : nat -> R)
    (stepDuration : R) (cb : Game.Payload.t -> list M) (st : Game.GameState) :
  let source := Spec.beforeEmission random uuidv4 now elapsed st in
  let delta := Game.generateDelta now source in
  snd (Game.step random uuidv4 now elapsed stepDuration (Some cb) st) = cb delta
  /\ Forall (fun v => Game.Payload.isAlive v = true) (Game.Payload.entities delta)
  /\ Forall (fun e =>
               (Game.type e = Game.Fragment ->
                forall l, Game.lifetime e = Some l -> l <> 0%Z ->
                          (now - Game.createdAt e <= l)%Z)
               /\ (Game.type e = Game.Player -> Game.lastInputTime e <> 0%Z ->
                   (now - Game.lastInputTime e <= 120000)%Z))
            (Game.Map_values (Game.entities source))
  /\ Game.activePlayers (Game.Payload.stats delta)
     = length (List.filter (fun v => bool_decide (Game.Payload.type v = Game.Player))
                           (Game.Payload.entities delta))
  /\ Game.pelletsCount (Game.Payload.stats delta)
     = length (List.filter (fun v => bool_decide (Game.Payload.type v = Game.Pellet))
                           (Game.Payload.entities delta))
  /\ Game.Payload.tick delta = Game.currentTick st.
Proof.
  cbv zeta.
  destruct (step_emits random uuidv4 now elapsed stepDuration (Some cb) st) as (Hsent & _ & _).
  split; [exact Hsent |].
  pose proof (beforeEmission_currentTick random uuidv4 now elapsed st) as Htick.
  unfold Spec.beforeEmission in *.
  set (st3 := Game.processCollisions now _) in *.
  pose proof (cleanup_keeps_survivors now (Game.entities st3)) as Hs.
  unfold Game.generateDelta, Game.updateStats, Game.cleanupDeadEntities in *.
  cbn [Game.Payload.entities Game.Payload.stats Game.Payload.tick Game.entities
       Game.set_stats Game.set_entities Game.stats Game.activePlayers Game.pelletsCount
       Game.currentTick] in *.
  split_and!.
  - rewrite Forall_forall in Hs. apply Forall_forall. intros v Hv.
    apply list_elem_of_In, in_map_iff in Hv as (e & <- & He).
    apply list_elem_of_In, Hs, survivor_spec in He as [Ha _]. exact Ha.
  - eapply Forall_impl; [exact Hs |]. intros e He.
    apply survivor_spec in He as (_ & Hf & Hp). split; assumption.
  - rewrite filter_entityView_length. reflexivity.
  - rewrite filter_entityView_length. reflexivity.
  - exact Htick.
Qed.

End Report.

(** ** The entity table stays keyed by id *)

Lemma Map_get_None_keys k m : Game.Map_get k m = None -> ~ In k (List.map fst m).
Proof.
  induction m as [| [k' v] m IH]; simpl; [tauto |].
  destruct (decide (k = k')); [discriminate |].
  intros H [Hk | Hk]; [congruence | exact (IH H Hk)].
Qed.

Lemma Map_get_keyed k m e :
  Forall (fun p => Game.id (snd p) = fst p) m -> Game.Map_get k m = Some e -> Game.id e = k.
Proof.
  induction m as [| [k' v] m IH]; simpl; [discriminate |].
  intros Hm. inversion Hm as [| ? ? Hv Hm']; subst.
  destruct (decide (k = k')) as [-> |]; [intros [= <-]; exact Hv | apply IH, Hm'].
Qed.

Lemma Map_set_keys k v m :
  List.map fst (Game.Map_set k v m)
  = match Game.Map_get k m with
    | Some _ => List.map fst m
    | None => List.map fst m ++ [k]
    end.
Proof.
  induction m as [| [k' v'] m IH]; simpl; [reflexivity |].
  destruct (decide (k = k')) as [-> |]; simpl; [reflexivity |].
  rewrite IH. destruct (Game.Map_get k m); reflexivity.
Qed.

Lemma Map_set_keyed k v m :
  Spec.keyedTable m -> Game.id v = k -> Spec.keyedTable (Game.Map_set k v m).
Proof.
  intros [Hnd Hid] Hv. split.
  - rewrite Map_set_keys. destruct (Game.Map_get k m) eqn:E; [exact Hnd |].
    apply NoDup_app. split_and!; [exact Hnd | | apply NoDup_singleton].
    intros x Hx Hx'. apply list_elem_of_singleton in Hx'. rewrite Hx' in Hx.
    apply list_elem_of_In in Hx. exact (Map_get_None_keys k m E Hx).
  - clear Hnd. induction m as [| [k' v'] m IH]; simpl.
    + constructor; [exact Hv | constructor].
    + apply Forall_cons in Hid as [H1 H2].
      destruct (decide (k = k')); constructor; simpl; auto.
Qed.

Lemma integrateEntity_id deltaTime worldBounds entity :
  Game.id (Game.integrateEntity deltaTime worldBounds entity) = Game.id entity.
Proof.
  unfold Game.integrateEntity.
  destruct (decide _); [reflexivity |]. destruct (_ || _); reflexivity.
Qed.

Lemma integratePhysics_keyed st : Spec.keyed st -> Spec.keyed (Game.integratePhysics st).
Proof.
  unfold Spec.keyed, Spec.keyedTable, Game.integratePhysics. simpl. intros [Hnd Hid].
  split.
  - rewrite List.map_map. simpl. exact Hnd.
  - clear Hnd. induction (Game.entities st) as [| [k e] m IH]; simpl; [constructor |].
    inversion Hid as [| ? ? H1 H2]; subst. constructor; [| apply IH, H2].
    simpl in *. rewrite integrateEntity_id. exact H1.
Qed.

Lemma cleanupDeadEntities_keyed now st :
  Spec.keyed st -> Spec.keyed (Game.cleanupDeadEntities now st).
Proof.
  unfold Spec.keyed, Spec.keyedTable, Game.cleanupDeadEntities. simpl. intros [Hnd Hid].
  induction (Game.entities st) as [| [k e] m IH]; simpl; [auto |].
  inversion Hid as [| ? ? H1 H2]; subst. apply NoDup_cons in Hnd as [Hk Hnd].
  specialize (IH Hnd H2) as [IH1 IH2].
  destruct (negb _); simpl; [| auto].
  split; [| constructor; assumption].
  apply NoDup_cons. split; [| exact IH1].
  intros Hin. apply Hk. simpl in *.
  apply list_elem_of_In, in_map_iff in Hin as ([k' e'] & Hk' & Hin).
  apply filter_In in Hin as [Hin _]. simpl in Hk'. subst k'.
  apply list_elem_of_In, in_map_iff. exists (k, e'). auto.
Qed.

Lemma handleCollision_ids now entityA entityB :
  Game.id (fst (Game.handleCollision now entityA entityB)) = Game.id entityA
  /\ Game.id (snd (Game.handleCollision now entityA entityB)) = Game.id entityB.
Proof.
  unfold Game.handleCollision.
  destruct (Physics.canEat _ _); [auto |].
  destruct (Physics.canEat _ _); simpl; auto.
Qed.

Lemma collideAt_ids now i j es :
  List.map Game.id (Game.collideAt now i j es) = List.map Game.id es.
Proof.
  unfold Game.collideAt.
  destruct (es !! i) as [a |] eqn:Ea; [| reflexivity].
  destruct (es !! j) as [b |] eqn:Eb; [| reflexivity].
  assert (H : exists a' b', Game.resolvePair now a b = (a', b')
                            /\ Game.id a' = Game.id a /\ Game.id b' = Game.id b).
  { unfold Game.resolvePair. destruct (Physics.checkCollision _ _ _ _).
    - destruct (handleCollision_ids now a b) as [H1 H2].
      destruct (Game.handleCollision now a b) as [a' b']. eauto.
    - eauto. }
  destruct H as (a' & b' & -> & Ha & Hb).
  change (List.map Game.id) with (fmap (M := list) Game.id).
  rewrite !list_fmap_insert, Hb, Ha.
  rewrite (list_insert_id (Game.id <$> es) i (Game.id a))
    by (rewrite list_lookup_fmap, Ea; reflexivity).
  apply list_insert_id. rewrite list_lookup_fmap, Eb. reflexivity.
Qed.

Lemma zip_keys m : forall es : list Game.Entity,
  length es = length m ->
  List.map Game.id es = List.map (fun p => Game.id (snd p)) m ->
  List.map fst (zip_with (fun (p : string * Game.Entity) e => (fst p, e)) m es)
  = List.map fst m
  /\ (Forall (fun p => Game.id (snd p) = fst p) m ->
      Forall (fun p => Game.id (snd p) = fst p)
             (zip_with (fun (p : string * Game.Entity) e => (fst p, e)) m es)).
Proof.
  induction m as [| [k v] m IH]; intros [| e es] Hl Hids; simpl in *;
    try discriminate; [split; [reflexivity | constructor] |].
  injection Hids as He Hids.
  destruct (IH es ltac:(lia) Hids) as [IH1 IH2].
  split; [rewrite IH1; reflexivity |].
  intros Hm. inversion Hm as [| ? ? H1 H2]; subst.
  constructor; [simpl in *; congruence | apply IH2, H2].
Qed.

Lemma processCollisions_keyed now st :
  Spec.keyed st -> Spec.keyed (Game.processCollisions now st).
Proof.
  unfold Spec.keyed, Spec.keyedTable, Game.processCollisions. simpl. intros [Hnd Hid].
  set (es := Game.Map_values (Game.entities st)) in *.
  set (Q := fun l : list Game.Entity =>
              List.map Game.id l = List.map Game.id es /\ length l = length es).
  assert (HQ : Q (foldl (fun acc i =>
                           foldl (fun acc' j => Game.collideAt now i j acc') acc
                                 (seq (S i) (length es - S i)))
                        es (seq 0 (length es)))).
  { apply foldl_invariant; [| split; reflexivity].
    intros a i Ha. apply foldl_invariant; [| exact Ha].
    intros a' j [Ha1 Ha2]. split.
    - rewrite collideAt_ids. exact Ha1.
    - rewrite <- Ha2. rewrite <- !(length_map Game.id), collideAt_ids. reflexivity. }
  destruct HQ as [HQ1 HQ2].
  destruct (zip_keys (Game.entities st) _
              ltac:(rewrite HQ2; unfold es, Game.Map_values; apply length_map)
              ltac:(rewrite HQ1; unfold es, Game.Map_values; apply List.map_map))
    as [H1 H2].
  split; [rewrite H1; exact Hnd | apply H2, Hid].
Qed.

Section Keys.
Variable random : nat -> R.
Variable uuidv4 : nat -> string.

Lemma addPlayer_keyed now playerId st :
  Spec.keyed st -> Spec.keyed (fst (Game.addPlayer random uuidv4 now playerId st)).
Proof.
  unfold Spec.keyed, Game.addPlayer. intros H.
  destruct (Game.Map_get playerId (Game.entities st)); [exact H |].
  destruct (Game.generateRandomPosition _ _ _ _ _) as [p k].
  destruct (bool_decide (playerId = "")); simpl; apply Map_set_keyed; auto.
Qed.

Lemma processSplitAction_keyed now key entity st :
  Spec.keyed st -> Game.id entity = key ->
  Spec.keyed (Game.processSplitAction uuidv4 now key entity st).
Proof.
  unfold Spec.keyed, Game.processSplitAction. intros H Hid.
  destruct (JS.ltb (Game.mass entity) 50); [exact H |]. simpl.
  apply Map_set_keyed; [apply Map_set_keyed; [exact H | exact Hid] | reflexivity].
Qed.

Lemma processAction_keyed now action st :
  Spec.keyed st -> Spec.keyed (Game.processAction random uuidv4 now action st).
Proof.
  intros H. unfold Game.processAction.
  destruct (Game.Map_get (Game.playerId action) (Game.entities st)) as [entity |] eqn:Eg.
  - pose proof (Map_get_keyed _ _ _ (proj2 H) Eg) as Hid.
    destruct (bool_decide (Game.atype action = "input")).
    { unfold Spec.keyed. simpl. apply Map_set_keyed; [exact H |].
      unfold Game.processInputAction.
      destruct (Game.data action) as [[[d |]] |]; exact Hid. }
    destruct (bool_decide (Game.atype action = "ability")); [exact H |].
    destruct (bool_decide (Game.atype action = "split"));
      [apply processSplitAction_keyed; assumption |].
    destruct (bool_decide _); exact H.
  - destruct (_ || _); [apply addPlayer_keyed, H | exact H].
Qed.

Lemma processActionQueue_keyed now elapsed st :
  Spec.keyed st ->
  Spec.keyed (fst (Game.processActionQueue random uuidv4 now elapsed st)).
Proof.
  intros H.
  destruct (processActionQueue_state random uuidv4 now elapsed st) as (k & ->).
  unfold Spec.keyed. simpl. unfold Game.applyInOrder.
  apply (foldl_invariant _ Spec.keyed); [| exact H].
  intros a b Ha. apply processAction_keyed, Ha.
Qed.

Lemma beforeEmission_keyed now elapsed st :
  Spec.keyed st -> Spec.keyed (Spec.beforeEmission random uuidv4 now elapsed st).
Proof.
  intros H. unfold Spec.beforeEmission.
  change (Spec.keyed (Game.cleanupDeadEntities now
            (Game.processCollisions now
               (Game.integratePhysics
                  (fst (Game.processActionQueue random uuidv4 now elapsed st)))))).
  apply cleanupDeadEntities_keyed, processCollisions_keyed, integratePhysics_keyed,
    processActionQueue_keyed, H.
Qed.

Lemma react_keyed {M : Type} ev (g : Game.GameInstance M) :
  Spec.keyed (Game.gameState g) ->
  Spec.keyed (Game.gameState (fst (Game.react random uuidv4 ev g))).
Proof.
  intros H. destruct ev as [t a | t pid | t el dur]; simpl.
  - unfold Game.enqueueAction. destruct (_ || _); exact H.
  - apply addPlayer_keyed, H.
  - destruct (Game.gameLoopInterval g); [| exact H].
    destruct (step_emits random uuidv4 t el dur (Game.onUpdateCallback g) (Game.gameState g))
      as (_ & He & _).
    pose proof (beforeEmission_keyed t el (Game.gameState g) H) as Hb.
    destruct (Game.step _ _ _ _ _ _ _) as [[st' w] out]. simpl in *.
    unfold Spec.keyed in *. rewrite He. exact Hb.
Qed.

Lemma payload_ids m :
  List.map Game.Payload.id (List.map Game.entityView (Game.Map_values m))
  = List.map (fun p => Game.id (snd p)) m.
Proof.
  unfold Game.Map_values. rewrite !List.map_map. reflexivity.
Qed.

(** X14.  The entity table stays keyed by id: if no key occurs twice and
    every entity is stored under its own id, the same holds after every
    run of arrivals, joins and ticks, and no payload built on a tick lists
    an id twice. *)
Theorem entity_ids_stay_distinct {M : Type} (evs : list Game.Event) (g : Game.GameInstance M)
    (Hkeyed : Spec.keyed (Game.gameState g)) :
  Spec.keyed (Game.gameState (fst (Game.run random uuidv4 evs g)))
  /\ (forall now elapsed,
        NoDup (List.map Game.Payload.id
                 (Game.Payload.entities
                    (Game.generateDelta now
                       (Spec.beforeEmission random uuidv4 now elapsed (Game.gameState g)))))).
Proof.
  split.
  - revert g Hkeyed. induction evs as [| ev evs IH]; intros g H; simpl; [exact H |].
    pose proof (react_keyed ev g H) as H1.
    destruct (Game.react random uuidv4 ev g) as [g1 out].
    specialize (IH g1 H1).
    destruct (Game.run random uuidv4 evs g1) as [g2 rest]. exact IH.
  - intros now elapsed.
    destruct (beforeEmission_keyed now elapsed (Game.gameState g) Hkeyed) as [Hnd Hid].
    unfold Game.generateDelta. cbn [Game.Payload.entities].
    rewrite payload_ids.
    replace (List.map (fun p => Game.id (snd p)) _)
      with (List.map fst
              (Game.entities
                 (Spec.beforeEmission random uuidv4 now elapsed (Game.gameState g))));
      [exact Hnd |].
    apply map_ext_Forall. eapply Forall_impl; [exact Hid |].
    intros p Hp. symmetry. exact Hp.
Qed.

End Keys.

Lemma entity_ids_stay_distinct_witness :
  Spec.keyed
    (Game.gameState
       (fst (Game.run Scenario.someRandom Scenario.someUuid
                      Scenario.threeEvents Scenario.startedGame))).
Proof.
  apply (entity_ids_stay_distinct Scenario.someRandom Scenario.someUuid).
  split; [apply NoDup_nil; exact I | constructor].
Defined.

(** ** Rate limiting *)

(** X15.  [checkRateLimit] accepts a message exactly when the player is
    not blocked and fewer than the limit of accepted messages lie within
    the last second; an accepted message is recorded, and the record then
    holds at most the limit of messages, all of them less than a second
    old.  When an unblocked player is refused, every call in the 3000 ms
    that follow is refused too and changes nothing.  The records of other
    players are never touched. *)
Theorem rate_limit_window_and_block (maxMsgsPerSecond now : Z) (playerId : string)
    (rateLimits : gmap string Server.RateLimit) :
  let r := Server.checkRateLimit maxMsgsPerSecond now playerId rateLimits in
  let before := default (Server.mkRateLimit [] 0) (rateLimits !! playerId) in
  let inWindow :=
    List.filter (fun ts => (now - ts <? 1000)%Z) (Server.messages before) in
  (snd r = true <->
     (Server.blockedUntil before <= now)%Z
     /\ (Z.of_nat (length inWindow) < maxMsgsPerSecond)%Z)
  /\ (snd r = true ->
      exists after,
        fst r !! playerId = Some after
        /\ Server.messages after = inWindow ++ [now]
        /\ (Z.of_nat (length (Server.messages after)) <= maxMsgsPerSecond)%Z
        /\ Forall (fun ts => (now - ts < 1000)%Z) (Server.messages after))
  /\ ((Server.blockedUntil before <= now)%Z -> snd r = false ->
      forall now2, (now2 < now + 3000)%Z ->
        Server.checkRateLimit maxMsgsPerSecond now2 playerId (fst r) = (fst r, false))
  /\ (forall other, other <> playerId -> fst r !! other = rateLimits !! other).
Proof.
  cbv zeta.
  assert (Hr : Server.checkRateLimit maxMsgsPerSecond now playerId rateLimits
               = Server.checkRateLimit maxMsgsPerSecond now playerId rateLimits)
    by reflexivity.
  unfold Server.checkRateLimit at 2 in Hr. cbv zeta in Hr. rewrite Hr. clear Hr.
  set (before := default (Server.mkRateLimit [] 0) (rateLimits !! playerId)).
  set (kept := List.filter (fun ts => (now - ts <? 1000)%Z) (Server.messages before)).
  destruct (Z.ltb_spec now (Server.blockedUntil before)) as [Hb | Hb].
  { cbn [fst snd]. split_and!.
    - split; [discriminate | lia].
    - discriminate.
    - lia.
    - intros other Hne. apply lookup_insert_ne. congruence. }
  destruct (Z.leb_spec maxMsgsPerSecond (Z.of_nat (length kept))) as [Hfull | Hroom];
    cbn [fst snd].
  - split_and!.
    + split; [discriminate | lia].
    + discriminate.
    + intros _ _ now2 Hnow2. unfold Server.checkRateLimit.
      rewrite lookup_insert_eq. unfold default, Datatypes.id.
      cbn [Server.blockedUntil].
      destruct (Z.ltb_spec now2 (now + 3000)) as [_ | Hge]; [| lia].
      rewrite insert_insert_eq. reflexivity.
    + intros other Hne. apply lookup_insert_ne. congruence.
  - split_and!.
    + split; [intros _; split; lia | reflexivity].
    + intros _. eexists. split; [apply lookup_insert_eq |].
      cbn [Server.messages]. split; [reflexivity |].
      split; [rewrite length_app; simpl; lia |].
      apply Forall_app. split.
      * apply Forall_forall. intros ts Hts.
        apply list_elem_of_In, filter_In in Hts as [_ Hts].
        apply Z.ltb_lt in Hts. exact Hts.
      * constructor; [lia | constructor].
    + intros _ Hfalse. discriminate.
    + intros other Hne. apply lookup_insert_ne. congruence.
Qed.

(** ** The mass validator and eating *)

(** X16.  [isValidMassChange] accepts the mass gain of an eating exactly
    when the mass of the prey is at most 100 times the time step: with
    the tick length 0.1 of the default game it refuses the eating of
    every prey heavier than 10. *)
Theorem mass_validator_on_eating (now : Z) (entityA entityB : Game.Entity) (deltaTime : R)
    (HB : 0 <= Game.mass entityB)
    (Heat : Physics.canEat (Game.mass entityA) (Game.mass entityB) = true) :
  let predator := fst (Game.handleCollision now entityA entityB) in
  (Physics.PhysicsValidator.isValidMassChange (Game.mass entityA) (Game.mass predator)
     deltaTime = true
   <-> Game.mass entityB <= 100 * deltaTime)
  /\ (10 < Game.mass entityB ->
      Physics.PhysicsValidator.isValidMassChange (Game.mass entityA) (Game.mass predator)
        (Game.deltaTime Game.defaultGame) = false).
Proof.
  cbv zeta. unfold Game.handleCollision. rewrite Heat.
  destruct (transferMass_spec now entityA entityB) as (Hm & _). cbv zeta in Hm.
  rewrite Hm. unfold Physics.PhysicsValidator.isValidMassChange.
  replace (Game.mass entityA + Game.mass entityB - Game.mass entityA)
    with (Game.mass entityB) by ring.
  rewrite Rabs_right by lra. split.
  - apply leb_true.
  - intros H. apply leb_false. simpl. lra.
Qed.

Lemma mass_validator_on_eating_witness :
  Physics.PhysicsValidator.isValidMassChange (Game.mass Scenario.big)
    (Game.mass (fst (Game.handleCollision 1000 Scenario.big Scenario.small)))
    (Game.deltaTime Game.defaultGame) = false.
Proof.
  assert (HB : 0 <= Game.mass Scenario.small) by (simpl; lra).
  apply (proj2 (mass_validator_on_eating 1000 Scenario.big Scenario.small 1 HB
                  canEat_big_small)).
  simpl. lra.
Defined.

(** ** Area queries of the grid *)

Lemma areaEntities_spec g minX minY maxX maxY i :
  i ∈ SpatialHashGrid.areaEntities g minX minY maxX maxY <->
  exists c cell, c ∈ SpatialHashGrid.areaCells g minX minY maxX maxY
                 /\ SpatialHashGrid.grid g !! c = Some cell
                 /\ i ∈ SpatialHashGrid.entities cell.
Proof.
  unfold SpatialHashGrid.areaEntities.
  assert (Hgen : forall cells (acc : gset string),
    i ∈ foldl (fun acc cellKey =>
                 match SpatialHashGrid.grid g !! cellKey with
                 | Some cell => acc ∪ SpatialHashGrid.entities cell
                 | None => acc
                 end) acc cells
    <-> i ∈ acc
        \/ (exists c cell, c ∈ cells /\ SpatialHashGrid.grid g !! c = Some cell
                           /\ i ∈ SpatialHashGrid.entities cell)).
  { induction cells as [| c cells IH]; intros acc; simpl.
    - split; [auto |]. intros [H | (c & cell & Hc & _)]; [exact H | inversion Hc].
    - rewrite IH. split.
      + intros [H | (c' & cell & Hc' & Hl & Hi)].
        * destruct (SpatialHashGrid.grid g !! c) as [cell |] eqn:El; [| auto].
          apply elem_of_union in H as [H | H]; [auto |].
          right. exists c, cell. split; [left | auto].
        * right. exists c', cell. split; [right; exact Hc' | auto].
      + intros [H | (c' & cell & Hc' & Hl & Hi)].
        * left. destruct (SpatialHashGrid.grid g !! c); [| exact H].
          apply elem_of_union. left. exact H.
        * apply elem_of_cons in Hc' as [-> | Hc'].
          -- left. rewrite Hl. apply elem_of_union. right. exact Hi.
          -- right. exists c', cell. auto. }
  rewrite Hgen. split.
  - intros [H | H]; [apply not_elem_of_empty in H; contradiction | exact H].
  - intros H. right. exact H.
Qed.

Lemma hasEntitiesNear_spec g position radius :
  SpatialHashGrid.hasEntitiesNear g position radius = true <->
  exists c cell i,
    c ∈ SpatialHashGrid.areaCells g
          (Client.x position - radius) (Client.y position - radius)
          (Client.x position + radius) (Client.y position + radius)
    /\ SpatialHashGrid.grid g !! c = Some cell
    /\ i ∈ SpatialHashGrid.entities cell.
Proof.
  unfold SpatialHashGrid.hasEntitiesNear. cbv zeta. rewrite existsb_exists.
  change (SpatialHashGrid.getEntityCells g
            (Client.mkEntity "temp" position (Client.mkVector2D 0 0) 1 radius Client.Pellet))
    with (SpatialHashGrid.areaCells g
            (Client.x position - radius) (Client.y position - radius)
            (Client.x position + radius) (Client.y position + radius)).
  split.
  - intros (c & Hc & H). apply list_elem_of_In in Hc.
    destruct (SpatialHashGrid.grid g !! c) as [cell |] eqn:El; [| discriminate].
    destruct (decide (SpatialHashGrid.entities cell = ∅)) as [He | He].
    { rewrite He, size_empty in H. discriminate. }
    apply set_choose_L in He as [i Hi]. exists c, cell, i. auto.
  - intros (c & cell & i & Hc & Hl & Hi). exists c.
    split; [apply list_elem_of_In, Hc |]. rewrite Hl.
    destruct (Nat.eqb_spec (size (SpatialHashGrid.entities cell)) 0) as [Hs | Hs];
      [| reflexivity].
    apply size_empty_iff in Hs. exfalso.
    exact (proj1 (elem_of_equiv_empty _) Hs i Hi).
Qed.

(** X17.  [query(entity)] returns exactly the ids that [queryArea] returns
    for the bounding box of the entity, without the entity's own id; and
    [hasEntitiesNear(position, radius)] is true exactly when [queryArea]
    returns some id for the bounding box of that circle. *)
Theorem query_is_queryArea_of_box (g : SpatialHashGrid.t) (e : Client.Entity)
    (position : Client.Vector2D) (radius : R) :
  (forall i,
     i ∈ SpatialHashGrid.query g e <->
     i ∈ SpatialHashGrid.queryArea g
           (Client.x (Client.position e) - Client.radius e)
           (Client.y (Client.position e) - Client.radius e)
           (Client.x (Client.position e) + Client.radius e)
           (Client.y (Client.position e) + Client.radius e)
     /\ i <> Client.id e)
  /\ (SpatialHashGrid.hasEntitiesNear g position radius = true <->
      exists i, i ∈ SpatialHashGrid.queryArea g
                      (Client.x position - radius) (Client.y position - radius)
                      (Client.x position + radius) (Client.y position + radius)).
Proof.
  split.
  - intros i. unfold SpatialHashGrid.query, SpatialHashGrid.queryArea.
    rewrite !elem_of_elements, nearbyEntities_spec, areaEntities_spec.
    change (SpatialHashGrid.areaCells g _ _ _ _)
      with (SpatialHashGrid.getEntityCells g e).
    tauto.
  - rewrite hasEntitiesNear_spec. unfold SpatialHashGrid.queryArea. split.
    + intros (c & cell & i & H). exists i.
      rewrite elem_of_elements, areaEntities_spec. eauto.
    + intros (i & Hi). rewrite elem_of_elements, areaEntities_spec in Hi.
      destruct Hi as (c & cell & H). eauto.
Qed.

(** X18.  [hasEntitiesNear] does not miss an entity: with a positive cell
    size and a grid in sync with a set of entities, it answers true for
    every circle that overlaps one of them. *)
Theorem hasEntitiesNear_sees_overlap
    (g : SpatialHashGrid.t) (es : list Client.Entity) (o : Client.Entity)
    (position : Client.Vector2D) (radius : R)
    (Hcs : 0 < SpatialHashGrid.cellSize g)
    (Hsync : Spec.inSync g es)
    (Ho : o ∈ es)
    (Hr : 0 <= radius) (Hro : 0 <= Client.radius o)
    (Hov : sqrt ((Client.x position - Client.x (Client.position o))
                 * (Client.x position - Client.x (Client.position o))
                 + (Client.y position - Client.y (Client.position o))
                   * (Client.y position - Client.y (Client.position o)))
           < radius + Client.radius o) :
  SpatialHashGrid.hasEntitiesNear g position radius = true.
Proof.
  set (probe := Client.mkEntity "temp" position (Client.mkVector2D 0 0) 1 radius
                                Client.Pellet).
  assert (Hc : PhysicsEngine.checkCollision probe o = true)
    by (apply client_checkCollision_distance; exact Hov).
  destruct (overlap_shares_cell g probe o Hcs Hr Hro Hc) as (c & Hc1 & Hc2).
  destruct (Hsync o Ho c Hc2) as (cell & Hl & Hi).
  apply hasEntitiesNear_spec. exists c, cell, (Client.id o). auto.
Qed.

Lemma hasEntitiesNear_sees_overlap_witness :
  SpatialHashGrid.hasEntitiesNear
    (SpatialHashGrid.rebuild [Scenario.clientPlayer; Scenario.clientPellet]
                             (SpatialHashGrid.create 150))
    (Client.mkVector2D 500 500) 1 = true.
Proof.
  destruct clientPair_overlap as (_ & _ & Hq & _).
  apply (hasEntitiesNear_sees_overlap _ [Scenario.clientPlayer; Scenario.clientPellet]
           Scenario.clientPellet).
  - simpl. lra.
  - apply rebuild_inSync.
  - right. left.
  - lra.
  - exact Hq.
  - simpl. replace ((500 - 500) * (500 - 500) + (500 - 500) * (500 - 500)) with 0 by lra.
    rewrite sqrt_0. simpl in Hq. lra.
Defined.

(** ** What the grid remembers *)

Lemma removeFromCell_keeps i gr c0 c cell x :
  gr !! c = Some cell -> x ∈ SpatialHashGrid.entities cell -> x <> i ->
  exists cell', SpatialHashGrid.removeFromCell i gr c0 !! c = Some cell'
                /\ x ∈ SpatialHashGrid.entities cell'.
Proof.
  intros Hl Hx Hne. unfold SpatialHashGrid.removeFromCell.
  assert (Hrem : x ∈ SpatialHashGrid.entities cell ∖ {[i]}).
  { apply elem_of_difference. split; [exact Hx |].
    intros Hs. apply elem_of_singleton in Hs. contradiction. }
  destruct (decide (c0 = c)) as [-> | Hc].
  - rewrite Hl. cbv zeta. destruct (decide _) as [Hs | Hs].
    + apply size_empty_iff in Hs. exfalso.
      exact (proj1 (elem_of_equiv_empty _) Hs x Hrem).
    + rewrite lookup_insert_eq. eexists. split; [reflexivity | exact Hrem].
  - destruct (gr !! c0) as [cell0 |]; [| eauto]. cbv zeta.
    destruct (decide _);
      [rewrite lookup_delete_ne by exact Hc | rewrite lookup_insert_ne by exact Hc]; eauto.
Qed.

Lemma foldl_removeFromCell_keeps i cells : forall gr c cell x,
  gr !! c = Some cell -> x ∈ SpatialHashGrid.entities cell -> x <> i ->
  exists cell', foldl (SpatialHashGrid.removeFromCell i) gr cells !! c = Some cell'
                /\ x ∈ SpatialHashGrid.entities cell'.
Proof.
  induction cells as [| c0 cells IH]; intros gr c cell x Hl Hx Hne; simpl; [eauto |].
  destruct (removeFromCell_keeps i gr c0 c cell x Hl Hx Hne) as (cell1 & Hl1 & Hx1).
  eapply IH; eauto.
Qed.

Lemma update_keeps e g c cell x :
  SpatialHashGrid.grid g !! c = Some cell -> x ∈ SpatialHashGrid.entities cell ->
  x <> Client.id e ->
  (exists cell', SpatialHashGrid.grid (SpatialHashGrid.update e g) !! c = Some cell'
                 /\ x ∈ SpatialHashGrid.entities cell')
  /\ SpatialHashGrid.entityCells (SpatialHashGrid.update e g) !! x
     = SpatialHashGrid.entityCells g !! x.
Proof.
  intros Hl Hx Hne. unfold SpatialHashGrid.update, SpatialHashGrid.insert,
    SpatialHashGrid.remove. cbn [SpatialHashGrid.grid SpatialHashGrid.entityCells]. split.
  - destruct (foldl_removeFromCell_keeps (Client.id e)
                (default [] (SpatialHashGrid.entityCells g !! Client.id e))
                (SpatialHashGrid.grid g) c cell x Hl Hx Hne) as (cell1 & Hl1 & Hx1).
    eapply foldl_insertInCell_keeps; eauto.
  - rewrite lookup_insert_ne by congruence. apply lookup_delete_ne. congruence.
Qed.

(** X19.  Eating leaves the prey in the grid.  After a successful
    [processEatingCollision] the prey is gone from the entity table, but
    every cell that listed its id still lists it and the grid still
    records its cells: a [query] that returned the id before returns it
    afterwards.  (The predator is taken not to carry the prey's id.) *)
Theorem eaten_prey_stays_in_grid (predatorId preyId : string) (pe : PhysicsEngine.t)
    (predator : Client.Entity)
    (Hpred : PhysicsEngine.entities pe !! predatorId = Some predator)
    (Hid : Client.id predator <> preyId)
    (Heat : snd (PhysicsEngine.processEatingCollision predatorId preyId pe) = true) :
  let pe' := fst (PhysicsEngine.processEatingCollision predatorId preyId pe) in
  PhysicsEngine.getEntity preyId pe' = None
  /\ (forall c cell,
        SpatialHashGrid.grid (PhysicsEngine.spatialGrid pe) !! c = Some cell ->
        preyId ∈ SpatialHashGrid.entities cell ->
        exists cell',
          SpatialHashGrid.grid (PhysicsEngine.spatialGrid pe') !! c = Some cell'
          /\ preyId ∈ SpatialHashGrid.entities cell')
  /\ SpatialHashGrid.entityCells (PhysicsEngine.spatialGrid pe') !! preyId
     = SpatialHashGrid.entityCells (PhysicsEngine.spatialGrid pe) !! preyId
  /\ (forall e,
        preyId ∈ SpatialHashGrid.query (PhysicsEngine.spatialGrid pe) e ->
        preyId ∈ SpatialHashGrid.query (PhysicsEngine.spatialGrid pe') e).
Proof.
  cbv zeta.
  apply processEatingCollision_true in Heat as (p & prey & Hp & Hq & Hr & Hc).
  rewrite Hpred in Hp. injection Hp as <-.
  assert (Hgrid : exists e',
            Client.id e' = Client.id predator
            /\ PhysicsEngine.spatialGrid
                 (fst (PhysicsEngine.processEatingCollision predatorId preyId pe))
               = SpatialHashGrid.update e' (PhysicsEngine.spatialGrid pe)).
  { unfold PhysicsEngine.processEatingCollision. rewrite Hpred, Hq.
    destruct (JS.leb _ _) eqn:E; [apply leb_true in E; lra |].
    rewrite Hc. unfold PhysicsEngine.updateEntityMass. rewrite Hpred.
    eexists. split; [| reflexivity]. reflexivity. }
  destruct Hgrid as (e' & He' & Hg).
  assert (Hkeep : forall c cell,
            SpatialHashGrid.grid (PhysicsEngine.spatialGrid pe) !! c = Some cell ->
            preyId ∈ SpatialHashGrid.entities cell ->
            exists cell',
              SpatialHashGrid.grid
                (PhysicsEngine.spatialGrid
                   (fst (PhysicsEngine.processEatingCollision predatorId preyId pe))) !! c
              = Some cell'
              /\ preyId ∈ SpatialHashGrid.entities cell').
  { intros c cell Hl Hi. rewrite Hg.
    apply (update_keeps e' _ c cell preyId Hl Hi). congruence. }
  split_and!.
  - unfold PhysicsEngine.getEntity.
    rewrite (processEatingCollision_eats _ _ _ _ _ Hpred Hq Hr Hc).
    apply lookup_delete_eq.
  - exact Hkeep.
  - rewrite Hg. unfold SpatialHashGrid.update, SpatialHashGrid.insert, SpatialHashGrid.remove.
    cbn [SpatialHashGrid.entityCells].
    rewrite lookup_insert_ne by congruence. apply lookup_delete_ne. congruence.
  - intros e. unfold SpatialHashGrid.query. rewrite !elem_of_elements, !nearbyEntities_spec.
    intros (Hne & c & cell & Hcell & Hl & Hi).
    split; [exact Hne |].
    destruct (Hkeep c cell Hl Hi) as (cell' & Hl' & Hi').
    exists c, cell'. split; [| auto].
    rewrite Hg. exact Hcell.
Qed.

Lemma eaten_prey_stays_in_grid_witness :
  let pe' := fst (PhysicsEngine.processEatingCollision "player" "pellet" Scenario.clientPair) in
  PhysicsEngine.getEntity "pellet" pe' = None
  /\ SpatialHashGrid.entityCells (PhysicsEngine.spatialGrid pe') !! "pellet"
     = SpatialHashGrid.entityCells (PhysicsEngine.spatialGrid Scenario.clientPair) !! "pellet".
Proof.
  destruct clientPair_lookup as [Hp Hq].
  destruct clientPair_overlap as (Hr & _ & _ & Hc).
  assert (Heat : snd (PhysicsEngine.processEatingCollision "player" "pellet"
                        Scenario.clientPair) = true).
  { apply processEatingCollision_true. eauto 6. }
  assert (Hid : Client.id Scenario.clientPlayer <> "pellet") by discriminate.
  destruct (eaten_prey_stays_in_grid "player" "pellet" Scenario.clientPair
              Scenario.clientPlayer Hp Hid Heat) as (H1 & _ & H3 & _).
  split; assumption.
Defined.

Lemma removeFromCell_source i gr c0 c cell' :
  SpatialHashGrid.removeFromCell i gr c0 !! c = Some cell' ->
  exists cell,
    gr !! c = Some cell
    /\ (forall x, x ∈ SpatialHashGrid.entities cell' -> x ∈ SpatialHashGrid.entities cell)
    /\ (c = c0 -> i ∉ SpatialHashGrid.entities cell').
Proof.
  unfold SpatialHashGrid.removeFromCell.
  destruct (gr !! c0) as [cell0 |] eqn:E0; cbv zeta.
  - destruct (decide _) as [Hs | Hs]; intros Hl.
    + apply lookup_delete_Some in Hl as [Hne Hl].
      exists cell'. split; [exact Hl |]. split; [auto | congruence].
    + destruct (decide (c0 = c)) as [-> | Hne].
      * rewrite lookup_insert_eq in Hl. injection Hl as <-. exists cell0.
        split; [exact E0 |]. simpl. split.
        -- intros x Hx. apply elem_of_difference in Hx as [Hx _]. exact Hx.
        -- intros _ Hx. apply elem_of_difference in Hx as [_ Hx].
           apply Hx, elem_of_singleton. reflexivity.
      * rewrite lookup_insert_ne in Hl by exact Hne.
        exists cell'. split; [exact Hl |]. split; [auto | congruence].
  - intros Hl. exists cell'. split; [exact Hl |]. split; [auto |].
    intros ->. congruence.
Qed.

Lemma foldl_removeFromCell_source i cells : forall gr c cell',
  foldl (SpatialHashGrid.removeFromCell i) gr cells !! c = Some cell' ->
  exists cell,
    gr !! c = Some cell
    /\ (forall x, x ∈ SpatialHashGrid.entities cell' -> x ∈ SpatialHashGrid.entities cell)
    /\ (c ∈ cells -> i ∉ SpatialHashGrid.entities cell').
Proof.
  induction cells as [| c0 cells IH]; intros gr c cell' Hl; simpl in Hl.
  - exists cell'. split; [exact Hl |]. split; [auto |]. intros H. inversion H.
  - destruct (IH _ _ _ Hl) as (cell1 & Hl1 & Hsub1 & Hin1).
    destruct (removeFromCell_source i gr c0 c cell1 Hl1) as (cell & Hl0 & Hsub0 & Hin0).
    exists cell. split; [exact Hl0 |]. split; [auto |].
    intros Hc. apply elem_of_cons in Hc as [-> | Hc]; [| auto].
    intros Hi. apply (Hin0 eq_refl), Hsub1, Hi.
Qed.

Lemma foldl_insertInCell_source i cells : forall gr c cell' x,
  foldl (SpatialHashGrid.insertInCell i) gr cells !! c = Some cell' ->
  x ∈ SpatialHashGrid.entities cell' ->
  (x = i /\ c ∈ cells)
  \/ (exists cell, gr !! c = Some cell /\ x ∈ SpatialHashGrid.entities cell).
Proof.
  induction cells as [| c0 cells IH]; intros gr c cell' x Hl Hx; simpl in Hl; [eauto |].
  destruct (IH _ _ _ _ Hl Hx) as [[-> Hc] | (cell1 & Hl1 & Hx1)].
  { left. split; [reflexivity | right; exact Hc]. }
  unfold SpatialHashGrid.insertInCell in Hl1.
  destruct (decide (c0 = c)) as [-> | Hne].
  - rewrite lookup_insert_eq in Hl1. injection Hl1 as <-. simpl in Hx1.
    apply elem_of_union in Hx1 as [Hx1 | Hx1].
    + apply elem_of_singleton in Hx1. left. split; [exact Hx1 | left].
    + destruct (gr !! c) as [cell |] eqn:E; [eauto |].
      simpl in Hx1. apply not_elem_of_empty in Hx1. contradiction.
  - rewrite lookup_insert_ne in Hl1 by exact Hne. eauto.
Qed.

Lemma remove_clean i g c cell :
  Spec.tracked g ->
  SpatialHashGrid.grid (SpatialHashGrid.remove i g) !! c = Some cell ->
  i ∉ SpatialHashGrid.entities cell.
Proof.
  intros Htr Hl Hi. unfold SpatialHashGrid.remove in Hl. cbn [SpatialHashGrid.grid] in Hl.
  destruct (foldl_removeFromCell_source _ _ _ _ _ Hl) as (cell0 & Hl0 & Hsub & Hin).
  apply Hin; [| exact Hi]. apply (Htr i c cell0 Hl0), Hsub, Hi.
Qed.

Lemma remove_tracked i g : Spec.tracked g -> Spec.tracked (SpatialHashGrid.remove i g).
Proof.
  intros Htr j c cell Hl Hj.
  destruct (decide (j = i)) as [-> | Hne].
  { exfalso. exact (remove_clean i g c cell Htr Hl Hj). }
  unfold SpatialHashGrid.remove in *.
  cbn [SpatialHashGrid.grid SpatialHashGrid.entityCells] in *.
  destruct (foldl_removeFromCell_source _ _ _ _ _ Hl) as (cell0 & Hl0 & Hsub & _).
  rewrite lookup_delete_ne by congruence. apply (Htr j c cell0 Hl0), Hsub, Hj.
Qed.

Lemma insert_tracked e g :
  Spec.tracked g ->
  (forall c cell, SpatialHashGrid.grid g !! c = Some cell ->
                  Client.id e ∉ SpatialHashGrid.entities cell) ->
  Spec.tracked (SpatialHashGrid.insert e g).
Proof.
  intros Htr Hfresh j c cell Hl Hj.
  unfold SpatialHashGrid.insert in *.
  cbn [SpatialHashGrid.grid SpatialHashGrid.entityCells] in *.
  destruct (foldl_insertInCell_source _ _ _ _ _ _ Hl Hj) as [[-> Hc] | (cell0 & Hl0 & Hj0)].
  - rewrite lookup_insert_eq. exact Hc.
  - destruct (decide (j = Client.id e)) as [-> | Hne].
    + exfalso. exact (Hfresh c cell0 Hl0 Hj0).
    + rewrite lookup_insert_ne by congruence. exact (Htr j c cell0 Hl0 Hj0).
Qed.

Lemma update_tracked e g : Spec.tracked g -> Spec.tracked (SpatialHashGrid.update e g).
Proof.
  intros Htr. unfold SpatialHashGrid.update.
  apply insert_tracked; [apply remove_tracked, Htr |].
  intros c cell. apply remove_clean, Htr.
Qed.

(** X20.  [removeEntity] leaves no trace.  If the grid keeps track of its
    entries, then after [removeEntity(id)] the entity is gone from the
    table, no cell lists its id, no [query] returns it and the grid still
    keeps track of its entries; [updateEntityMass], which re-inserts the
    entity, and the creation of an entity whose id no cell lists keep
    that property as well. *)
Theorem removed_entity_leaves_grid (id : string) (pe : PhysicsEngine.t)
    (Htracked : Spec.tracked (PhysicsEngine.spatialGrid pe)) :
  let pe' := PhysicsEngine.removeEntity id pe in
  PhysicsEngine.getEntity id pe' = None
  /\ (forall c cell,
        SpatialHashGrid.grid (PhysicsEngine.spatialGrid pe') !! c = Some cell ->
        id ∉ SpatialHashGrid.entities cell)
  /\ (forall probe, id ∉ SpatialHashGrid.query (PhysicsEngine.spatialGrid pe') probe)
  /\ Spec.tracked (PhysicsEngine.spatialGrid pe')
  /\ (forall entityId newMass,
        Spec.tracked
          (PhysicsEngine.spatialGrid (PhysicsEngine.updateEntityMass entityId newMass pe)))
  /\ (forall newId type mass position,
        (forall c cell,
           SpatialHashGrid.grid (PhysicsEngine.spatialGrid pe) !! c = Some cell ->
           newId ∉ SpatialHashGrid.entities cell) ->
        Spec.tracked
          (PhysicsEngine.spatialGrid
             (fst (PhysicsEngine.createEntity newId type mass position pe)))).
Proof.
  cbv zeta. unfold PhysicsEngine.removeEntity. cbn [PhysicsEngine.spatialGrid].
  split_and!.
  - unfold PhysicsEngine.getEntity. cbn [PhysicsEngine.entities]. apply lookup_delete_eq.
  - intros c cell. apply remove_clean, Htracked.
  - intros probe Hq. unfold SpatialHashGrid.query in Hq.
    rewrite elem_of_elements, nearbyEntities_spec in Hq.
    destruct Hq as (_ & c & cell & _ & Hl & Hi).
    exact (remove_clean id _ c cell Htracked Hl Hi).
  - apply remove_tracked, Htracked.
  - intros entityId newMass. unfold PhysicsEngine.updateEntityMass.
    destruct (PhysicsEngine.entities pe !! entityId); [| exact Htracked].
    cbn [PhysicsEngine.spatialGrid]. apply update_tracked, Htracked.
  - intros newId type mass position Hfresh. unfold PhysicsEngine.createEntity.
    cbn [fst PhysicsEngine.spatialGrid]. apply insert_tracked; [exact Htracked |].
    exact Hfresh.
Qed.

Lemma removed_entity_leaves_grid_witness :
  "player" ∉ SpatialHashGrid.query
               (PhysicsEngine.spatialGrid
                  (PhysicsEngine.removeEntity "player"
                     (SplitMergeSystem.physicsEngine Scenario.splitter)))
               Scenario.clientPellet.
Proof.
  assert (Htr : Spec.tracked
                  (PhysicsEngine.spatialGrid
                     (SplitMergeSystem.physicsEngine Scenario.splitter))).
  { apply insert_tracked.
    - intros i c cell Hl. simpl in Hl. rewrite lookup_empty in Hl. discriminate.
    - intros c cell Hl. simpl in Hl. rewrite lookup_empty in Hl. discriminate. }
  exact (proj1 (proj2 (proj2 (removed_entity_leaves_grid "player" _ Htr)))
               Scenario.clientPellet).
Defined.

(** ** Merging *)

Lemma mergeCells_entities parentId splitId s parent split :
  parentId <> splitId ->
  PhysicsEngine.getEntity parentId (SplitMergeSystem.physicsEngine s) = Some parent ->
  PhysicsEngine.getEntity splitId (SplitMergeSystem.physicsEngine s) = Some split ->
  let totalMass := Client.mass parent + Client.mass split in
  let newPosition :=
    Client.mkVector2D
      ((Client.x (Client.position parent) * Client.mass parent
        + Client.x (Client.position split) * Client.mass split) / totalMass)
      ((Client.y (Client.position parent) * Client.mass parent
        + Client.y (Client.position split) * Client.mass split) / totalMass) in
  PhysicsEngine.entities
    (SplitMergeSystem.physicsEngine (SplitMergeSystem.mergeCells parentId splitId s))
  = delete splitId
      (<[parentId := Client.mkEntity (Client.id parent) newPosition (Client.velocity parent)
                       totalMass (PhysicsEngine.calculateRadius totalMass)
                       (Client.type parent)]>
         (PhysicsEngine.entities (SplitMergeSystem.physicsEngine s))).
Proof.
  intros Hne Hp Hs. cbv zeta. unfold SplitMergeSystem.mergeCells. rewrite Hp, Hs.
  rewrite removePlayerSplit_engine. cbn [SplitMergeSystem.physicsEngine].
  unfold PhysicsEngine.removeEntity. cbn [PhysicsEngine.entities].
  unfold PhysicsEngine.getEntity in Hp.
  rewrite (updateEntityMass_entities _ _ _ _ Hp), lookup_insert_eq, insert_insert_eq.
  reflexivity.
Qed.

Lemma weighted_mean_between a b p q :
  0 < p -> 0 < q -> Rmin a b <= (a * p + b * q) / (p + q) <= Rmax a b.
Proof.
  intros Hp Hq.
  assert (Ht : (a * p + b * q) / (p + q) * (p + q) = a * p + b * q) by (field; lra).
  set (t := (a * p + b * q) / (p + q)) in *.
  split; apply (Rmult_le_reg_r (p + q)); try lra; rewrite Ht.
  - unfold Rmin. destruct (Rle_dec a b); nra.
  - unfold Rmax. destruct (Rle_dec a b); nra.
Qed.

(** X21.  [mergeCells] on two different cells of positive mass: the split
    cell leaves the entity table, the parent gets the sum of both masses
    with the radius of that sum, keeps its velocity, and moves to the
    centre of mass of the two, which lies between them; every other
    entity, the configuration and the split times stay as they are. *)
Theorem merge_conserves_mass (parentId splitId : string) (s : SplitMergeSystem.t)
    (parent split : Client.Entity)
    (Hne : parentId <> splitId)
    (Hparent : PhysicsEngine.getEntity parentId (SplitMergeSystem.physicsEngine s)
               = Some parent)
    (Hsplit : PhysicsEngine.getEntity splitId (SplitMergeSystem.physicsEngine s)
              = Some split)
    (Hmp : 0 < Client.mass parent) (Hms : 0 < Client.mass split) :
  let s' := SplitMergeSystem.mergeCells parentId splitId s in
  let entities' := PhysicsEngine.entities (SplitMergeSystem.physicsEngine s') in
  entities' !! splitId = None
  /\ (exists merged,
        entities' !! parentId = Some merged
        /\ Client.mass merged = Client.mass parent + Client.mass split
        /\ Client.radius merged
           = PhysicsEngine.calculateRadius (Client.mass parent + Client.mass split)
        /\ Client.velocity merged = Client.velocity parent
        /\ Client.x (Client.position merged) * Client.mass merged
           = Client.x (Client.position parent) * Client.mass parent
             + Client.x (Client.position split) * Client.mass split
        /\ Client.y (Client.position merged) * Client.mass merged
           = Client.y (Client.position parent) * Client.mass parent
             + Client.y (Client.position split) * Client.mass split
        /\ Rmin (Client.x (Client.position parent)) (Client.x (Client.position split))
           <= Client.x (Client.position merged)
           <= Rmax (Client.x (Client.position parent)) (Client.x (Client.position split))
        /\ Rmin (Client.y (Client.position parent)) (Client.y (Client.position split))
           <= Client.y (Client.position merged)
           <= Rmax (Client.y (Client.position parent)) (Client.y (Client.position split)))
  /\ (forall i, i <> parentId -> i <> splitId ->
        entities' !! i = PhysicsEngine.entities (SplitMergeSystem.physicsEngine s) !! i)
  /\ SplitMergeSystem.lastSplitTime s' = SplitMergeSystem.lastSplitTime s
  /\ SplitMergeSystem.config s' = SplitMergeSystem.config s.
Proof.
  cbv zeta. rewrite (mergeCells_entities _ _ _ _ _ Hne Hparent Hsplit). cbv zeta.
  split; [apply lookup_delete_eq |]. split; [| split; [| split]].
  - eexists. split.
    + rewrite lookup_delete_ne by congruence. apply lookup_insert_eq.
    + cbn [Client.mass Client.radius Client.velocity Client.position Client.x Client.y].
      split; [reflexivity |]. split; [reflexivity |]. split; [reflexivity |].
      split; [field; lra |]. split; [field; lra |].
      split; apply weighted_mean_between; assumption.
  - intros i H1 H2. rewrite lookup_delete_ne by congruence.
    apply lookup_insert_ne. congruence.
  - unfold SplitMergeSystem.mergeCells. rewrite Hparent, Hsplit.
    unfold SplitMergeSystem.removePlayerSplit. cbn [SplitMergeSystem.playerSplits].
    destruct (SplitMergeSystem.spliceFirst _ _); reflexivity.
  - unfold SplitMergeSystem.mergeCells. rewrite Hparent, Hsplit.
    rewrite removePlayerSplit_config. reflexivity.
Qed.

Lemma merge_conserves_mass_witness :
  PhysicsEngine.entities
    (SplitMergeSystem.physicsEngine
       (SplitMergeSystem.mergeCells "player" "pellet"
          (SplitMergeSystem.create Scenario.clientPair))) !! "pellet" = None.
Proof.
  destruct clientPair_lookup as [Hp Hq].
  assert (Hne : "player" <> "pellet") by discriminate.
  assert (Hmp : 0 < Client.mass Scenario.clientPlayer) by (simpl; lra).
  assert (Hms : 0 < Client.mass Scenario.clientPellet) by (simpl; lra).
  exact (proj1 (merge_conserves_mass "player" "pellet"
                  (SplitMergeSystem.create Scenario.clientPair)
                  Scenario.clientPlayer Scenario.clientPellet Hne Hp Hq Hmp Hms)).
Defined.

Lemma mergeCells_lastSplitTime parentId splitId s :
  SplitMergeSystem.lastSplitTime (SplitMergeSystem.mergeCells parentId splitId s)
  = SplitMergeSystem.lastSplitTime s.
Proof.
  unfold SplitMergeSystem.mergeCells.
  destruct (PhysicsEngine.getEntity parentId _); [| reflexivity].
  destruct (PhysicsEngine.getEntity splitId _); [| reflexivity].
  unfold SplitMergeSystem.removePlayerSplit. cbn [SplitMergeSystem.playerSplits].
  destruct (SplitMergeSystem.spliceFirst _ _); reflexivity.
Qed.

Lemma mergeCells_playerSplits parentId splitId s parent split :
  PhysicsEngine.getEntity parentId (SplitMergeSystem.physicsEngine s) = Some parent ->
  PhysicsEngine.getEntity splitId (SplitMergeSystem.physicsEngine s) = Some split ->
  SplitMergeSystem.playerSplits (SplitMergeSystem.mergeCells parentId splitId s)
  = match SplitMergeSystem.spliceFirst splitId
            (default [] (SplitMergeSystem.playerSplits s !! parentId)) with
    | Some splits' => <[parentId := splits']> (SplitMergeSystem.playerSplits s)
    | None => SplitMergeSystem.playerSplits s
    end.
Proof.
  intros Hp Hs. unfold SplitMergeSystem.mergeCells. rewrite Hp, Hs.
  unfold SplitMergeSystem.removePlayerSplit. cbn [SplitMergeSystem.playerSplits].
  destruct (SplitMergeSystem.spliceFirst _ _); reflexivity.
Qed.

Lemma spliceFirst_app_last l r k :
  (forall sp, sp ∈ l -> SplitMergeSystem.id sp <> k) ->
  SplitMergeSystem.id r = k ->
  SplitMergeSystem.spliceFirst k (l ++ [r]) = Some l.
Proof.
  intros Hl Hr. induction l as [| sp l IH]; simpl.
  - destruct (decide _); [reflexivity | contradiction].
  - destruct (decide (SplitMergeSystem.id sp = k)) as [E | _].
    + exfalso. apply (Hl sp); [left | exact E].
    + rewrite IH; [reflexivity |]. intros sp' Hsp'. apply Hl. right. exact Hsp'.
Qed.

(** X22.  A split followed by the merge of the new cell gives the player
    its mass and radius back: after [performSplit] has succeeded,
    [mergeCells] with the new cell restores the mass and the radius the
    player had, removes the new cell and touches no other entity.  The
    time of the split stays recorded, and the split record is removed
    (no older record carrying the same id). *)
Theorem split_then_merge_restores_mass
    (now : Z) (playerId : string) (direction : option Client.Vector2D)
    (s : SplitMergeSystem.t) (player : Client.Entity)
    (Hcan : SplitMergeSystem.canPlayerSplit now playerId s = true)
    (Hplayer : PhysicsEngine.getEntity playerId (SplitMergeSystem.physicsEngine s)
               = Some player) :
  let s1 := fst (SplitMergeSystem.performSplit now playerId direction s) in
  let newCellId := String.append playerId (String.append "_split_" (pretty now)) in
  let s2 := SplitMergeSystem.mergeCells playerId newCellId s1 in
  let entities2 := PhysicsEngine.entities (SplitMergeSystem.physicsEngine s2) in
  Client.mass <$> (entities2 !! playerId) = Some (Client.mass player)
  /\ Client.radius <$> (entities2 !! playerId)
     = Some (PhysicsEngine.calculateRadius (Client.mass player))
  /\ entities2 !! newCellId = None
  /\ (forall i, i <> playerId -> i <> newCellId ->
        entities2 !! i = PhysicsEngine.entities (SplitMergeSystem.physicsEngine s) !! i)
  /\ SplitMergeSystem.lastSplitTime s2 !! playerId = Some now
  /\ ((forall sp, sp ∈ default [] (SplitMergeSystem.playerSplits s !! playerId) ->
                  SplitMergeSystem.id sp <> newCellId) ->
      SplitMergeSystem.playerSplits s2 !! playerId
      = Some (default [] (SplitMergeSystem.playerSplits s !! playerId))).
Proof.
  cbv zeta.
  pose proof (newCellId_fresh playerId now) as Hfresh.
  destruct (split_masses_after now playerId direction s player Hcan Hplayer)
    as (M1 & _ & M2 & _ & Hoth). cbv zeta in M1, M2, Hoth.
  pose proof (performSplit_eligible now playerId direction s player Hcan Hplayer) as Hs1.
  cbv zeta in Hs1.
  set (s1 := fst (SplitMergeSystem.performSplit now playerId direction s)) in *.
  set (newCellId := String.append playerId (String.append "_split_" (pretty now))) in *.
  destruct (PhysicsEngine.entities (SplitMergeSystem.physicsEngine s1) !! playerId)
    as [p1 |] eqn:E1; [| discriminate].
  destruct (PhysicsEngine.entities (SplitMergeSystem.physicsEngine s1) !! newCellId)
    as [c1 |] eqn:E2; [| discriminate].
  injection M1 as M1. injection M2 as M2.
  assert (Hsum : Client.mass p1 + Client.mass c1 = Client.mass player)
    by (rewrite M1, M2; ring).
  assert (Hne : playerId <> newCellId) by congruence.
  rewrite (mergeCells_entities playerId newCellId s1 p1 c1 Hne E1 E2). cbv zeta.
  split_and!.
  - rewrite lookup_delete_ne by exact Hfresh. rewrite lookup_insert_eq. simpl.
    rewrite Hsum. reflexivity.
  - rewrite lookup_delete_ne by exact Hfresh. rewrite lookup_insert_eq. simpl.
    rewrite Hsum. reflexivity.
  - apply lookup_delete_eq.
  - intros i H1 H2. rewrite lookup_delete_ne by congruence.
    rewrite lookup_insert_ne by congruence. apply Hoth; assumption.
  - rewrite mergeCells_lastSplitTime. unfold s1. rewrite Hs1.
    cbn [fst SplitMergeSystem.lastSplitTime]. apply lookup_insert_eq.
  - intros Hold. rewrite (mergeCells_playerSplits playerId newCellId s1 p1 c1 E1 E2).
    assert (Hps : SplitMergeSystem.playerSplits s1 !! playerId
                  = Some (default [] (SplitMergeSystem.playerSplits s !! playerId)
                          ++ [SplitMergeSystem.mkPlayerSplit newCellId playerId now false])).
    { unfold s1. rewrite Hs1. cbn [fst SplitMergeSystem.playerSplits].
      apply lookup_insert_eq. }
    rewrite Hps. cbn [from_option Datatypes.id].
    rewrite (spliceFirst_app_last _
               (SplitMergeSystem.mkPlayerSplit newCellId playerId now false)
               newCellId Hold eq_refl).
    apply lookup_insert_eq.
Qed.

Lemma canPlayerSplit_true now playerId s player :
  PhysicsEngine.getEntity playerId (SplitMergeSystem.physicsEngine s) = Some player ->
  SplitMergeSystem.minMassToSplit (SplitMergeSystem.config s) <= Client.mass player ->
  (SplitMergeSystem.splitCooldown (SplitMergeSystem.config s)
   <= now - default 0 (SplitMergeSystem.lastSplitTime s !! playerId))%Z ->
  (Z.of_nat (length (default [] (SplitMergeSystem.playerSplits s !! playerId)))
   < SplitMergeSystem.maxSplitParts (SplitMergeSystem.config s) - 1)%Z ->
  SplitMergeSystem.canPlayerSplit now playerId s = true.
Proof.
  intros Hp Hm Hc Hn. unfold SplitMergeSystem.canPlayerSplit. rewrite Hp.
  destruct (JS.ltb _ _) eqn:E; [apply ltb_true in E; lra |]. cbv zeta.
  destruct (_ <? _)%Z eqn:E1; [apply Z.ltb_lt in E1; lia |].
  destruct (_ <=? _)%Z eqn:E2; [apply Z.leb_le in E2; lia | reflexivity].
Qed.

Lemma split_then_merge_restores_mass_witness :
  let player :=
    Client.mkEntity "player" (Client.mkVector2D 1000 1000) (Client.mkVector2D 0 0) 80
                    (PhysicsEngine.calculateRadius 80) Client.Player in
  let s1 := fst (SplitMergeSystem.performSplit 5000 "player" None Scenario.splitter) in
  let s2 :=
    SplitMergeSystem.mergeCells "player"
      (String.append "player" (String.append "_split_" (pretty 5000%Z))) s1 in
  Client.mass <$> (PhysicsEngine.entities (SplitMergeSystem.physicsEngine s2) !! "player")
  = Some (Client.mass player).
Proof.
  cbv zeta.
  assert (Hp : PhysicsEngine.getEntity "player"
                 (SplitMergeSystem.physicsEngine Scenario.splitter)
               = Some (Client.mkEntity "player" (Client.mkVector2D 1000 1000)
                         (Client.mkVector2D 0 0) 80 (PhysicsEngine.calculateRadius 80)
                         Client.Player))
    by apply lookup_insert_eq.
  assert (Hcan : SplitMergeSystem.canPlayerSplit 5000 "player" Scenario.splitter = true).
  { apply (canPlayerSplit_true _ _ _ _ Hp).
    - simpl. lra.
    - simpl. rewrite lookup_empty. simpl. lia.
    - simpl. rewrite lookup_empty. simpl. lia. }
  exact (proj1 (split_then_merge_restores_mass 5000 "player" None Scenario.splitter _
                  Hcan Hp)).
Defined.

(** ** A key press fans out to every cell *)

Lemma append_twice_neq (s a b : string) :
  a <> "" -> String.append (String.append s a) b <> s.
Proof.
  intros Ha. induction s as [| c s IH]; simpl.
  - destruct a; [contradiction | discriminate].
  - intros [= H]. exact (IH H).
Qed.

Lemma applyMovement_id i d pe j :
  Client.id <$> (PhysicsEngine.entities (PhysicsEngine.applyMovement i d pe) !! j)
  = Client.id <$> (PhysicsEngine.entities pe !! j).
Proof.
  rewrite applyMovement_lookup. destruct (decide (i = j)); [| reflexivity].
  destruct (PhysicsEngine.entities pe !! j); reflexivity.
Qed.

Lemma split_ids_after now playerId direction s player :
  SplitMergeSystem.canPlayerSplit now playerId s = true ->
  PhysicsEngine.getEntity playerId (SplitMergeSystem.physicsEngine s) = Some player ->
  let s' := fst (SplitMergeSystem.performSplit now playerId direction s) in
  let newCellId := String.append playerId (String.append "_split_" (pretty now)) in
  let entities' := PhysicsEngine.entities (SplitMergeSystem.physicsEngine s') in
  Client.id <$> (entities' !! playerId) = Some (Client.id player)
  /\ Client.id <$> (entities' !! newCellId) = Some newCellId.
Proof.
  intros Hcan Hp. cbv zeta.
  rewrite (performSplit_eligible now playerId direction s player Hcan Hp).
  cbn [fst SplitMergeSystem.physicsEngine].
  pose proof (newCellId_fresh playerId now) as Hfresh.
  unfold PhysicsEngine.getEntity in Hp.
  split.
  - rewrite !applyMovement_id, createEntity_entities.
    rewrite lookup_insert_ne by exact Hfresh.
    rewrite (updateEntityMass_entities _ _ _ _ Hp), lookup_insert_eq. reflexivity.
  - rewrite !applyMovement_id, createEntity_entities, lookup_insert_eq. reflexivity.
Qed.

Lemma split_records_after now playerId direction s player :
  SplitMergeSystem.canPlayerSplit now playerId s = true ->
  PhysicsEngine.getEntity playerId (SplitMergeSystem.physicsEngine s) = Some player ->
  let s' := fst (SplitMergeSystem.performSplit now playerId direction s) in
  let newCellId := String.append playerId (String.append "_split_" (pretty now)) in
  SplitMergeSystem.config s' = SplitMergeSystem.config s
  /\ SplitMergeSystem.playerSplits s'
     = <[playerId := default [] (SplitMergeSystem.playerSplits s !! playerId)
                     ++ [SplitMergeSystem.mkPlayerSplit newCellId playerId now false]]>
         (SplitMergeSystem.playerSplits s)
  /\ SplitMergeSystem.lastSplitTime s'
     = <[playerId := now]> (SplitMergeSystem.lastSplitTime s).
Proof.
  intros Hcan Hp. cbv zeta.
  rewrite (performSplit_eligible now playerId direction s player Hcan Hp).
  split_and!; reflexivity.
Qed.

(** X23.  [handleSplitInput] splits every cell under its own id, and the
    cooldown is kept per id.  For a player without split cells a first
    key press is one [performSplit] of the main cell.  A second key press
    within the cooldown leaves the main cell alone but splits the new
    cell (heavy enough, and never split before): the engine then holds a
    third cell with the ratio's share of the new cell's mass, recorded
    under the new cell and not under the player, so that
    [getPlayerCells] of the player still gives two cells. *)
Theorem second_press_splits_new_cell
    (now now2 : Z) (playerId : string) (direction direction2 : option Client.Vector2D)
    (s : SplitMergeSystem.t) (player : Client.Entity)
    (Hcan : SplitMergeSystem.canPlayerSplit now playerId s = true)
    (Hplayer : PhysicsEngine.getEntity playerId (SplitMergeSystem.physicsEngine s)
               = Some player)
    (Hid : Client.id player = playerId)
    (Hnone : SplitMergeSystem.playerSplits s !! playerId = None)
    (Hfresh1 : SplitMergeSystem.playerSplits s
                 !! String.append playerId (String.append "_split_" (pretty now)) = None)
    (Hfresh2 : SplitMergeSystem.lastSplitTime s
                 !! String.append playerId (String.append "_split_" (pretty now)) = None)
    (Hmass : SplitMergeSystem.minMassToSplit (SplitMergeSystem.config s)
             <= Client.mass player * SplitMergeSystem.splitRatio (SplitMergeSystem.config s))
    (Hwithin : (now2 - now < SplitMergeSystem.splitCooldown (SplitMergeSystem.config s))%Z)
    (Hlate : (SplitMergeSystem.splitCooldown (SplitMergeSystem.config s) <= now2)%Z) :
  let ratio := SplitMergeSystem.splitRatio (SplitMergeSystem.config s) in
  let newCellId := String.append playerId (String.append "_split_" (pretty now)) in
  let thirdId := String.append newCellId (String.append "_split_" (pretty now2)) in
  let s1 := fst (SplitMergeSystem.handleSplitInput now playerId direction s) in
  let s2 := fst (SplitMergeSystem.handleSplitInput now2 playerId direction2 s1) in
  let entities2 := PhysicsEngine.entities (SplitMergeSystem.physicsEngine s2) in
  s1 = fst (SplitMergeSystem.performSplit now playerId direction s)
  /\ SplitMergeSystem.canPlayerSplit now2 playerId s1 = false
  /\ s2 = fst (SplitMergeSystem.performSplit now2 newCellId direction2 s1)
  /\ Client.mass <$> (entities2 !! playerId)
     = Some (Client.mass player - Client.mass player * ratio)
  /\ Client.mass <$> (entities2 !! newCellId)
     = Some (Client.mass player * ratio - Client.mass player * ratio * ratio)
  /\ Client.mass <$> (entities2 !! thirdId) = Some (Client.mass player * ratio * ratio)
  /\ thirdId <> playerId /\ thirdId <> newCellId
  /\ SplitMergeSystem.playerSplits s2 !! playerId
     = Some [SplitMergeSystem.mkPlayerSplit newCellId playerId now false]
  /\ SplitMergeSystem.playerSplits s2 !! newCellId
     = Some [SplitMergeSystem.mkPlayerSplit thirdId newCellId now2 false]
  /\ length (SplitMergeSystem.getPlayerCells playerId s2) = 2%nat.
Proof.
  cbv zeta.
  set (ratio := SplitMergeSystem.splitRatio (SplitMergeSystem.config s)) in *.
  set (newCellId := String.append playerId (String.append "_split_" (pretty now))) in *.
  set (thirdId := String.append newCellId (String.append "_split_" (pretty now2))).
  pose proof (newCellId_fresh playerId now) as Hne1. fold newCellId in Hne1.
  pose proof (newCellId_fresh newCellId now2) as Hne2. fold thirdId in Hne2.
  assert (Hne3 : thirdId <> playerId) by (apply append_twice_neq; discriminate).
  (* the first key press *)
  assert (Hfirst : fst (SplitMergeSystem.handleSplitInput now playerId direction s)
                   = fst (SplitMergeSystem.performSplit now playerId direction s)).
  { unfold SplitMergeSystem.handleSplitInput, SplitMergeSystem.getPlayerCells.
    rewrite Hplayer, Hnone. simpl. rewrite Hid, Hcan. reflexivity. }
  rewrite Hfirst.
  destruct (split_masses_after now playerId direction s player Hcan Hplayer)
    as (M1 & _ & M2 & _ & _).
  destruct (split_ids_after now playerId direction s player Hcan Hplayer) as (I1 & I2).
  destruct (split_records_after now playerId direction s player Hcan Hplayer)
    as (Hcfg & Hps & Hlst).
  cbv zeta in M1, M2, I1, I2, Hcfg, Hps, Hlst. fold newCellId ratio in M1, M2, I1, I2, Hps.
  set (s1 := fst (SplitMergeSystem.performSplit now playerId direction s)) in *.
  destruct (PhysicsEngine.entities (SplitMergeSystem.physicsEngine s1) !! playerId)
    as [p1 |] eqn:E1; [| discriminate].
  destruct (PhysicsEngine.entities (SplitMergeSystem.physicsEngine s1) !! newCellId)
    as [c1 |] eqn:E2; [| discriminate].
  injection M1 as M1. injection M2 as M2. injection I1 as I1. injection I2 as I2.
  rewrite Hid in I1.
  assert (Hps1 : SplitMergeSystem.playerSplits s1 !! playerId
                 = Some [SplitMergeSystem.mkPlayerSplit newCellId playerId now false]).
  { rewrite Hps, lookup_insert_eq, Hnone. reflexivity. }
  assert (Hps2 : SplitMergeSystem.playerSplits s1 !! newCellId = None).
  { rewrite Hps, lookup_insert_ne by congruence. exact Hfresh1. }
  assert (Hcool : SplitMergeSystem.canPlayerSplit now2 playerId s1 = false).
  { apply (canPlayerSplit_cooldown now2 playerId s1 now).
    - rewrite Hlst. apply lookup_insert_eq.
    - rewrite Hcfg. exact Hwithin. }
  assert (Hcan2 : SplitMergeSystem.canPlayerSplit now2 newCellId s1 = true).
  { apply (canPlayerSplit_true now2 newCellId s1 c1 E2).
    - rewrite Hcfg, M2. exact Hmass.
    - rewrite Hcfg, Hlst, lookup_insert_ne by congruence. rewrite Hfresh2. simpl. lia.
    - rewrite Hps2. simpl.
      assert (Hparts : SplitMergeSystem.canPlayerSplit now playerId s = true) by exact Hcan.
      unfold SplitMergeSystem.canPlayerSplit in Hparts. rewrite Hplayer in Hparts.
      destruct (JS.ltb _ _); [discriminate |]. cbv zeta in Hparts.
      destruct (_ <? _)%Z; [discriminate |].
      rewrite Hnone in Hparts. simpl in Hparts.
      destruct (_ <=? _)%Z eqn:E; [discriminate |].
      apply Z.leb_gt in E. rewrite Hcfg. lia. }
  assert (Hcells : SplitMergeSystem.getPlayerCells playerId s1 = [p1; c1]).
  { unfold SplitMergeSystem.getPlayerCells, PhysicsEngine.getEntity.
    rewrite E1, Hps1. simpl. rewrite E2. reflexivity. }
  assert (Hsecond : fst (SplitMergeSystem.handleSplitInput now2 playerId direction2 s1)
                    = fst (SplitMergeSystem.performSplit now2 newCellId direction2 s1)).
  { unfold SplitMergeSystem.handleSplitInput. rewrite Hcells. simpl.
    rewrite I1, Hcool, I2, Hcan2. reflexivity. }
  rewrite Hsecond.
  destruct (split_masses_after now2 newCellId direction2 s1 c1 Hcan2 E2)
    as (N1 & _ & N2 & _ & Hoth).
  destruct (split_records_after now2 newCellId direction2 s1 c1 Hcan2 E2)
    as (_ & Hps' & _).
  cbv zeta in N1, N2, Hoth, Hps'. fold thirdId in N1, N2, Hoth, Hps'.
  rewrite Hcfg in N1, N2. fold ratio in N1, N2. rewrite M2 in N1, N2.
  set (s2 := fst (SplitMergeSystem.performSplit now2 newCellId direction2 s1)) in *.
  assert (Hp2 : PhysicsEngine.entities (SplitMergeSystem.physicsEngine s2) !! playerId
                = Some p1).
  { rewrite Hoth by congruence. exact E1. }
  split; [reflexivity |]. split; [exact Hcool |]. split; [reflexivity |].
  split; [rewrite Hp2; simpl; rewrite M1; reflexivity |].
  split; [exact N1 |]. split; [exact N2 |].
  split; [exact Hne3 |]. split; [exact Hne2 |].
  assert (Hq1 : SplitMergeSystem.playerSplits s2 !! playerId
                = Some [SplitMergeSystem.mkPlayerSplit newCellId playerId now false]).
  { rewrite Hps', lookup_insert_ne by congruence. exact Hps1. }
  split; [exact Hq1 |].
  split; [rewrite Hps', lookup_insert_eq, Hps2; reflexivity |].
  unfold SplitMergeSystem.getPlayerCells, PhysicsEngine.getEntity.
  rewrite Hp2, Hq1. simpl.
  destruct (PhysicsEngine.entities (SplitMergeSystem.physicsEngine s2) !! newCellId);
    [reflexivity | discriminate].
Qed.

Lemma second_press_splits_new_cell_witness :
  let s1 := fst (SplitMergeSystem.handleSplitInput 5000 "player" None Scenario.splitter) in
  let s2 := fst (SplitMergeSystem.handleSplitInput 5400 "player" None s1) in
  SplitMergeSystem.canPlayerSplit 5400 "player" s1 = false
  /\ length (SplitMergeSystem.getPlayerCells "player" s2) = 2%nat.
Proof.
  cbv zeta.
  assert (Hp : PhysicsEngine.getEntity "player"
                 (SplitMergeSystem.physicsEngine Scenario.splitter)
               = Some (Client.mkEntity "player" (Client.mkVector2D 1000 1000)
                         (Client.mkVector2D 0 0) 80 (PhysicsEngine.calculateRadius 80)
                         Client.Player))
    by apply lookup_insert_eq.
  assert (Hcan : SplitMergeSystem.canPlayerSplit 5000 "player" Scenario.splitter = true).
  { apply (canPlayerSplit_true _ _ _ _ Hp).
    - simpl. lra.
    - simpl. rewrite lookup_empty. simpl. lia.
    - simpl. rewrite lookup_empty. simpl. lia. }
  assert (Hmass : SplitMergeSystem.minMassToSplit (SplitMergeSystem.config Scenario.splitter)
                  <= 80 * SplitMergeSystem.splitRatio
                            (SplitMergeSystem.config Scenario.splitter))
    by (simpl; lra).
  assert (Hwithin : (5400 - 5000 < SplitMergeSystem.splitCooldown
                                     (SplitMergeSystem.config Scenario.splitter))%Z)
    by (simpl; lia).
  assert (Hlate : (SplitMergeSystem.splitCooldown
                     (SplitMergeSystem.config Scenario.splitter) <= 5400)%Z)
    by (simpl; lia).
  destruct (second_press_splits_new_cell 5000 5400 "player" None None Scenario.splitter _
              Hcan Hp eq_refl (lookup_empty _) (lookup_empty _) (lookup_empty _)
              Hmass Hwithin Hlate)
    as (_ & H2 & _ & _ & _ & _ & _ & _ & _ & _ & H11).
  split; [exact H2 | exact H11].
Defined.

(** ** The engine keeps its grid in sync *)

Lemma store_update_inSync i e' pe :
  Spec.engineInSync pe -> Client.id e' = i ->
  Spec.engineInSync
    (PhysicsEngine.mk (<[i := e']> (PhysicsEngine.entities pe))
                      (SpatialHashGrid.update e' (PhysicsEngine.spatialGrid pe))).
Proof.
  intros Hs Hid j o Hl. cbn [PhysicsEngine.entities PhysicsEngine.spatialGrid] in *.
  destruct (decide (i = j)) as [<- | Hne].
  - rewrite lookup_insert_eq in Hl. injection Hl as <-. split; [exact Hid |].
    intros c Hc.
    change (SpatialHashGrid.getEntityCells (SpatialHashGrid.update e' _) e')
      with (SpatialHashGrid.getEntityCells
              (SpatialHashGrid.remove (Client.id e') (PhysicsEngine.spatialGrid pe)) e')
      in Hc.
    unfold SpatialHashGrid.update, SpatialHashGrid.insert. cbn [SpatialHashGrid.grid].
    rewrite Hid. apply foldl_insertInCell_adds. rewrite <- Hid. exact Hc.
  - rewrite lookup_insert_ne in Hl by exact Hne.
    destruct (Hs j o Hl) as [Hj Hcells]. split; [exact Hj |].
    intros c Hc.
    change (SpatialHashGrid.getEntityCells (SpatialHashGrid.update e' _) o)
      with (SpatialHashGrid.getEntityCells (PhysicsEngine.spatialGrid pe) o) in Hc.
    destruct (Hcells c Hc) as (cell & Hcell & Hin).
    apply (update_keeps e' _ c cell j Hcell Hin). congruence.
Qed.

Lemma store_insert_inSync i e' pe :
  Spec.engineInSync pe -> Client.id e' = i ->
  Spec.engineInSync
    (PhysicsEngine.mk (<[i := e']> (PhysicsEngine.entities pe))
                      (SpatialHashGrid.insert e' (PhysicsEngine.spatialGrid pe))).
Proof.
  intros Hs Hid j o Hl. cbn [PhysicsEngine.entities PhysicsEngine.spatialGrid] in *.
  destruct (decide (i = j)) as [<- | Hne].
  - rewrite lookup_insert_eq in Hl. injection Hl as <-. split; [exact Hid |].
    intros c Hc.
    change (SpatialHashGrid.getEntityCells (SpatialHashGrid.insert e' _) e')
      with (SpatialHashGrid.getEntityCells (PhysicsEngine.spatialGrid pe) e') in Hc.
    unfold SpatialHashGrid.insert. cbn [SpatialHashGrid.grid].
    rewrite Hid. apply foldl_insertInCell_adds. exact Hc.
  - rewrite lookup_insert_ne in Hl by exact Hne.
    destruct (Hs j o Hl) as [Hj Hcells]. split; [exact Hj |].
    intros c Hc.
    change (SpatialHashGrid.getEntityCells (SpatialHashGrid.insert e' _) o)
      with (SpatialHashGrid.getEntityCells (PhysicsEngine.spatialGrid pe) o) in Hc.
    destruct (Hcells c Hc) as (cell & Hcell & Hin).
    unfold SpatialHashGrid.insert. cbn [SpatialHashGrid.grid].
    eapply foldl_insertInCell_keeps; eauto.
Qed.

Lemma restyle_inSync i e e' pe :
  Spec.engineInSync pe ->
  PhysicsEngine.entities pe !! i = Some e ->
  Client.id e' = Client.id e -> Client.position e' = Client.position e ->
  Client.radius e' = Client.radius e ->
  Spec.engineInSync
    (PhysicsEngine.mk (<[i := e']> (PhysicsEngine.entities pe))
                      (PhysicsEngine.spatialGrid pe)).
Proof.
  intros Hs He Hid Hpos Hrad j o Hl.
  cbn [PhysicsEngine.entities PhysicsEngine.spatialGrid] in *.
  destruct (decide (i = j)) as [<- | Hne].
  - rewrite lookup_insert_eq in Hl. injection Hl as <-.
    destruct (Hs i e He) as [Hi Hcells]. split; [congruence |].
    intros c Hc. apply Hcells.
    unfold SpatialHashGrid.getEntityCells in *. rewrite Hpos, Hrad in Hc. exact Hc.
  - rewrite lookup_insert_ne in Hl by exact Hne. exact (Hs j o Hl).
Qed.

Lemma delete_inSync k pe :
  Spec.engineInSync pe ->
  Spec.engineInSync
    (PhysicsEngine.mk (delete k (PhysicsEngine.entities pe)) (PhysicsEngine.spatialGrid pe)).
Proof.
  intros Hs j o Hl. cbn [PhysicsEngine.entities PhysicsEngine.spatialGrid] in *.
  apply lookup_delete_Some in Hl as [_ Hl]. exact (Hs j o Hl).
Qed.

Lemma createEntity_inSync i ty m p pe :
  Spec.engineInSync pe ->
  Spec.engineInSync (fst (PhysicsEngine.createEntity i ty m p pe)).
Proof.
  intros Hs. unfold PhysicsEngine.createEntity. cbn [fst].
  apply store_insert_inSync; [exact Hs | reflexivity].
Qed.

Lemma updateEntityMass_inSync i m pe :
  Spec.engineInSync pe -> Spec.engineInSync (PhysicsEngine.updateEntityMass i m pe).
Proof.
  intros Hs. unfold PhysicsEngine.updateEntityMass.
  destruct (PhysicsEngine.entities pe !! i) as [e |] eqn:E; [| exact Hs].
  apply store_update_inSync; [exact Hs |]. exact (proj1 (Hs i e E)).
Qed.

Lemma applyMovement_inSync i d pe :
  Spec.engineInSync pe -> Spec.engineInSync (PhysicsEngine.applyMovement i d pe).
Proof.
  intros Hs. unfold PhysicsEngine.applyMovement.
  destruct (PhysicsEngine.entities pe !! i) as [e |] eqn:E; [| exact Hs].
  cbv zeta. apply (restyle_inSync i e); auto.
Qed.

Lemma removeEntity_inSync k pe :
  Spec.engineInSync pe -> Spec.engineInSync (PhysicsEngine.removeEntity k pe).
Proof.
  intros Hs j o Hl. unfold PhysicsEngine.removeEntity in *.
  cbn [PhysicsEngine.entities PhysicsEngine.spatialGrid] in *.
  apply lookup_delete_Some in Hl as [Hne Hl].
  destruct (Hs j o Hl) as [Hj Hcells]. split; [exact Hj |].
  intros c Hc.
  change (SpatialHashGrid.getEntityCells (SpatialHashGrid.remove k _) o)
    with (SpatialHashGrid.getEntityCells (PhysicsEngine.spatialGrid pe) o) in Hc.
  destruct (Hcells c Hc) as (cell & Hcell & Hin).
  unfold SpatialHashGrid.remove. cbn [SpatialHashGrid.grid].
  eapply foldl_removeFromCell_keeps; eauto.
Qed.

Lemma processEatingCollision_inSync predatorId preyId pe :
  Spec.engineInSync pe ->
  Spec.engineInSync (fst (PhysicsEngine.processEatingCollision predatorId preyId pe)).
Proof.
  intros Hs. unfold PhysicsEngine.processEatingCollision.
  destruct (PhysicsEngine.entities pe !! predatorId) as [predator |]; [| exact Hs].
  destruct (PhysicsEngine.entities pe !! preyId) as [prey |]; [| exact Hs].
  destruct (JS.leb _ _); [exact Hs |].
  destruct (PhysicsEngine.checkCollision _ _); [| exact Hs].
  cbn [fst]. apply delete_inSync, updateEntityMass_inSync, Hs.
Qed.

Lemma performSplit_inSync now playerId direction s :
  Spec.engineInSync (SplitMergeSystem.physicsEngine s) ->
  Spec.engineInSync
    (SplitMergeSystem.physicsEngine
       (fst (SplitMergeSystem.performSplit now playerId direction s))).
Proof.
  intros Hs.
  destruct (SplitMergeSystem.canPlayerSplit now playerId s) eqn:Hcan.
  2: { rewrite performSplit_ineligible by exact Hcan. exact Hs. }
  destruct (PhysicsEngine.getEntity playerId (SplitMergeSystem.physicsEngine s))
    as [player |] eqn:Hp.
  2: { unfold SplitMergeSystem.performSplit. rewrite Hcan, Hp. exact Hs. }
  rewrite (performSplit_eligible now playerId direction s player Hcan Hp).
  cbn [fst SplitMergeSystem.physicsEngine].
  apply applyMovement_inSync, applyMovement_inSync, createEntity_inSync,
    updateEntityMass_inSync, Hs.
Qed.

Lemma updatePositions_inSync order deltaTime pe :
  Spec.engineInSync pe ->
  Spec.engineInSync (PhysicsEngine.updatePositions order deltaTime pe).
Proof.
  unfold PhysicsEngine.updatePositions. apply foldl_invariant.
  intros acc key Hs.
  destruct (PhysicsEngine.entities acc !! key) as [e |] eqn:E; [| exact Hs].
  cbv zeta. apply store_update_inSync; [exact Hs |]. exact (proj1 (Hs key e E)).
Qed.

Lemma updatePositions_ok order deltaTime pe :
  Spec.engineWellSized pe ->
  Spec.engineWellSized (PhysicsEngine.updatePositions order deltaTime pe).
Proof.
  unfold PhysicsEngine.updatePositions. apply foldl_invariant.
  intros acc key Hs.
  destruct (PhysicsEngine.entities acc !! key) as [e |] eqn:E; [| exact Hs].
  cbv zeta. unfold Spec.engineWellSized. cbn [PhysicsEngine.entities].
  apply (insert_wellSized acc); [exact Hs |]. exact (Hs key e E).
Qed.

Lemma update_cellSize e g :
  SpatialHashGrid.cellSize (SpatialHashGrid.update e g) = SpatialHashGrid.cellSize g.
Proof. reflexivity. Qed.

Lemma updatePositions_cellSize order deltaTime pe :
  SpatialHashGrid.cellSize
    (PhysicsEngine.spatialGrid (PhysicsEngine.updatePositions order deltaTime pe))
  = SpatialHashGrid.cellSize (PhysicsEngine.spatialGrid pe).
Proof.
  unfold PhysicsEngine.updatePositions.
  apply (foldl_invariant _
           (fun acc => SpatialHashGrid.cellSize (PhysicsEngine.spatialGrid acc)
                       = SpatialHashGrid.cellSize (PhysicsEngine.spatialGrid pe)));
    [| reflexivity].
  intros acc key Hs. destruct (PhysicsEngine.entities acc !! key); exact Hs.
Qed.

Lemma updateEntityMass_cellSize i m pe :
  SpatialHashGrid.cellSize (PhysicsEngine.spatialGrid (PhysicsEngine.updateEntityMass i m pe))
  = SpatialHashGrid.cellSize (PhysicsEngine.spatialGrid pe).
Proof.
  unfold PhysicsEngine.updateEntityMass.
  destruct (PhysicsEngine.entities pe !! i); reflexivity.
Qed.

Lemma applyMovement_grid i d pe :
  PhysicsEngine.spatialGrid (PhysicsEngine.applyMovement i d pe)
  = PhysicsEngine.spatialGrid pe.
Proof.
  unfold PhysicsEngine.applyMovement.
  destruct (PhysicsEngine.entities pe !! i); reflexivity.
Qed.

Lemma processEatingCollision_cellSize predatorId preyId pe :
  SpatialHashGrid.cellSize
    (PhysicsEngine.spatialGrid
       (fst (PhysicsEngine.processEatingCollision predatorId preyId pe)))
  = SpatialHashGrid.cellSize (PhysicsEngine.spatialGrid pe).
Proof.
  unfold PhysicsEngine.processEatingCollision.
  destruct (PhysicsEngine.entities pe !! predatorId) as [predator |]; [| reflexivity].
  destruct (PhysicsEngine.entities pe !! preyId) as [prey |]; [| reflexivity].
  destruct (JS.leb _ _); [reflexivity |].
  destruct (PhysicsEngine.checkCollision _ _); [| reflexivity].
  cbn [fst PhysicsEngine.spatialGrid]. apply updateEntityMass_cellSize.
Qed.

Lemma performSplit_cellSize now playerId direction s :
  SpatialHashGrid.cellSize
    (PhysicsEngine.spatialGrid
       (SplitMergeSystem.physicsEngine
          (fst (SplitMergeSystem.performSplit now playerId direction s))))
  = SpatialHashGrid.cellSize
      (PhysicsEngine.spatialGrid (SplitMergeSystem.physicsEngine s)).
Proof.
  destruct (SplitMergeSystem.canPlayerSplit now playerId s) eqn:Hcan.
  2: { rewrite performSplit_ineligible by exact Hcan. reflexivity. }
  destruct (PhysicsEngine.getEntity playerId (SplitMergeSystem.physicsEngine s))
    as [player |] eqn:Hp.
  2: { unfold SplitMergeSystem.performSplit. rewrite Hcan, Hp. reflexivity. }
  rewrite (performSplit_eligible now playerId direction s player Hcan Hp).
  cbn [fst SplitMergeSystem.physicsEngine].
  rewrite !applyMovement_grid. unfold PhysicsEngine.createEntity.
  cbn [fst PhysicsEngine.spatialGrid].
  change (SpatialHashGrid.cellSize (SpatialHashGrid.insert ?e ?g))
    with (SpatialHashGrid.cellSize g).
  apply updateEntityMass_cellSize.
Qed.

Lemma applyFrameOp_safe s fop :
  Spec.gridSafe fop ->
  0 < SplitMergeSystem.splitRatio (SplitMergeSystem.config s) < 1 ->
  Spec.engineInSync (SplitMergeSystem.physicsEngine s) ->
  Spec.clientWellSized s ->
  SplitMergeSystem.config (Spec.applyFrameOp s fop) = SplitMergeSystem.config s
  /\ SpatialHashGrid.cellSize
       (PhysicsEngine.spatialGrid (SplitMergeSystem.physicsEngine (Spec.applyFrameOp s fop)))
     = SpatialHashGrid.cellSize
         (PhysicsEngine.spatialGrid (SplitMergeSystem.physicsEngine s))
  /\ Spec.engineInSync (SplitMergeSystem.physicsEngine (Spec.applyFrameOp s fop))
  /\ Spec.clientWellSized (Spec.applyFrameOp s fop).
Proof.
  intros Hsafe Hratio Hsync Hsized.
  destruct fop as [op | order deltaTime].
  - split; [apply applyOp_config |].
    assert (Hadm : Spec.admissible op) by (destruct op; simpl in *; tauto).
    split; [| split; [| apply applyOp_ok; assumption]].
    + destruct op; simpl in Hsafe |- *; try contradiction; try reflexivity.
      * apply updateEntityMass_cellSize.
      * rewrite applyMovement_grid. reflexivity.
      * apply processEatingCollision_cellSize.
      * apply performSplit_cellSize.
    + destruct op; simpl in Hsafe |- *; try contradiction.
      * apply createEntity_inSync, Hsync.
      * apply updateEntityMass_inSync, Hsync.
      * apply applyMovement_inSync, Hsync.
      * apply processEatingCollision_inSync, Hsync.
      * apply removeEntity_inSync, Hsync.
      * apply performSplit_inSync, Hsync.
  - simpl. split; [reflexivity |].
    split; [apply updatePositions_cellSize |].
    split; [apply updatePositions_inSync, Hsync |].
    unfold Spec.clientWellSized. simpl. apply updatePositions_ok, Hsized.
Qed.

(** X24.  The engine keeps its grid in sync, and [query] then finds every
    overlap.  Start from a system whose entities are stored under their
    ids, registered in the grid and of positive mass with the matching
    radius (the empty system is one), and apply creations, mass updates,
    movements, eatings, removals, splits and position updates in any
    order, but no merge: every entity of the table is still stored under
    its id and registered in all the cells it occupies, and for any two
    entities of the table that overlap, [query] on the one returns the id
    of the other. *)
Theorem engine_query_finds_overlaps (ops : list Spec.FrameOp) (s : SplitMergeSystem.t)
    (Hsafe : Forall Spec.gridSafe ops)
    (Hratio : 0 < SplitMergeSystem.splitRatio (SplitMergeSystem.config s) < 1)
    (Hcs : 0 < SpatialHashGrid.cellSize
                 (PhysicsEngine.spatialGrid (SplitMergeSystem.physicsEngine s)))
    (Hsync : Spec.engineInSync (SplitMergeSystem.physicsEngine s))
    (Hsized : Spec.clientWellSized s) :
  let pe := SplitMergeSystem.physicsEngine (foldl Spec.applyFrameOp s ops) in
  Spec.engineInSync pe
  /\ (forall i j e o,
        PhysicsEngine.entities pe !! i = Some e ->
        PhysicsEngine.entities pe !! j = Some o ->
        i <> j ->
        PhysicsEngine.checkCollision e o = true ->
        j ∈ SpatialHashGrid.query (PhysicsEngine.spatialGrid pe) e).
Proof.
  cbv zeta.
  assert (Hinv : 0 < SplitMergeSystem.splitRatio
                       (SplitMergeSystem.config (foldl Spec.applyFrameOp s ops)) < 1
                 /\ 0 < SpatialHashGrid.cellSize
                          (PhysicsEngine.spatialGrid
                             (SplitMergeSystem.physicsEngine
                                (foldl Spec.applyFrameOp s ops)))
                 /\ Spec.engineInSync
                      (SplitMergeSystem.physicsEngine (foldl Spec.applyFrameOp s ops))
                 /\ Spec.clientWellSized (foldl Spec.applyFrameOp s ops)).
  { revert s Hratio Hcs Hsync Hsized.
    induction Hsafe as [| fop ops Hfop Hops IH]; intros s Hratio Hcs Hsync Hsized; simpl.
    - auto.
    - destruct (applyFrameOp_safe s fop Hfop Hratio Hsync Hsized)
        as (Hcfg & Hsize & Hsync' & Hsized').
      apply IH; [rewrite Hcfg; exact Hratio | rewrite Hsize; exact Hcs | exact Hsync'
                | exact Hsized']. }
  destruct Hinv as (_ & Hcs' & Hsync' & Hsized').
  split; [exact Hsync' |].
  intros i j e o He Ho Hne Hov.
  destruct (Hsized' i e He) as [_ Hre]. destruct (Hsized' j o Ho) as [_ Hro].
  destruct (Hsync' i e He) as [Hie _]. destruct (Hsync' j o Ho) as [_ Hcells].
  assert (Hre' : 0 <= Client.radius e) by (rewrite Hre; apply sqrt_pos).
  assert (Hro' : 0 <= Client.radius o) by (rewrite Hro; apply sqrt_pos).
  destruct (overlap_shares_cell _ e o Hcs' Hre' Hro' Hov) as (c & Hc1 & Hc2).
  destruct (Hcells c Hc2) as (cell & Hcell & Hin).
  unfold SpatialHashGrid.query. rewrite elem_of_elements, nearbyEntities_spec.
  split; [congruence |]. exists c, cell. auto.
Qed.

Lemma engine_query_finds_overlaps_witness :
  Spec.engineInSync
    (SplitMergeSystem.physicsEngine
       (foldl Spec.applyFrameOp (SplitMergeSystem.create PhysicsEngine.create)
          [Spec.Op (Spec.Create "a" Client.Player 100 (Client.mkVector2D 500 500));
           Spec.Op (Spec.Create "b" Client.Pellet 95 (Client.mkVector2D 500 500));
           Spec.Op (Spec.Move "a" (Client.mkVector2D 1 0));
           Spec.UpdatePositions ["a"; "b"] 16;
           Spec.Op (Spec.Eat "a" "b")])).
Proof.
  apply engine_query_finds_overlaps.
  - repeat constructor; simpl; lra.
  - simpl. lra.
  - simpl. lra.
  - intros i o Hl. simpl in Hl. rewrite lookup_empty in Hl. discriminate.
  - intros i o Hl. simpl in Hl. rewrite lookup_empty in Hl. discriminate.
Defined.

(** ** A frame of the client engine *)

Lemma updatePositions_lookup order : forall deltaTime pe k,
  NoDup order ->
  PhysicsEngine.entities (PhysicsEngine.updatePositions order deltaTime pe) !! k
  = if decide (k ∈ order)
    then PhysicsEngine.moveEntity deltaTime <$> (PhysicsEngine.entities pe !! k)
    else PhysicsEngine.entities pe !! k.
Proof.
  induction order as [| k0 rest IH]; intros deltaTime pe k Hnd.
  - simpl. destruct (decide (k ∈ [])) as [H | _]; [inversion H | reflexivity].
  - apply NoDup_cons in Hnd as [Hk0 Hnd].
    unfold PhysicsEngine.updatePositions in *. simpl.
    rewrite (IH deltaTime _ k Hnd).
    destruct (decide (k = k0)) as [-> | Hne].
    + destruct (decide (k0 ∈ rest)) as [H | _]; [contradiction |].
      destruct (decide (k0 ∈ k0 :: rest)) as [_ | H]; [| exfalso; apply H; left].
      destruct (PhysicsEngine.entities pe !! k0) as [e |] eqn:E.
      * cbn [PhysicsEngine.entities]. rewrite lookup_insert_eq. reflexivity.
      * rewrite E. reflexivity.
    + assert (Hsame : PhysicsEngine.entities
                        (match PhysicsEngine.entities pe !! k0 with
                         | Some entity =>
                             PhysicsEngine.mk
                               (<[k0 := PhysicsEngine.moveEntity deltaTime entity]>
                                  (PhysicsEngine.entities pe))
                               (SpatialHashGrid.update
                                  (PhysicsEngine.moveEntity deltaTime entity)
                                  (PhysicsEngine.spatialGrid pe))
                         | None => pe
                         end) !! k
                      = PhysicsEngine.entities pe !! k).
      { destruct (PhysicsEngine.entities pe !! k0); [| reflexivity].
        cbn [PhysicsEngine.entities]. apply lookup_insert_ne. congruence. }
      rewrite Hsame.
      destruct (decide (k ∈ rest)) as [H | H];
        destruct (decide (k ∈ k0 :: rest)) as [H' | H']; try reflexivity.
      * exfalso. apply H'. right. exact H.
      * exfalso. apply elem_of_cons in H' as [H' | H']; contradiction.
Qed.

(** X25.  A frame moves every entity once and by a clamped time step.
    When the loop visits every key once and the clock has not gone back,
    [update] moves each entity by its velocity times a step of at most
    1000/30 ms, however long the frame took (so by at most a thirtieth of
    its speed in each coordinate), multiplies its velocity by 0.95 and
    leaves its mass and radius alone; it stores the clock reading. *)
Theorem update_moves_by_clamped_step
    (order : list string) (currentTime lastUpdate : R) (pe : PhysicsEngine.t)
    (key : string) (e : Client.Entity)
    (Hnd : NoDup order) (Hin : key ∈ order)
    (He : PhysicsEngine.entities pe !! key = Some e)
    (Hclock : lastUpdate <= currentTime) :
  let r := PhysicsEngine.update order currentTime lastUpdate pe in
  snd r = currentTime
  /\ exists e' step,
       PhysicsEngine.entities (fst r) !! key = Some e'
       /\ 0 <= step <= 1000 / 30 /\ step <= currentTime - lastUpdate
       /\ Client.x (Client.position e')
          = Client.x (Client.position e) + Client.x (Client.velocity e) * (step / 1000)
       /\ Client.y (Client.position e')
          = Client.y (Client.position e) + Client.y (Client.velocity e) * (step / 1000)
       /\ Rabs (Client.x (Client.position e') - Client.x (Client.position e))
          <= Rabs (Client.x (Client.velocity e)) / 30
       /\ Rabs (Client.y (Client.position e') - Client.y (Client.position e))
          <= Rabs (Client.y (Client.velocity e)) / 30
       /\ Client.x (Client.velocity e') = Client.x (Client.velocity e) * (95 / 100)
       /\ Client.y (Client.velocity e') = Client.y (Client.velocity e) * (95 / 100)
       /\ Client.mass e' = Client.mass e /\ Client.radius e' = Client.radius e.
Proof.
  cbv zeta. unfold PhysicsEngine.update. cbn [fst snd]. split; [reflexivity |].
  set (step := Rmin (currentTime - lastUpdate) (1000 / 60 * 2)).
  assert (Hstep : 0 <= step <= 1000 / 30 /\ step <= currentTime - lastUpdate).
  { unfold step, Rmin. destruct (Rle_dec _ _); lra. }
  exists (PhysicsEngine.moveEntity step e), step.
  split.
  { rewrite (updatePositions_lookup order step pe key Hnd).
    destruct (decide (key ∈ order)); [| contradiction]. rewrite He. reflexivity. }
  assert (Hbound : forall v, Rabs (v * (step / 1000)) <= Rabs v / 30).
  { intros v. rewrite Rabs_mult, (Rabs_right (step / 1000)) by lra.
    pose proof (Rabs_pos v). nra. }
  cbn [PhysicsEngine.moveEntity Client.position Client.velocity Client.x Client.y
       Client.mass Client.radius].
  split_and!; try reflexivity; try lra.
  - replace (Client.x (Client.position e) + Client.x (Client.velocity e) * (step / 1000)
             - Client.x (Client.position e))
      with (Client.x (Client.velocity e) * (step / 1000)) by ring.
    apply Hbound.
  - replace (Client.y (Client.position e) + Client.y (Client.velocity e) * (step / 1000)
             - Client.y (Client.position e))
      with (Client.y (Client.velocity e) * (step / 1000)) by ring.
    apply Hbound.
Qed.

Lemma update_moves_by_clamped_step_witness :
  snd (PhysicsEngine.update ["player"; "pellet"] 5000 1000 Scenario.clientPair) = 5000.
Proof.
  destruct clientPair_lookup as [Hp _].
  assert (Hnd : NoDup ["player"; "pellet"]).
  { apply NoDup_cons. split; [| apply NoDup_singleton].
    intros H. apply list_elem_of_singleton in H. discriminate. }
  assert (Hin : "player" ∈ ["player"; "pellet"]) by left.
  assert (Hclock : 1000 <= 5000) by lra.
  exact (proj1 (update_moves_by_clamped_step ["player"; "pellet"] 5000 1000
                  Scenario.clientPair "player" Scenario.clientPlayer Hnd Hin Hp Hclock)).
Defined.

(** ** Steering all cells of a player *)







(** ** A collision pass does not look at [isAlive] *)

Lemma radius_above m k : 0 <= k -> 4 * (k * k) <= m -> k <= sqrt (m / JS.PI).
Proof.
  intros Hk Hle. rewrite <- (sqrt_square k) at 1 by lra.
  apply sqrt_le_1_alt.
  assert (H4 : JS.PI <= 4) by apply PI_4. pose proof PI_pos as Hp.
  apply (Rmult_le_reg_r JS.PI); [lra |].
  unfold Rdiv. rewrite (Rmult_assoc m), Rinv_l by lra. nra.
Qed.

(** X27.  One entity can be eaten twice in one collision pass.  In a
    table of three entities where the first and the third both overlap
    the second and both are heavy enough to eat it, while the first (with
    its radius after eating) does not overlap the third,
    [processCollisions] adds the mass of the second to the first and, the
    second being dead by then, adds it to the third as well: the live
    mass grows by the mass of the prey. *)
Theorem prey_eaten_twice_in_one_pass (now : Z) (st : Game.GameState)
    (ka kb kc : string) (a b c : Game.Entity)
    (Hes : Game.entities st = [(ka, a); (kb, b); (kc, c)])
    (Hb : 0 < Game.mass b)
    (Hab : Physics.canEat (Game.mass a) (Game.mass b) = true)
    (Hcb : Physics.canEat (Game.mass c) (Game.mass b) = true)
    (Hoab : Physics.checkCollision (Game.pos a) (Game.radius a)
                                   (Game.pos b) (Game.radius b) = true)
    (Hobc : Physics.checkCollision (Game.pos b) (Game.radius b)
                                   (Game.pos c) (Game.radius c) = true)
    (Hoac : Physics.checkCollision
              (Game.pos a)
              (Physics.radiusFromMass
                 (Physics.calculateNewMass (Game.mass a) (Game.mass b) 1))
              (Game.pos c) (Game.radius c) = false) :
  exists a' b' c',
    Game.entities (Game.processCollisions now st) = [(ka, a'); (kb, b'); (kc, c')]
    /\ Game.mass a' = Game.mass a + Game.mass b
    /\ Game.mass c' = Game.mass c + Game.mass b
    /\ Game.mass b' = Game.mass b
    /\ Game.isAlive b' = false
    /\ Game.killedBy b' = Some (Game.id c)
    /\ Game.isAlive a' = Game.isAlive a /\ Game.isAlive c' = Game.isAlive c
    /\ Game.mass a' + Game.mass c' = Game.mass a + Game.mass c + 2 * Game.mass b.
Proof.
  assert (Hbc : Physics.canEat (Game.mass b) (Game.mass c) = false).
  { apply canEat_spec in Hcb.
    destruct (Physics.canEat (Game.mass b) (Game.mass c)) eqn:E; [| reflexivity].
    apply canEat_spec in E. lra. }
  set (a1 := fst (Game.transferMass now a b)).
  set (b1 := snd (Game.transferMass now a b)).
  set (c2 := fst (Game.transferMass now c b1)).
  set (b2 := snd (Game.transferMass now c b1)).
  assert (S1 : Game.collideAt now 0 1 [a; b; c] = [a1; b1; c]).
  { unfold Game.collideAt.
    change ([a; b; c] !! 0%nat) with (Some a). change ([a; b; c] !! 1%nat) with (Some b).
    unfold Game.resolvePair. rewrite Hoab. unfold Game.handleCollision. rewrite Hab.
    unfold a1, b1. destruct (Game.transferMass now a b) as [x y]. reflexivity. }
  assert (S2 : Game.collideAt now 0 2 [a1; b1; c] = [a1; b1; c]).
  { unfold Game.collideAt.
    change ([a1; b1; c] !! 0%nat) with (Some a1).
    change ([a1; b1; c] !! 2%nat) with (Some c).
    unfold Game.resolvePair.
    change (Game.pos a1) with (Game.pos a).
    change (Game.radius a1)
      with (Physics.radiusFromMass
              (Physics.calculateNewMass (Game.mass a) (Game.mass b) 1)).
    rewrite Hoac. reflexivity. }
  assert (S3 : Game.collideAt now 1 2 [a1; b1; c] = [a1; b2; c2]).
  { unfold Game.collideAt.
    change ([a1; b1; c] !! 1%nat) with (Some b1).
    change ([a1; b1; c] !! 2%nat) with (Some c).
    unfold Game.resolvePair.
    change (Game.pos b1) with (Game.pos b). change (Game.radius b1) with (Game.radius b).
    rewrite Hobc. unfold Game.handleCollision.
    change (Game.mass b1) with (Game.mass b). rewrite Hbc, Hcb.
    unfold b2, c2. change (Game.mass b1) with (Game.mass b).
    destruct (Game.transferMass now c b1) as [x y]. reflexivity. }
  exists a1, b2, c2. split.
  - unfold Game.processCollisions. rewrite Hes.
    cbn [Game.Map_values List.map snd length seq Nat.sub foldl Game.entities
         Game.set_entities].
    rewrite S1, S2, S3. reflexivity.
  - unfold a1, b2, c2, b1, Game.transferMass, Physics.calculateNewMass. simpl.
    split_and!; try reflexivity; lra.
Qed.

Lemma prey_eaten_twice_in_one_pass_witness :
  exists a' b' c',
    Game.entities
      (Game.processCollisions 1000
         (Game.set_entities Game.defaultGame
            [("a", Scenario.serverEntity "a" Game.Player 100 100 0 0 200);
             ("b", Scenario.serverEntity "b" Game.Player 110 100 0 0 100);
             ("c", Scenario.serverEntity "c" Game.Player 120 100 0 0 200)]))
    = [("a", a'); ("b", b'); ("c", c')]
    /\ Game.mass a' = 200 + 100 /\ Game.mass c' = 200 + 100.
Proof.
  pose proof (radius_above 200 7 ltac:(lra) ltac:(lra)) as R200.
  pose proof (radius_above 100 5 ltac:(lra) ltac:(lra)) as R100.
  pose proof (radius_below 300 10 ltac:(lra) ltac:(lra) ltac:(lra)) as R300.
  pose proof (radius_below 200 9 ltac:(lra) ltac:(lra) ltac:(lra)) as R200'.
  assert (Hd10 : sqrt (10 * 10 + 0 * 0) = 10).
  { replace (10 * 10 + 0 * 0) with (10 * 10) by ring. apply sqrt_square. lra. }
  assert (Hd20 : sqrt (20 * 20 + 0 * 0) = 20).
  { replace (20 * 20 + 0 * 0) with (20 * 20) by ring. apply sqrt_square. lra. }
  destruct (prey_eaten_twice_in_one_pass 1000
              (Game.set_entities Game.defaultGame
                 [("a", Scenario.serverEntity "a" Game.Player 100 100 0 0 200);
                  ("b", Scenario.serverEntity "b" Game.Player 110 100 0 0 100);
                  ("c", Scenario.serverEntity "c" Game.Player 120 100 0 0 200)])
              "a" "b" "c" _ _ _ eq_refl)
    as (a' & b' & c' & He & Ha & Hc & _).
  - simpl. lra.
  - apply canEat_spec. simpl. lra.
  - apply canEat_spec. simpl. lra.
  - apply checkCollision_distance. unfold Physics.distance. simpl.
    rewrite !radiusFromMass_pos by lra.
    replace ((110 - 100) * (110 - 100) + (100 - 100) * (100 - 100))
      with (10 * 10 + 0 * 0) by ring.
    rewrite Hd10. lra.
  - apply checkCollision_distance. unfold Physics.distance. simpl.
    rewrite !radiusFromMass_pos by lra.
    replace ((120 - 110) * (120 - 110) + (100 - 100) * (100 - 100))
      with (10 * 10 + 0 * 0) by ring.
    rewrite Hd10. lra.
  - destruct (Physics.checkCollision _ _ _ _) eqn:E; [| reflexivity].
    apply checkCollision_distance in E. unfold Physics.distance in E. simpl in E.
    unfold Physics.calculateNewMass in E.
    rewrite !radiusFromMass_pos in E by lra.
    replace ((120 - 100) * (120 - 100) + (100 - 100) * (100 - 100))
      with (20 * 20 + 0 * 0) in E by ring.
    rewrite Hd20 in E.
    replace (200 + 100 * 1) with 300 in E by ring. lra.
  - exists a', b', c'. simpl in Ha, Hc. auto.
Defined.

(** ** The merge loop *)

Lemma spliceFirst_length k l l' :
  SplitMergeSystem.spliceFirst k l = Some l' -> S (length l') = length l.
Proof.
  revert l'. induction l as [| sp l IH]; intros l' H; simpl in H; [discriminate |].
  destruct (decide _).
  - injection H as <-. reflexivity.
  - destruct (SplitMergeSystem.spliceFirst k l) as [r |]; [| discriminate].
    injection H as <-. simpl. f_equal. apply IH. reflexivity.
Qed.

Lemma removePlayerSplit_length playerId splitId s q :
  (length (default [] (SplitMergeSystem.playerSplits
                         (SplitMergeSystem.removePlayerSplit playerId splitId s) !! q))
   <= length (default [] (SplitMergeSystem.playerSplits s !! q)))%nat.
Proof.
  unfold SplitMergeSystem.removePlayerSplit.
  destruct (SplitMergeSystem.spliceFirst _ _) as [l' |] eqn:E; [| lia].
  cbn [SplitMergeSystem.playerSplits]. apply spliceFirst_length in E.
  destruct (decide (playerId = q)) as [<- | Hne].
  - rewrite lookup_insert_eq. simpl. lia.
  - rewrite lookup_insert_ne by exact Hne. lia.
Qed.

Lemma attemptMerge_length parentId splitId s q :
  (length (default [] (SplitMergeSystem.playerSplits
                         (SplitMergeSystem.attemptMerge parentId splitId s) !! q))
   <= length (default [] (SplitMergeSystem.playerSplits s !! q)))%nat.
Proof.
  unfold SplitMergeSystem.attemptMerge.
  destruct (PhysicsEngine.getEntity parentId _) as [parent |] eqn:Ep;
    [| apply removePlayerSplit_length].
  destruct (PhysicsEngine.getEntity splitId _) as [split |] eqn:Es;
    [| apply removePlayerSplit_length].
  cbv zeta. destruct (JS.ltb _ _); [| lia].
  unfold SplitMergeSystem.mergeCells. rewrite Ep, Es. cbv zeta.
  match goal with
  | |- context [SplitMergeSystem.removePlayerSplit parentId splitId ?s0] =>
      pose proof (removePlayerSplit_length parentId splitId s0 q) as H
  end.
  exact H.
Qed.

Lemma updateSplitAt_length now playerId i s s' q :
  SplitMergeSystem.updateSplitAt now playerId i s = Some s' ->
  (length (default [] (SplitMergeSystem.playerSplits s' !! q))
   <= length (default [] (SplitMergeSystem.playerSplits s !! q)))%nat.
Proof.
  unfold SplitMergeSystem.updateSplitAt. cbv zeta.
  destruct (default [] (SplitMergeSystem.playerSplits s !! playerId) !! i)
    as [split |] eqn:E; [| discriminate].
  intros [= <-].
  set (enable := negb (SplitMergeSystem.canMerge split) && _).
  set (s1 := if enable then _ else s).
  assert (H1 : (length (default [] (SplitMergeSystem.playerSplits s1 !! q))
                <= length (default [] (SplitMergeSystem.playerSplits s !! q)))%nat).
  { unfold s1. destruct enable; [| lia]. cbn [SplitMergeSystem.playerSplits].
    destruct (decide (playerId = q)) as [<- | Hne].
    - rewrite lookup_insert_eq. simpl. rewrite length_insert. lia.
    - rewrite lookup_insert_ne by exact Hne. lia. }
  destruct (SplitMergeSystem.canMerge (if enable then _ else split)); [| exact H1].
  etransitivity; [apply attemptMerge_length | exact H1].
Qed.

Lemma updateSplitsFrom_enough now playerId steps : forall i s more,
  (length (default [] (SplitMergeSystem.playerSplits s !! playerId)) <= i + steps)%nat ->
  SplitMergeSystem.updateSplitsFrom (steps + more) now playerId i s
  = SplitMergeSystem.updateSplitsFrom steps now playerId i s.
Proof.
  induction steps as [| steps IH]; intros i s more Hlen.
  - simpl. destruct more as [| more]; [reflexivity |]. simpl.
    unfold SplitMergeSystem.updateSplitAt. cbv zeta.
    rewrite lookup_ge_None_2 by lia. reflexivity.
  - simpl. destruct (SplitMergeSystem.updateSplitAt now playerId i s) as [s' |] eqn:E;
      [| reflexivity].
    apply IH. pose proof (updateSplitAt_length now playerId i s s' playerId E). lia.
Qed.

Lemma updateSplitsFrom_idle now playerId steps : forall i s,
  (forall sp, sp ∈ default [] (SplitMergeSystem.playerSplits s !! playerId) ->
     SplitMergeSystem.canMerge sp = false
     /\ (now - SplitMergeSystem.createdAt sp
         <= SplitMergeSystem.mergeTime (SplitMergeSystem.config s))%Z) ->
  SplitMergeSystem.updateSplitsFrom steps now playerId i s = s.
Proof.
  induction steps as [| steps IH]; intros i s Hidle; [reflexivity |]. simpl.
  unfold SplitMergeSystem.updateSplitAt. cbv zeta.
  destruct (default [] (SplitMergeSystem.playerSplits s !! playerId) !! i)
    as [split |] eqn:E; [| reflexivity].
  destruct (Hidle split (list_elem_of_lookup_2 _ _ _ E)) as [Hc Ht].
  rewrite Hc. simpl.
  destruct (Z.ltb_spec (SplitMergeSystem.mergeTime (SplitMergeSystem.config s))
              (now - SplitMergeSystem.createdAt split)); [lia |].
  rewrite Hc. apply IH, Hidle.
Qed.

(** X28.  Nothing merges before its time.  If no split record is
    enabled for merging and none is older than [mergeTime], [update]
    leaves the whole system unchanged, whatever the positions of the
    cells.  The inner loop of [update] always comes to its end within as
    many steps as the player's array is long at the start. *)
Theorem update_waits_for_mergeTime (order : list string) (now : Z) (s : SplitMergeSystem.t)
    (Hidle : forall playerId sp,
        sp ∈ default [] (SplitMergeSystem.playerSplits s !! playerId) ->
        SplitMergeSystem.canMerge sp = false
        /\ (now - SplitMergeSystem.createdAt sp
            <= SplitMergeSystem.mergeTime (SplitMergeSystem.config s))%Z) :
  SplitMergeSystem.update order now s = s
  /\ (forall t playerId s0 more,
        SplitMergeSystem.updateSplitsFrom
          (length (default [] (SplitMergeSystem.playerSplits s0 !! playerId)) + more)
          t playerId 0 s0
        = SplitMergeSystem.updateSplitsFrom
            (length (default [] (SplitMergeSystem.playerSplits s0 !! playerId)))
            t playerId 0 s0).
Proof.
  split.
  - unfold SplitMergeSystem.update.
    apply (foldl_invariant _ (fun acc => acc = s)); [| reflexivity].
    intros acc playerId ->.
    destruct (SplitMergeSystem.playerSplits s !! playerId); [| reflexivity].
    apply updateSplitsFrom_idle. intros sp. apply Hidle.
  - intros t playerId s0 more. apply updateSplitsFrom_enough. lia.
Qed.

Lemma update_waits_for_mergeTime_witness :
  let s1 := fst (SplitMergeSystem.performSplit 5000 "player" None Scenario.splitter) in
  SplitMergeSystem.update ["player"] 6000 s1 = s1.
Proof.
  cbv zeta.
  assert (Hp : PhysicsEngine.getEntity "player"
                 (SplitMergeSystem.physicsEngine Scenario.splitter)
               = Some (Client.mkEntity "player" (Client.mkVector2D 1000 1000)
                         (Client.mkVector2D 0 0) 80 (PhysicsEngine.calculateRadius 80)
                         Client.Player))
    by apply lookup_insert_eq.
  assert (Hcan : SplitMergeSystem.canPlayerSplit 5000 "player" Scenario.splitter = true).
  { apply (canPlayerSplit_true _ _ _ _ Hp).
    - simpl. lra.
    - simpl. rewrite lookup_empty. simpl. lia.
    - simpl. rewrite lookup_empty. simpl. lia. }
  destruct (split_records_after 5000 "player" None Scenario.splitter _ Hcan Hp)
    as (Hcfg & Hps & _). cbv zeta in Hcfg, Hps.
  apply update_waits_for_mergeTime.
  intros playerId sp Hsp. rewrite Hps in Hsp. rewrite Hcfg.
  destruct (decide (playerId = "player")) as [-> | Hne].
  - rewrite lookup_insert_eq in Hsp. simpl in Hsp. rewrite lookup_empty in Hsp.
    simpl in Hsp. apply list_elem_of_singleton in Hsp. subst sp. simpl. split; [reflexivity | lia].
  - rewrite lookup_insert_ne in Hsp by congruence. simpl in Hsp.
    rewrite lookup_empty in Hsp. inversion Hsp.
Defined.

(** The step of the merge loop at the head of the array, for a record
    that is due and whose cells touch. *)
Lemma updateSplitAt_merges now playerId s sp rest parent split :
  SplitMergeSystem.playerSplits s !! playerId = Some (sp :: rest) ->
  SplitMergeSystem.canMerge sp = true
  \/ (SplitMergeSystem.mergeTime (SplitMergeSystem.config s)
      < now - SplitMergeSystem.createdAt sp)%Z ->
  playerId <> SplitMergeSystem.id sp ->
  PhysicsEngine.getEntity playerId (SplitMergeSystem.physicsEngine s) = Some parent ->
  PhysicsEngine.getEntity (SplitMergeSystem.id sp) (SplitMergeSystem.physicsEngine s)
  = Some split ->
  sqrt ((Client.x (Client.position parent) - Client.x (Client.position split))
        * (Client.x (Client.position parent) - Client.x (Client.position split))
        + (Client.y (Client.position parent) - Client.y (Client.position split))
          * (Client.y (Client.position parent) - Client.y (Client.position split)))
  < (Client.radius parent + Client.radius split) * (8 / 10) ->
  exists s',
    SplitMergeSystem.updateSplitAt now playerId 0 s = Some s'
    /\ SplitMergeSystem.playerSplits s' !! playerId = Some rest
    /\ forall i,
         PhysicsEngine.entities (SplitMergeSystem.physicsEngine s') !! i
         = if decide (i = SplitMergeSystem.id sp) then None
           else if decide (i = playerId) then
             Some (Client.mkEntity (Client.id parent)
                     (Client.mkVector2D
                        ((Client.x (Client.position parent) * Client.mass parent
                          + Client.x (Client.position split) * Client.mass split)
                         / (Client.mass parent + Client.mass split))
                        ((Client.y (Client.position parent) * Client.mass parent
                          + Client.y (Client.position split) * Client.mass split)
                         / (Client.mass parent + Client.mass split)))
                     (Client.velocity parent)
                     (Client.mass parent + Client.mass split)
                     (PhysicsEngine.calculateRadius (Client.mass parent + Client.mass split))
                     (Client.type parent))
           else PhysicsEngine.entities (SplitMergeSystem.physicsEngine s) !! i.
Proof.
  intros Hrecord Hready Hne Hparent Hsplit Hclose.
  unfold SplitMergeSystem.updateSplitAt. cbv zeta. rewrite Hrecord.
  change (default [] (Some (sp :: rest)) !! 0%nat) with (Some sp). cbv beta iota.
  set (enable := negb (SplitMergeSystem.canMerge sp) && _).
  set (sp' := if enable then _ else sp).
  set (s1 := if enable then _ else s).
  assert (Hid : SplitMergeSystem.id sp' = SplitMergeSystem.id sp)
    by (unfold sp'; destruct enable; reflexivity).
  assert (Hcm : SplitMergeSystem.canMerge sp' = true).
  { unfold sp'. destruct enable eqn:E; [reflexivity |].
    destruct Hready as [H | H]; [exact H |].
    unfold enable in E. apply andb_false_iff in E as [E | E].
    - destruct (SplitMergeSystem.canMerge sp); [reflexivity | discriminate].
    - apply Z.ltb_ge in E. lia. }
  assert (Hpe : SplitMergeSystem.physicsEngine s1 = SplitMergeSystem.physicsEngine s)
    by (unfold s1; destruct enable; reflexivity).
  assert (Hps : SplitMergeSystem.playerSplits s1 !! playerId = Some (sp' :: rest)).
  { unfold s1, sp'. destruct enable; [| exact Hrecord].
    cbn [SplitMergeSystem.playerSplits]. apply lookup_insert_eq. }
  rewrite Hcm, Hid. clearbody s1 sp'.
  assert (Hp1 : PhysicsEngine.getEntity playerId (SplitMergeSystem.physicsEngine s1)
                = Some parent) by (rewrite Hpe; exact Hparent).
  assert (Hs1 : PhysicsEngine.getEntity (SplitMergeSystem.id sp)
                  (SplitMergeSystem.physicsEngine s1) = Some split)
    by (rewrite Hpe; exact Hsplit).
  assert (Hmerge : SplitMergeSystem.attemptMerge playerId (SplitMergeSystem.id sp) s1
                   = SplitMergeSystem.mergeCells playerId (SplitMergeSystem.id sp) s1).
  { unfold SplitMergeSystem.attemptMerge. rewrite Hp1, Hs1. cbv zeta.
    destruct (JS.ltb _ _) eqn:E; [reflexivity |]. apply ltb_false in E. lra. }
  rewrite Hmerge. eexists. split; [reflexivity |]. split.
  - rewrite (mergeCells_playerSplits _ _ _ _ _ Hp1 Hs1), Hps.
    cbn [from_option Datatypes.id SplitMergeSystem.spliceFirst].
    destruct (decide (SplitMergeSystem.id sp' = SplitMergeSystem.id sp)); [| contradiction].
    apply lookup_insert_eq.
  - intros i. rewrite (mergeCells_entities _ _ _ _ _ Hne Hp1 Hs1). cbv zeta.
    destruct (decide (i = SplitMergeSystem.id sp)) as [-> | H1];
      [apply lookup_delete_eq |].
    rewrite lookup_delete_ne by congruence.
    destruct (decide (i = playerId)) as [-> | H2]; [apply lookup_insert_eq |].
    rewrite lookup_insert_ne by congruence. rewrite Hpe. reflexivity.
Qed.

(** X29.  Touching cells merge once the record is due.  For a player
    with one split record that is enabled for merging or older than
    [mergeTime], whose two cells both exist and lie closer than 0.8 times
    the sum of their radii, one [update] merges them: the split cell
    leaves the table, the parent gets the sum of the masses with the
    radius of that sum, the record is removed and no other entity
    changes. *)
Theorem update_merges_touching_cells (now : Z) (playerId : string)
    (s : SplitMergeSystem.t) (sp : SplitMergeSystem.PlayerSplit)
    (parent split : Client.Entity)
    (Hrecord : SplitMergeSystem.playerSplits s !! playerId = Some [sp])
    (Hready : SplitMergeSystem.canMerge sp = true
              \/ (SplitMergeSystem.mergeTime (SplitMergeSystem.config s)
                  < now - SplitMergeSystem.createdAt sp)%Z)
    (Hne : playerId <> SplitMergeSystem.id sp)
    (Hparent : PhysicsEngine.getEntity playerId (SplitMergeSystem.physicsEngine s)
               = Some parent)
    (Hsplit : PhysicsEngine.getEntity (SplitMergeSystem.id sp)
                (SplitMergeSystem.physicsEngine s) = Some split)
    (Hclose : sqrt ((Client.x (Client.position parent) - Client.x (Client.position split))
                    * (Client.x (Client.position parent) - Client.x (Client.position split))
                    + (Client.y (Client.position parent) - Client.y (Client.position split))
                      * (Client.y (Client.position parent) - Client.y (Client.position split)))
              < (Client.radius parent + Client.radius split) * (8 / 10)) :
  let s' := SplitMergeSystem.update [playerId] now s in
  let entities' := PhysicsEngine.entities (SplitMergeSystem.physicsEngine s') in
  entities' !! SplitMergeSystem.id sp = None
  /\ Client.mass <$> (entities' !! playerId)
     = Some (Client.mass parent + Client.mass split)
  /\ Client.radius <$> (entities' !! playerId)
     = Some (PhysicsEngine.calculateRadius (Client.mass parent + Client.mass split))
  /\ (forall i, i <> playerId -> i <> SplitMergeSystem.id sp ->
        entities' !! i = PhysicsEngine.entities (SplitMergeSystem.physicsEngine s) !! i)
  /\ SplitMergeSystem.playerSplits s' !! playerId = Some [].
Proof.
  cbv zeta.
  destruct (updateSplitAt_merges now playerId s sp [] parent split
              Hrecord Hready Hne Hparent Hsplit Hclose) as (s' & Hstep & Hps & Hes).
  unfold SplitMergeSystem.update. cbn [foldl]. rewrite Hrecord.
  cbn [length SplitMergeSystem.updateSplitsFrom]. rewrite Hstep.
  split_and!.
  - rewrite Hes. destruct (decide _); [reflexivity | contradiction].
  - rewrite Hes. destruct (decide (playerId = SplitMergeSystem.id sp)); [contradiction |].
    destruct (decide (playerId = playerId)); [reflexivity | contradiction].
  - rewrite Hes. destruct (decide (playerId = SplitMergeSystem.id sp)); [contradiction |].
    destruct (decide (playerId = playerId)); [reflexivity | contradiction].
  - intros i H1 H2. rewrite Hes.
    destruct (decide (i = SplitMergeSystem.id sp)); [contradiction |].
    destruct (decide (i = playerId)); [contradiction | reflexivity].
  - exact Hps.
Qed.

(** X30.  A merge makes the loop skip the next record.  For a player
    with two split records, the first due and its cells touching, one
    [update] merges the first cell and ends: the second record is left as
    it was, not enabled and not merged even when it is due and its cell
    touches the parent, and its cell stays in the table. *)
Theorem merge_skips_next_record (now : Z) (playerId : string)
    (s : SplitMergeSystem.t) (sp sp2 : SplitMergeSystem.PlayerSplit)
    (parent split : Client.Entity)
    (Hrecord : SplitMergeSystem.playerSplits s !! playerId = Some [sp; sp2])
    (Hready : SplitMergeSystem.canMerge sp = true
              \/ (SplitMergeSystem.mergeTime (SplitMergeSystem.config s)
                  < now - SplitMergeSystem.createdAt sp)%Z)
    (Hne : playerId <> SplitMergeSystem.id sp)
    (Hparent : PhysicsEngine.getEntity playerId (SplitMergeSystem.physicsEngine s)
               = Some parent)
    (Hsplit : PhysicsEngine.getEntity (SplitMergeSystem.id sp)
                (SplitMergeSystem.physicsEngine s) = Some split)
    (Hclose : sqrt ((Client.x (Client.position parent) - Client.x (Client.position split))
                    * (Client.x (Client.position parent) - Client.x (Client.position split))
                    + (Client.y (Client.position parent) - Client.y (Client.position split))
                      * (Client.y (Client.position parent) - Client.y (Client.position split)))
              < (Client.radius parent + Client.radius split) * (8 / 10)) :
  let s' := SplitMergeSystem.update [playerId] now s in
  let entities' := PhysicsEngine.entities (SplitMergeSystem.physicsEngine s') in
  SplitMergeSystem.playerSplits s' !! playerId = Some [sp2]
  /\ entities' !! SplitMergeSystem.id sp = None
  /\ Client.mass <$> (entities' !! playerId)
     = Some (Client.mass parent + Client.mass split)
  /\ (forall i, i <> playerId -> i <> SplitMergeSystem.id sp ->
        entities' !! i = PhysicsEngine.entities (SplitMergeSystem.physicsEngine s) !! i).
Proof.
  cbv zeta.
  destruct (updateSplitAt_merges now playerId s sp [sp2] parent split
              Hrecord Hready Hne Hparent Hsplit Hclose) as (s' & Hstep & Hps & Hes).
  unfold SplitMergeSystem.update. cbn [foldl]. rewrite Hrecord.
  cbn [length SplitMergeSystem.updateSplitsFrom]. rewrite Hstep.
  assert (Hend : SplitMergeSystem.updateSplitAt now playerId 1 s' = None).
  { unfold SplitMergeSystem.updateSplitAt. cbv zeta. rewrite Hps. reflexivity. }
  rewrite Hend.
  split_and!.
  - exact Hps.
  - rewrite Hes. destruct (decide _); [reflexivity | contradiction].
  - rewrite Hes. destruct (decide (playerId = SplitMergeSystem.id sp)); [contradiction |].
    destruct (decide (playerId = playerId)); [reflexivity | contradiction].
  - intros i H1 H2. rewrite Hes.
    destruct (decide (i = SplitMergeSystem.id sp)); [contradiction |].
    destruct (decide (i = playerId)); [contradiction | reflexivity].
Qed.

Lemma update_merges_touching_cells_witness :
  PhysicsEngine.entities
    (SplitMergeSystem.physicsEngine
       (SplitMergeSystem.update ["player"] 40000
          (SplitMergeSystem.mk Scenario.clientPair SplitMergeSystem.defaultConfig
             {["player" := [SplitMergeSystem.mkPlayerSplit "pellet" "player" 0 false]]}
             ∅))) !! "pellet" = None.
Proof.
  destruct clientPair_lookup as [Hp Hq].
  destruct clientPair_overlap as (_ & _ & Hrq & _).
  pose proof (radius_positive 100 ltac:(lra)) as Hrp.
  refine (proj1 (update_merges_touching_cells 40000 "player"
                   (SplitMergeSystem.mk Scenario.clientPair SplitMergeSystem.defaultConfig
                      {["player" := [SplitMergeSystem.mkPlayerSplit "pellet" "player" 0 false]]}
                      ∅)
                   (SplitMergeSystem.mkPlayerSplit "pellet" "player" 0 false)
                   Scenario.clientPlayer Scenario.clientPellet _ _ _ Hp Hq _)).
  - apply lookup_singleton_eq.
  - right. simpl. lia.
  - discriminate.
  - simpl.
    replace ((500 - 500) * (500 - 500) + (500 - 500) * (500 - 500)) with 0 by lra.
    rewrite sqrt_0. simpl in Hrq. unfold PhysicsEngine.calculateRadius in *. lra.
Defined.

Lemma merge_skips_next_record_witness :
  SplitMergeSystem.playerSplits
    (SplitMergeSystem.update ["player"] 40000
       (SplitMergeSystem.mk Scenario.clientPair SplitMergeSystem.defaultConfig
          {["player" := [SplitMergeSystem.mkPlayerSplit "pellet" "player" 0 false;
                         SplitMergeSystem.mkPlayerSplit "other" "player" 0 false]]}
          ∅)) !! "player"
  = Some [SplitMergeSystem.mkPlayerSplit "other" "player" 0 false].
Proof.
  destruct clientPair_lookup as [Hp Hq].
  destruct clientPair_overlap as (_ & _ & Hrq & _).
  pose proof (radius_positive 100 ltac:(lra)) as Hrp.
  refine (proj1 (merge_skips_next_record 40000 "player"
                   (SplitMergeSystem.mk Scenario.clientPair SplitMergeSystem.defaultConfig
                      {["player" := [SplitMergeSystem.mkPlayerSplit "pellet" "player" 0 false;
                                     SplitMergeSystem.mkPlayerSplit "other" "player" 0 false]]}
                      ∅)
                   (SplitMergeSystem.mkPlayerSplit "pellet" "player" 0 false)
                   (SplitMergeSystem.mkPlayerSplit "other" "player" 0 false)
                   Scenario.clientPlayer Scenario.clientPellet _ _ _ Hp Hq _)).
  - apply lookup_singleton_eq.
  - right. simpl. lia.
  - discriminate.
  - simpl.
    replace ((500 - 500) * (500 - 500) + (500 - 500) * (500 - 500)) with 0 by lra.
    rewrite sqrt_0. simpl in Hrq. unfold PhysicsEngine.calculateRadius in *. lra.
Defined.
